(** * Viewer-side projections of the autonomous researcher front end

    A shallow embedding of two React components of the repository,

      - [frontend/src/components/StreamingMarkdown.tsx]
        (the "Streaming Text Presenter" of the specification), and
      - [frontend/src/components/FindingsRail.tsx]
        (the "Insight Rail Projector" [FindingsRail] and the
        "Chart Projector" [MiniChart]),

    together with the properties the specification states about them.

    Conventions.  A React function component is a function from its props
    (and, for a component with refs, from the refs of the mounted
    instance) to what it renders.  An effect is a state transformer on the
    refs that also reports the state setters it calls. *)

From Stdlib Require Import List Bool Arith ZArith String Ascii Lia.
From Stdlib Require Import QArith Qround Qabs Qpower Lqa DecimalString Floats.
From Stdlib Require Import Sorted Permutation.
Import ListNotations.

Close Scope Q_scope.
Close Scope Z_scope.

(* ================================================================== *)
(** * The JavaScript the components rely on *)
(* ================================================================== *)

Module JS.

Local Open Scope string_scope.
Local Open Scope Z_scope.

(** Decimal digits of a natural number, ["0"] for zero. *)
Definition digits (n : Z) : string :=
  NilZero.string_of_uint (N.to_uint (Z.to_N n)).

Fixpoint zeros (n : nat) : string :=
  match n with
  | O => ""
  | S n' => String "0" (zeros n')
  end.

Definition substring_from (k : nat) (s : string) : string :=
  String.substring k (String.length s - k) s.

Definition pow10 (k : Z) : Q := Qpower 10 k.

(** The integer [n] for which [n - x] is closest to zero, the larger one
    of two. *)
Definition round_half_up (x : Q) : Z := Qfloor (x + (1 # 2))%Q.

(** [Number.prototype.toFixed] on a finite value [x] of magnitude below
    [10^21], by the steps of ECMA-262 (21.1.3.3).  From [10^21] on the
    builtin returns [Number::toString(x)], the shortest digits that
    identify the binary64 value: [None] here, for the caller to print
    them ([binary64_toFixed] below does). *)
Definition toFixed_finite (x : Q) (f : nat) : option string :=
  let s := if Qlt_le_dec x 0 then "-" else "" in
  let x := Qabs x in
  if Qlt_le_dec x (pow10 21) then
    let n := round_half_up (x * pow10 (Z.of_nat f))%Q in
    let m := digits n in
    let m :=
      match f with
      | O => m
      | _ =>
          let k := String.length m in
          let m := if (k <=? f)%nat then zeros (f + 1 - k) ++ m else m in
          let k := String.length m in
          String.substring 0 (k - f) m ++ "." ++ substring_from (k - f) m
      end in
    Some (s ++ m)
  else None.

(** Number of decimal digits of a positive integer. *)
Definition ndigits (p : positive) : Z :=
  Z.of_nat (String.length (digits (Zpos p))).

(** [floor (log10 x)] for [x > 0]. *)
Definition floor_log10 (x : Q) : Z :=
  match Qnum x with
  | Zpos a =>
      let d := ndigits a - ndigits (Qden x) in
      if Qle_bool (pow10 d) x then d else d - 1
  | _ => 0
  end.

(** [Number.prototype.toPrecision] on a finite value [x] with [p >= 1]
    significant digits, by the steps of ECMA-262 (21.1.3.5). *)
Definition toPrecision_finite (x : Q) (p : nat) : string :=
  let s := if Qlt_le_dec x 0 then "-" else "" in
  let x := Qabs x in
  let pz := Z.of_nat p in
  let '(m, e) :=
    if Qeq_bool x 0 then (zeros p, 0)
    else
      let e := floor_log10 x in
      let n := round_half_up (x / pow10 (e - pz + 1))%Q in
      if n =? 10 ^ pz then (digits (10 ^ (pz - 1)), e + 1) else (digits n, e) in
  if (e <? -6) || (pz <=? e) then
    let m :=
      match p with
      | 1%nat => m
      | _ => String.substring 0 1 m ++ "." ++ substring_from 1 m
      end in
    let c := if 0 <=? e then "+" else "-" in
    s ++ m ++ "e" ++ c ++ digits (Z.abs e)
  else if e =? pz - 1 then s ++ m
  else if 0 <=? e then
    s ++ String.substring 0 (Z.to_nat (e + 1)) m ++ "."
      ++ substring_from (Z.to_nat (e + 1)) m
  else s ++ "0." ++ zeros (Z.to_nat (- (e + 1))) ++ m.


(** ** Numbers

    Every JavaScript number is a binary64 float.  The components are
    embedded over an interface of the operations they use, with two
    implementations: [binary64], the floats of IEEE 754 themselves, on
    which the components run as the browser runs them; and [exact],
    where a finite number is the rational it denotes and arithmetic
    neither rounds nor overflows, on which the arithmetic of the
    components can be reasoned about. *)
Class Number (N : Type) : Type := {
  of_Z : Z -> N;                      (* an integer literal or a length *)
  Infinity : N;
  neg : N -> N;                       (* unary [-] *)
  add : N -> N -> N;
  sub : N -> N -> N;
  mul : N -> N -> N;
  div : N -> N -> N;
  geb : N -> N -> bool;               (* [>=] *)
  ltb : N -> N -> bool;               (* [<] *)
  truthy : N -> bool;                 (* ToBoolean *)
  isNaN : N -> bool;
  isFinite : N -> bool;               (* Number.isFinite *)
  Math_abs : N -> N;
  toFixed : N -> nat -> option string;
  toPrecision : N -> nat -> string
}.

(** [Math.min(a, b)] and [Math.max(a, b)] (signed zeros are not told
    apart). *)
Definition min2 {N} `{Number N} (a b : N) : N :=
  if isNaN a then a else if isNaN b then b else if ltb b a then b else a.

Definition max2 {N} `{Number N} (a b : N) : N :=
  if isNaN a then a else if isNaN b then b else if ltb a b then b else a.

(** [Math.min(...l)] and [Math.max(...l)]. *)
Definition Math_min {N} `{Number N} (l : list N) : N :=
  fold_left min2 l Infinity.

Definition Math_max {N} `{Number N} (l : list N) : N :=
  fold_left max2 l (neg Infinity).

(** *** Exact numbers *)

Local Open Scope Q_scope.

Inductive exact : Type :=
| Fin (q : Q)
| PInf
| NInf
| NaN.

Definition exact_neg (a : exact) : exact :=
  match a with
  | Fin q => Fin (- q)
  | PInf => NInf
  | NInf => PInf
  | NaN => NaN
  end.

Definition exact_add (a b : exact) : exact :=
  match a, b with
  | NaN, _ | _, NaN => NaN
  | Fin p, Fin q => Fin (p + q)
  | PInf, NInf | NInf, PInf => NaN
  | PInf, _ | _, PInf => PInf
  | NInf, _ | _, NInf => NInf
  end.

Definition exact_sub (a b : exact) : exact := exact_add a (exact_neg b).

(** Sign of a number that is not [NaN]: [Lt] negative, [Eq] zero. *)
Definition exact_sign (a : exact) : comparison :=
  match a with
  | Fin q => q ?= 0
  | PInf => Gt
  | NInf => Lt
  | NaN => Eq
  end.

Definition signed_infinity (s t : comparison) : exact :=
  match s, t with
  | Eq, _ | _, Eq => NaN
  | Lt, Lt | Gt, Gt => PInf
  | _, _ => NInf
  end.

Definition exact_mul (a b : exact) : exact :=
  match a, b with
  | NaN, _ | _, NaN => NaN
  | Fin p, Fin q => Fin (p * q)
  | _, _ => signed_infinity (exact_sign a) (exact_sign b)
  end.

Definition exact_div (a b : exact) : exact :=
  match a, b with
  | NaN, _ | _, NaN => NaN
  | Fin p, Fin q =>
      if Qeq_bool q 0
      then signed_infinity (p ?= 0) Gt      (* x / 0 *)
      else Fin (p / q)
  | Fin _, _ => Fin 0
  | _, Fin q =>
      signed_infinity (exact_sign a) (if Qeq_bool q 0 then Gt else q ?= 0)
  | _, _ => NaN
  end.

(** The order of two numbers, [None] when one of them is [NaN]. *)
Definition exact_compare (a b : exact) : option comparison :=
  match a, b with
  | NaN, _ | _, NaN => None
  | Fin p, Fin q => Some (p ?= q)
  | PInf, PInf | NInf, NInf => Some Eq
  | PInf, _ | _, NInf => Some Gt
  | NInf, _ | _, PInf => Some Lt
  end.

Definition exact_ltb (a b : exact) : bool :=
  match exact_compare a b with
  | Some Lt => true
  | _ => false
  end.

Definition exact_geb (a b : exact) : bool :=
  match exact_compare a b with
  | Some Gt | Some Eq => true
  | _ => false
  end.

Definition exact_truthy (a : exact) : bool :=
  match a with
  | Fin q => negb (Qeq_bool q 0)
  | NaN => false
  | _ => true
  end.

Definition exact_isNaN (a : exact) : bool :=
  match a with NaN => true | _ => false end.

Definition exact_isFinite (a : exact) : bool :=
  match a with Fin _ => true | _ => false end.

Definition exact_abs (a : exact) : exact :=
  match a with
  | Fin q => Fin (Qabs q)
  | NInf => PInf
  | _ => a
  end.

Definition exact_toFixed (a : exact) (f : nat) : option string :=
  match a with
  | Fin q => toFixed_finite q f
  | PInf => Some "Infinity"
  | NInf => Some "-Infinity"
  | NaN => Some "NaN"
  end.

Definition exact_toPrecision (a : exact) (p : nat) : string :=
  match a with
  | Fin q => toPrecision_finite q p
  | PInf => "Infinity"
  | NInf => "-Infinity"
  | NaN => "NaN"
  end.

#[export] Instance exact_Number : Number exact := {
  of_Z z := Fin (inject_Z z);
  Infinity := PInf;
  neg := exact_neg;
  add := exact_add;
  sub := exact_sub;
  mul := exact_mul;
  div := exact_div;
  geb := exact_geb;
  ltb := exact_ltb;
  truthy := exact_truthy;
  isNaN := exact_isNaN;
  isFinite := exact_isFinite;
  Math_abs := exact_abs;
  toFixed := exact_toFixed;
  toPrecision := exact_toPrecision
}.

(** *** Binary64 numbers *)

Definition binary64 : Type := PrimFloat.float.

Definition binary64_of_Z (z : Z) : binary64 :=
  match z with
  | Z0 => PrimFloat.zero
  | Zpos _ => PrimFloat.of_uint63 (Uint63.of_Z z)
  | Zneg p => PrimFloat.opp (PrimFloat.of_uint63 (Uint63.of_Z (Zpos p)))
  end.

Definition binary64_isFinite (x : binary64) : bool :=
  negb (PrimFloat.is_nan x || PrimFloat.is_infinity x).

(** The rational a float denotes. *)
Definition binary64_to_Q (x : binary64) : option Q :=
  match Prim2SF x with
  | S754_zero _ => Some 0%Q
  | S754_finite s m e =>
      let n := if s then Zneg m else Zpos m in
      Some (inject_Z n * Qpower 2 e)%Q
  | _ => None
  end.

(** The integer [z] rounds to the double [x]. *)
Definition rounds_to (z : Z) (x : spec_float) : bool :=
  SFeqb (binary_normalize prec emax z 0 false) x.

(** The digits [s] of [Number::toString] (ECMA-262 6.1.6.1.20) for a
    double [x] whose value is the integer [X] of [n] decimal digits: the
    [k] digits, for the least [k] from the given one on, with
    [s * 10^(n - k)] rounding to [x]; of two such [s] the one nearer to
    [X].  Seventeen digits identify every double. *)
Fixpoint shortest_digits (fuel : nat) (k : Z) (X n : Z) (x : spec_float)
  : Z :=
  let p := (10 ^ (n - k))%Z in
  let lo := (X / p)%Z in
  let hi := (lo + 1)%Z in
  match fuel with
  | O => lo
  | S fuel' =>
      match rounds_to (lo * p) x, rounds_to (hi * p) x with
      | true, true => if (X - lo * p <=? hi * p - X)%Z then lo else hi
      | true, false => lo
      | false, true => hi
      | false, false => shortest_digits fuel' (k + 1) X n x
      end
  end.

(** [Number::toString(x)] for a positive double [x] of value [X >= 10^21]:
    more than 21 digits before the point, hence the exponent notation,
    the first digit, the others after a point if there are any, and
    ["e+"] with the exponent. *)
Definition Number_toString (X : Z) (x : spec_float) : string :=
  let n := Z.of_nat (String.length (digits X)) in
  let s := shortest_digits 17 1 X n x in
  let '(m, e) := if (s =? 10)%Z then ("1", n) else (digits s, (n - 1)%Z) in
  let m :=
    match m with
    | String c EmptyString => m
    | _ => String.substring 0 1 m ++ "." ++ substring_from 1 m
    end in
  m ++ "e+" ++ digits e.

Definition binary64_toFixed (x : binary64) (f : nat) : option string :=
  match binary64_to_Q x with
  | Some q =>
      (* [-0] prints without its sign *)
      match toFixed_finite q f with
      | Some s => Some s
      | None =>
          Some ((if Qlt_le_dec q 0 then "-" else "")
                ++ Number_toString (Qfloor (Qabs q)) (SFabs (Prim2SF x)))
      end
  | None =>
      if PrimFloat.is_nan x then Some "NaN"
      else if PrimFloat.ltb x PrimFloat.zero then Some "-Infinity"
      else Some "Infinity"
  end.

Definition binary64_toPrecision (x : binary64) (p : nat) : string :=
  match binary64_to_Q x with
  | Some q => toPrecision_finite q p
  | None =>
      if PrimFloat.is_nan x then "NaN"
      else if PrimFloat.ltb x PrimFloat.zero then "-Infinity"
      else "Infinity"
  end.

#[export] Instance binary64_Number : Number binary64 := {
  of_Z := binary64_of_Z;
  Infinity := PrimFloat.infinity;
  neg := PrimFloat.opp;
  add := PrimFloat.add;
  sub := PrimFloat.sub;
  mul := PrimFloat.mul;
  div := PrimFloat.div;
  geb x y := PrimFloat.leb y x;
  ltb := PrimFloat.ltb;
  truthy x := negb (PrimFloat.is_zero x || PrimFloat.is_nan x);
  isNaN := PrimFloat.is_nan;
  isFinite := binary64_isFinite;
  Math_abs := PrimFloat.abs;
  toFixed := binary64_toFixed;
  toPrecision := binary64_toPrecision
}.

End JS.

(* ================================================================== *)
(** * Binary64 arithmetic *)
(* ================================================================== *)

(** Facts about the floats of IEEE 754 that the components rely on, from
    the specification of the operations ([SpecFloat]): how numbers
    compare, when a difference is zero, and what the operations compute:
    the exact result, rounded to the nearest double. *)
Module Float64.

Import JS.

Local Open Scope Z_scope.

(** Zero or a finite number: neither an infinity nor NaN. *)
Definition is_finite_SF (x : spec_float) : bool :=
  match x with
  | S754_zero _ | S754_finite _ _ _ => true
  | _ => false
  end.

Definition is_number (x : spec_float) : bool :=
  match x with S754_nan => false | _ => true end.

(** The value of a finite number in units of [2 ^ emin], the least
    positive double. *)
Definition scaled (x : spec_float) : Z :=
  match x with
  | S754_finite s m e => cond_Zopp s (Zpos m * 2 ^ (e - emin))
  | _ => 0
  end.

(** [2 ^ 1074], the number of units in 1. *)
Definition unit_denominator : positive := Z.to_pos (2 ^ (- emin)).

(** An integer that converts to the double of the same value. *)
Definition exact_integer (c : Z) : Prop :=
  binary64_isFinite (binary64_of_Z c) = true /\
  scaled (Prim2SF (binary64_of_Z c)) = c * Zpos unit_denominator.

(** *** Rounding *)

(** [2 ^ e] for an exponent of either sign. *)
Definition pow2 (e : Z) : Q := Qpower 2 e.

(** The round bit and the sticky bit of a record stand for the fraction
    [f] that was shifted out: the round bit tells whether it is at least
    one half, the sticky bit whether it is neither zero nor one half. *)
Definition fraction (r s : bool) (f : Q) : Prop :=
  (0 <= f < 1)%Q /\ (r = true <-> (1 # 2 <= f)%Q) /\
  (s = true <-> ~ (f == 0)%Q /\ ~ (f == 1 # 2)%Q).

(** [b] is [a] shifted to the right by [k] places. *)
Definition shifted (k : Z) (a b : shr_record) : Prop :=
  0 <= shr_m a ->
  0 <= shr_m b /\
  forall f, fraction (shr_r a) (shr_s a) f ->
    exists f', fraction (shr_r b) (shr_s b) f' /\
               (inject_Z (shr_m a) + f
                == inject_Z (2 ^ k) * (inject_Z (shr_m b) + f'))%Q.

(** Where a number lies between a mantissa and the next one. *)
Definition located (l : location) (f : Q) : Prop :=
  match l with
  | loc_Exact => (f == 0)%Q
  | loc_Inexact Lt => (0 < f < 1 # 2)%Q
  | loc_Inexact Eq => (f == 1 # 2)%Q
  | loc_Inexact Gt => (1 # 2 < f < 1)%Q
  end.

(** Rounding to the nearest integer, to the even one from the middle. *)
Definition rne (m : Z) (f : Q) : Z :=
  match (f ?= 1 # 2)%Q with
  | Lt => m
  | Eq => if Z.even m then m else m + 1
  | Gt => m + 1
  end.

(** The value of a double. *)
Definition B2Q (x : spec_float) : Q :=
  match x with
  | S754_finite s m e => (inject_Z (cond_Zopp s (Zpos m)) * pow2 e)%Q
  | _ => 0%Q
  end.

(** [V] is the number [X >= 0] rounded to the nearest value a double can
    have, to the even one from the middle, were the exponent range
    unbounded above: [X] lies at [m1 + f1] units of the exponent [e1] of
    its binade, and [V] is [rne m1 f1] such units. *)
Definition rounding (X V : Q) : Prop :=
  exists m1 f1 e1,
    (X == (inject_Z m1 + f1) * pow2 e1)%Q /\ (0 <= f1 < 1)%Q /\
    0 <= m1 < 2 ^ prec /\ emin <= e1 /\
    (e1 = emin \/ 2 ^ (prec - 1) <= m1) /\
    (V == inject_Z (rne m1 f1) * pow2 e1)%Q.

(** The double [c] has the value [V >= 0], or is infinity for a [V] out
    of range. *)
Definition holds (V : Q) (c : spec_float) : Prop :=
  match c with
  | S754_zero _ => (V == 0)%Q
  | S754_finite false m e => (inject_Z (Zpos m) * pow2 e == V)%Q
  | S754_infinity false => (pow2 emax <= V)%Q
  | _ => False
  end.

(** The double [c] is the number [X >= 0] rounded: zero, a positive
    number or, out of range, infinity. *)
Definition rounded (X : Q) (c : spec_float) : Prop :=
  exists V, rounding X V /\ holds V c.

(** The value of a finite double. *)
Definition val (x : binary64) : Q := B2Q (Prim2SF x).

(** ** Mantissas and their digits *)

Lemma prec_pos : 0 < prec.
Proof. reflexivity. Qed.

Lemma digits2_pos_iter_xO (m d : positive) :
  Zpos (digits2_pos (Pos.iter xO m d)) = Zpos (digits2_pos m) + Zpos d.
Proof.
  induction d as [|d IH] using Pos.peano_ind.
  - cbn [Pos.iter digits2_pos]. lia.
  - rewrite Pos.iter_succ. cbn [digits2_pos]. lia.
Qed.

Lemma digits2_pos_bounds (p : positive) :
  2 ^ (Zpos (digits2_pos p) - 1) <= Zpos p < 2 ^ Zpos (digits2_pos p).
Proof.
  assert (Hstep : forall d : positive,
             2 ^ Zpos (Pos.succ d) = 2 * 2 ^ Zpos d /\
             2 ^ (Zpos (Pos.succ d) - 1) = 2 * 2 ^ (Zpos d - 1)).
  { intros d. rewrite Pos2Z.inj_succ. split.
    - apply Z.pow_succ_r. lia.
    - replace (Z.succ (Zpos d) - 1) with (Z.succ (Zpos d - 1)) by lia.
      apply Z.pow_succ_r. lia. }
  induction p as [p IH|p IH|]; cbn [digits2_pos].
  - destruct (Hstep (digits2_pos p)) as [-> ->]. lia.
  - destruct (Hstep (digits2_pos p)) as [-> ->]. lia.
  - cbn. lia.
Qed.

(** A shift to the right by fewer places than the mantissa has digits
    leaves a positive mantissa. *)
Lemma shr_keeps_leading_digit (p : positive) :
  forall mrs q,
    shr_m mrs = Zpos q -> Zpos p < Zpos (digits2_pos q) ->
    exists q', shr_m (iter_pos shr_1 p mrs) = Zpos q' /\
               Zpos (digits2_pos q') = Zpos (digits2_pos q) - Zpos p.
Proof.
  assert (H1 : forall mrs q,
             shr_m mrs = Zpos q -> 1 < Zpos (digits2_pos q) ->
             exists q', shr_m (shr_1 mrs) = Zpos q' /\
                        Zpos (digits2_pos q') = Zpos (digits2_pos q) - 1).
  { intros [m r s] q Hm Hq. cbn [shr_m] in Hm. subst m.
    destruct q as [q|q|]; cbn [shr_1 shr_m digits2_pos] in *;
      [exists q; split; [reflexivity | lia]
      |exists q; split; [reflexivity | lia] | lia]. }
  induction p as [p IH|p IH|]; intros mrs q Hm Hq; cbn [iter_pos].
  - destruct (H1 mrs q Hm ltac:(lia)) as (q1 & E1 & D1).
    destruct (IH _ q1 E1 ltac:(lia)) as (q2 & E2 & D2).
    destruct (IH _ q2 E2 ltac:(lia)) as (q3 & E3 & D3).
    exists q3. split; [exact E3 | lia].
  - destruct (IH _ q Hm ltac:(lia)) as (q2 & E2 & D2).
    destruct (IH _ q2 E2 ltac:(lia)) as (q3 & E3 & D3).
    exists q3. split; [exact E3 | lia].
  - destruct (H1 mrs q Hm Hq) as (q1 & E1 & D1).
    exists q1. split; [exact E1 | lia].
Qed.

(** ** Rounding keeps a number a number

    A positive mantissa at an exponent of at least [emin] rounds to a
    finite number other than zero or, by overflow, to an infinity. *)

Lemma shr_fexp_number (q : positive) (e : Z) (l : location) :
  emin <= e ->
  exists q' r s e',
    shr_fexp prec emax (Zpos q) e l
    = ({| shr_m := Zpos q'; shr_r := r; shr_s := s |}, e') /\
    emin <= e'.
Proof.
  intros He. pose proof prec_pos as Hp. unfold shr_fexp, shr, fexp.
  cbn [Zdigits2].
  assert (Hl : exists r s,
             shr_record_of_loc (Zpos q) l
             = {| shr_m := Zpos q; shr_r := r; shr_s := s |}).
  { destruct l as [|[| |]]; cbn; eauto. }
  destruct Hl as (r & s & ->).
  destruct (Z.max (Zpos (digits2_pos q) + e - prec) emin - e)
    as [|p|p] eqn:En.
  - exists q, r, s, e. split; [reflexivity | exact He].
  - destruct (shr_keeps_leading_digit p
                {| shr_m := Zpos q; shr_r := r; shr_s := s |} q eq_refl
                ltac:(lia)) as (q' & E & _).
    destruct (iter_pos shr_1 p _) as [m' r' s'] eqn:Ei. cbn [shr_m] in E.
    subst m'. exists q', r', s', (e + Zpos p).
    split; [reflexivity | lia].
  - exists q, r, s, e. split; [reflexivity | exact He].
Qed.

Lemma binary_round_aux_number (sx : bool) (q : positive) (e : Z)
    (l : location) :
  emin <= e ->
  (exists m' e', binary_round_aux prec emax sx (Zpos q) e l
                 = S754_finite sx m' e') \/
  binary_round_aux prec emax sx (Zpos q) e l = S754_infinity sx.
Proof.
  intros He. unfold binary_round_aux.
  destruct (shr_fexp_number q e l He) as (q1 & r1 & s1 & e1 & -> & He1).
  cbn [shr_m].
  assert (Hr : exists q2,
             round_nearest_even (Zpos q1)
               (loc_of_shr_record {| shr_m := Zpos q1; shr_r := r1;
                                     shr_s := s1 |}) = Zpos q2).
  { unfold round_nearest_even.
    destruct r1, s1; cbn [loc_of_shr_record]; eauto.
    - exists (q1 + 1)%positive. reflexivity.
    - destruct (Z.even (Zpos q1)); [eauto|].
      exists (q1 + 1)%positive. reflexivity. }
  destruct Hr as (q2 & ->).
  destruct (shr_fexp_number q2 e1 loc_Exact He1)
    as (q3 & r3 & s3 & e3 & -> & _).
  cbn [shr_m].
  destruct (e3 <=? emax - prec); [left; eauto | now right].
Qed.

Lemma binary_round_number (sx : bool) (q : positive) (e : Z) :
  emin <= e ->
  (exists m' e', binary_round prec emax sx q e = S754_finite sx m' e') \/
  binary_round prec emax sx q e = S754_infinity sx.
Proof.
  intros He. unfold binary_round, shl_align.
  destruct (fexp prec emax (Zpos (digits2_pos q) + e) - e) as [|d|d] eqn:Ed;
    apply binary_round_aux_number; try exact He.
  unfold fexp. lia.
Qed.

(** ** Canonical form *)

Lemma bounded_canonical (m : positive) (e : Z) :
  bounded prec emax m e = true ->
  emin <= e /\ fexp prec emax (Zpos (digits2_pos m) + e) = e.
Proof.
  unfold bounded, canonical_mantissa. intros H.
  apply andb_prop in H as [H _]. apply Z.eqb_eq in H.
  split; [|exact H]. unfold fexp in H. lia.
Qed.

(** Two numbers in canonical form that agree once aligned are the same. *)
Lemma aligned_equal (mx my : positive) (ex ey : Z) :
  bounded prec emax mx ex = true -> bounded prec emax my ey = true ->
  fst (shl_align mx ex (Z.min ex ey)) = fst (shl_align my ey (Z.min ex ey)) ->
  mx = my /\ ex = ey.
Proof.
  intros Hx Hy. apply bounded_canonical in Hx as [_ Hx], Hy as [_ Hy].
  unfold shl_align, fexp in *.
  destruct (Z.min ex ey - ex) as [|d|d] eqn:Ex;
    destruct (Z.min ex ey - ey) as [|d'|d'] eqn:Ey; cbn [fst]; try lia.
  - intros ->. rewrite digits2_pos_iter_xO in Hx. lia.
  - intros <-. rewrite digits2_pos_iter_xO in Hy. lia.
Qed.

(** In canonical form a smaller exponent means a smaller magnitude. *)
Lemma canonical_lt (m1 m2 : positive) (e1 e2 : Z) :
  bounded prec emax m1 e1 = true -> bounded prec emax m2 e2 = true ->
  e1 < e2 ->
  Zpos m1 * 2 ^ (e1 - emin) < Zpos m2 * 2 ^ (e2 - emin).
Proof.
  intros B1 B2 He.
  apply bounded_canonical in B1 as [L1 C1], B2 as [L2 C2].
  unfold fexp in C1, C2.
  pose proof (digits2_pos_bounds m1) as [_ U1].
  pose proof (digits2_pos_bounds m2) as [D2 _].
  set (d1 := Zpos (digits2_pos m1)) in *.
  set (d2 := Zpos (digits2_pos m2)) in *.
  assert (Hd1 : d1 <= prec) by lia.
  assert (Hd2 : d2 = prec) by lia.
  pose proof prec_pos as Hp.
  assert (H1 : 2 ^ d1 <= 2 ^ prec) by (apply Z.pow_le_mono_r; lia).
  assert (P1 : 0 < 2 ^ (e1 - emin)) by (apply Z.pow_pos_nonneg; lia).
  assert (H2 : 2 ^ prec * 2 ^ (e1 - emin)
               <= 2 ^ (prec - 1) * 2 ^ (e2 - emin)).
  { rewrite <- !Z.pow_add_r by lia. apply Z.pow_le_mono_r; lia. }
  assert (P2 : 0 < 2 ^ (e2 - emin)) by (apply Z.pow_pos_nonneg; lia).
  rewrite Hd2 in D2. nia.
Qed.

Lemma scaled_positive (m : positive) (e : Z) :
  bounded prec emax m e = true -> 0 < Zpos m * 2 ^ (e - emin).
Proof.
  intros B. apply bounded_canonical in B as [L _].
  assert (0 < 2 ^ (e - emin)) by (apply Z.pow_pos_nonneg; lia). lia.
Qed.

(** ** Comparison *)

(** Finite numbers compare as their values do. *)
Lemma SFcompare_scaled (x y : spec_float) :
  valid_binary x = true -> valid_binary y = true ->
  is_finite_SF x = true -> is_finite_SF y = true ->
  SFcompare x y = Some (scaled x ?= scaled y).
Proof.
  intros Vx Vy Fx Fy.
  destruct x as [sx| | |sx mx ex], y as [sy| | |sy my ey]; try discriminate;
    cbn [valid_binary] in *.
  - reflexivity.
  - pose proof (scaled_positive my ey Vy).
    cbn [SFcompare scaled]. destruct sy; cbn [cond_Zopp]; f_equal; symmetry;
      [apply Z.compare_gt_iff | apply Z.compare_lt_iff]; lia.
  - pose proof (scaled_positive mx ex Vx).
    cbn [SFcompare scaled]. destruct sx; cbn [cond_Zopp]; f_equal; symmetry;
      [apply Z.compare_lt_iff | apply Z.compare_gt_iff]; lia.
  - pose proof (scaled_positive mx ex Vx) as Px.
    pose proof (scaled_positive my ey Vy) as Py.
    assert (Hlt : ex < ey ->
                  Zpos mx * 2 ^ (ex - emin) < Zpos my * 2 ^ (ey - emin))
      by (now apply canonical_lt).
    assert (Hgt : ey < ex ->
                  Zpos my * 2 ^ (ey - emin) < Zpos mx * 2 ^ (ex - emin))
      by (now apply canonical_lt).
    assert (Heq : ex = ey ->
                  (Zpos mx * 2 ^ (ex - emin) ?= Zpos my * 2 ^ (ey - emin))
                  = (mx ?= my)%positive).
    { intros ->. assert (0 < 2 ^ (ey - emin)) by nia.
      rewrite Pos2Z.inj_compare.
      destruct (Z.compare_spec (Zpos mx) (Zpos my)) as [E|E|E];
        [apply Z.compare_eq_iff | apply Z.compare_lt_iff
        |apply Z.compare_gt_iff]; nia. }
    cbn [SFcompare scaled]. rewrite !Pos.compare_cont_spec.
    replace (Pos.switch_Eq Eq (mx ?= my)%positive) with (mx ?= my)%positive
      by (now destruct (mx ?= my)%positive).
    destruct sx, sy; cbn [cond_Zopp]; f_equal.
    + rewrite Z.compare_opp.
      destruct (Z.compare_spec ex ey) as [E|E|E].
      * rewrite (Z.compare_antisym (Zpos mx * _) (Zpos my * _)).
        now rewrite (Heq E).
      * symmetry. apply Z.compare_gt_iff. auto.
      * symmetry. apply Z.compare_lt_iff. auto.
    + symmetry. apply Z.compare_lt_iff. lia.
    + symmetry. apply Z.compare_gt_iff. lia.
    + destruct (Z.compare_spec ex ey) as [E|E|E].
      * symmetry. exact (Heq E).
      * symmetry. apply Z.compare_lt_iff. auto.
      * symmetry. apply Z.compare_gt_iff. auto.
Qed.

Lemma SFeqb_refl (x : spec_float) : SFeqb x x = is_number x.
Proof.
  unfold SFeqb. destruct x as [s|[|]| |[|] m e]; try reflexivity;
    cbn [SFcompare is_number]; rewrite Z.compare_refl, Pos.compare_cont_refl;
    reflexivity.
Qed.

Lemma SFeqb_finite (sx sy : bool) (mx my : positive) (ex ey : Z) :
  SFeqb (S754_finite sx mx ex) (S754_finite sy my ey) = true <->
  sx = sy /\ mx = my /\ ex = ey.
Proof.
  unfold SFeqb, SFcompare.
  destruct sx, sy; try (split; [discriminate | intros [? _]; discriminate]);
    destruct (Z.compare_spec ex ey) as [E|E|E];
    try (split; [discriminate | lia]);
    rewrite Pos.compare_cont_spec; cbn [Pos.switch_Eq];
    destruct (Pos.compare_spec mx my) as [M|M|M]; cbn [CompOpp];
    try (split; [discriminate | intros (_ & ? & _); lia]);
    (split; [intros _; auto | reflexivity]).
Qed.

(** ** Subtraction *)

(** The difference of two finite numbers is zero exactly when they are
    equal, and it is never NaN. *)
Lemma SFsub_finite (x y : spec_float) :
  valid_binary x = true -> valid_binary y = true ->
  is_finite_SF x = true -> is_finite_SF y = true ->
  match SF64sub x y with
  | S754_zero _ => SFeqb x y = true
  | S754_finite _ _ _ | S754_infinity _ => SFeqb x y = false
  | S754_nan => False
  end.
Proof.
  intros Vx Vy Fx Fy. unfold SF64sub.
  destruct x as [sx| | |sx mx ex], y as [sy| | |sy my ey]; try discriminate.
  - destruct sx, sy; reflexivity.
  - cbn. now destruct sy.
  - cbn. now destruct sx.
  - cbn [valid_binary] in Vx, Vy. cbn [SFsub].
    pose proof (aligned_equal mx my ex ey Vx Vy) as Ha.
    destruct (bounded_canonical _ _ Vx) as [Hex _].
    destruct (bounded_canonical _ _ Vy) as [Hey _].
    set (ez := Z.min ex ey) in *.
    set (Mx := fst (shl_align mx ex ez)) in *.
    set (My := fst (shl_align my ey ez)) in *.
    assert (Hz : emin <= ez) by (subst ez; lia).
    assert (Hsame : sx = sy /\ mx = my /\ ex = ey -> Mx = My).
    { intros (-> & -> & ->). reflexivity. }
    assert (Hne : cond_Zopp sx (Zpos Mx) - cond_Zopp sy (Zpos My) <> 0 ->
                  SFeqb (S754_finite sx mx ex) (S754_finite sy my ey) = false).
    { intros Hd. destruct (SFeqb _ _) eqn:E; [|reflexivity].
      apply SFeqb_finite in E. pose proof (Hsame E) as E'.
      destruct E as (-> & _). rewrite E' in Hd.
      destruct sy; cbn [cond_Zopp] in Hd; lia. }
    destruct (cond_Zopp sx (Zpos Mx) - cond_Zopp sy (Zpos My)) as [|d|d] eqn:Ed;
      cbn [binary_normalize].
    + apply SFeqb_finite. destruct sx, sy; cbn [cond_Zopp] in Ed; try lia;
        (assert (E : Mx = My) by lia; destruct (Ha E); auto).
    + destruct (binary_round_number false d ez Hz)
        as [(m' & e' & ->)| ->]; apply Hne; discriminate.
    + destruct (binary_round_number true d ez Hz)
        as [(m' & e' & ->)| ->]; apply Hne; discriminate.
Qed.

(** ** The numbers of JavaScript *)

Lemma is_nan_SF (x : binary64) :
  PrimFloat.is_nan x = negb (is_number (Prim2SF x)).
Proof. unfold PrimFloat.is_nan. now rewrite eqb_spec, SFeqb_refl. Qed.

Lemma isFinite_SF (x : binary64) :
  binary64_isFinite x = is_finite_SF (Prim2SF x).
Proof.
  unfold binary64_isFinite, PrimFloat.is_infinity.
  rewrite is_nan_SF, eqb_spec, abs_spec.
  change (Prim2SF infinity) with (S754_infinity false).
  now destruct (Prim2SF x) as [s|s| |s m e].
Qed.

Lemma finite_not_nan (a : binary64) :
  binary64_isFinite a = true -> PrimFloat.is_nan a = false.
Proof.
  rewrite isFinite_SF, is_nan_SF. now destruct (Prim2SF a).
Qed.

Lemma truthy_SF (x : binary64) :
  truthy x = match Prim2SF x with
             | S754_zero _ | S754_nan => false
             | _ => true
             end.
Proof.
  cbn [truthy binary64_Number]. unfold PrimFloat.is_zero.
  rewrite is_nan_SF, eqb_spec.
  change (Prim2SF zero) with (S754_zero false).
  now destruct (Prim2SF x) as [s|[|]| |[|] m e].
Qed.

(** [a - b] is falsy exactly when [a == b], for finite [a] and [b]. *)
Lemma truthy_sub (a b : binary64) :
  binary64_isFinite a = true -> binary64_isFinite b = true ->
  truthy (N:=binary64) (PrimFloat.sub a b) = negb (PrimFloat.eqb a b).
Proof.
  rewrite !isFinite_SF. intros Fa Fb.
  rewrite truthy_SF, sub_spec, eqb_spec.
  pose proof (SFsub_finite (Prim2SF a) (Prim2SF b)
                (Prim2SF_valid a) (Prim2SF_valid b) Fa Fb) as H.
  destruct (SF64sub (Prim2SF a) (Prim2SF b)); try now rewrite H.
  destruct H.
Qed.

(** A positive integer below 2^63 converts to a number that is not
    zero. *)
Lemma of_Z_truthy (k : Z) :
  1 <= k < 2 ^ 63 -> truthy (of_Z (N:=binary64) k) = true.
Proof.
  intros Hk. rewrite truthy_SF. cbn [of_Z binary64_Number].
  destruct k as [|p|p]; try lia. cbn [binary64_of_Z].
  rewrite of_uint63_spec, Uint63.of_Z_spec.
  rewrite Z.mod_small by (change Uint63.wB with (2 ^ 63); lia).
  cbn [binary_normalize].
  destruct (binary_round_number false p 0 ltac:(discriminate))
    as [(m' & e' & ->)| ->]; reflexivity.
Qed.

(** *** Order *)

Lemma leb_scaled (a b : binary64) :
  binary64_isFinite a = true -> binary64_isFinite b = true ->
  (PrimFloat.leb a b = true <-> scaled (Prim2SF a) <= scaled (Prim2SF b)).
Proof.
  rewrite !isFinite_SF. intros Fa Fb. rewrite leb_spec. unfold SFleb.
  rewrite (SFcompare_scaled _ _ (Prim2SF_valid a) (Prim2SF_valid b) Fa Fb).
  destruct (Z.compare_spec (scaled (Prim2SF a)) (scaled (Prim2SF b)));
    split; try discriminate; try reflexivity; lia.
Qed.

Lemma ltb_scaled (a b : binary64) :
  binary64_isFinite a = true -> binary64_isFinite b = true ->
  (PrimFloat.ltb a b = true <-> scaled (Prim2SF a) < scaled (Prim2SF b)).
Proof.
  rewrite !isFinite_SF. intros Fa Fb. rewrite ltb_spec. unfold SFltb.
  rewrite (SFcompare_scaled _ _ (Prim2SF_valid a) (Prim2SF_valid b) Fa Fb).
  destruct (Z.compare_spec (scaled (Prim2SF a)) (scaled (Prim2SF b)));
    split; try discriminate; try reflexivity; lia.
Qed.

Lemma ltb_false_scaled (a b : binary64) :
  binary64_isFinite a = true -> binary64_isFinite b = true ->
  (PrimFloat.ltb a b = false <-> scaled (Prim2SF b) <= scaled (Prim2SF a)).
Proof.
  intros Fa Fb. pose proof (ltb_scaled a b Fa Fb) as H.
  destruct (PrimFloat.ltb a b).
  - split; [discriminate|]. intros L. assert (H' := proj1 H eq_refl). lia.
  - split; [|reflexivity]. intros _.
    destruct (Z_lt_le_dec (scaled (Prim2SF a)) (scaled (Prim2SF b)))
      as [L|L]; [|exact L].
    apply H in L. discriminate.
Qed.

Lemma leb_false_scaled (a b : binary64) :
  binary64_isFinite a = true -> binary64_isFinite b = true ->
  (PrimFloat.leb a b = false <-> scaled (Prim2SF b) < scaled (Prim2SF a)).
Proof.
  intros Fa Fb. pose proof (leb_scaled a b Fa Fb) as H.
  destruct (PrimFloat.leb a b).
  - split; [discriminate|]. intros L. assert (H' := proj1 H eq_refl). lia.
  - split; [|reflexivity]. intros _.
    destruct (Z_lt_le_dec (scaled (Prim2SF b)) (scaled (Prim2SF a)))
      as [L|L]; [exact L|].
    apply H in L. discriminate.
Qed.

(** *** Least and greatest *)

Lemma min2_finite (a v : binary64) :
  binary64_isFinite a = true -> binary64_isFinite v = true ->
  min2 a v = if PrimFloat.ltb v a then v else a.
Proof.
  intros Fa Fv. unfold min2. cbn [isNaN ltb binary64_Number].
  now rewrite (finite_not_nan a Fa), (finite_not_nan v Fv).
Qed.

Lemma max2_finite (a v : binary64) :
  binary64_isFinite a = true -> binary64_isFinite v = true ->
  max2 a v = if PrimFloat.ltb a v then v else a.
Proof.
  intros Fa Fv. unfold max2. cbn [isNaN ltb binary64_Number].
  now rewrite (finite_not_nan a Fa), (finite_not_nan v Fv).
Qed.

Lemma fold_min2_binary64 (l : list binary64) (a : binary64) :
  binary64_isFinite a = true ->
  Forall (fun v => binary64_isFinite v = true) l ->
  binary64_isFinite (fold_left min2 l a) = true /\
  (fold_left min2 l a = a \/ In (fold_left min2 l a) l) /\
  scaled (Prim2SF (fold_left min2 l a)) <= scaled (Prim2SF a) /\
  (forall v, In v l ->
     scaled (Prim2SF (fold_left min2 l a)) <= scaled (Prim2SF v)).
Proof.
  intros Fa Fl. revert a Fa.
  induction Fl as [|v l Fv _ IH]; intros a Fa; cbn [fold_left].
  - split; [exact Fa|]. split; [now left|]. split; [lia|]. intros ? [].
  - rewrite (min2_finite a v Fa Fv).
    destruct (PrimFloat.ltb v a) eqn:E.
    + apply (ltb_scaled v a Fv Fa) in E.
      destruct (IH v Fv) as (Fm & Hin & Hle & Hall).
      split; [exact Fm|].
      split; [right; destruct Hin as [Hin|Hin];
              [left; congruence | now right]|].
      split; [lia|].
      intros w [<-|Hw]; auto.
    + apply (ltb_false_scaled v a Fv Fa) in E.
      destruct (IH a Fa) as (Fm & Hin & Hle & Hall).
      split; [exact Fm|].
      split; [destruct Hin as [Hin|Hin]; [now left | right; now right]|].
      split; [exact Hle|].
      intros w [<-|Hw]; auto. lia.
Qed.

Lemma fold_max2_binary64 (l : list binary64) (a : binary64) :
  binary64_isFinite a = true ->
  Forall (fun v => binary64_isFinite v = true) l ->
  binary64_isFinite (fold_left max2 l a) = true /\
  (fold_left max2 l a = a \/ In (fold_left max2 l a) l) /\
  scaled (Prim2SF a) <= scaled (Prim2SF (fold_left max2 l a)) /\
  (forall v, In v l ->
     scaled (Prim2SF v) <= scaled (Prim2SF (fold_left max2 l a))).
Proof.
  intros Fa Fl. revert a Fa.
  induction Fl as [|v l Fv _ IH]; intros a Fa; cbn [fold_left].
  - split; [exact Fa|]. split; [now left|]. split; [lia|]. intros ? [].
  - rewrite (max2_finite a v Fa Fv).
    destruct (PrimFloat.ltb a v) eqn:E.
    + apply (ltb_scaled a v Fa Fv) in E.
      destruct (IH v Fv) as (Fm & Hin & Hle & Hall).
      split; [exact Fm|].
      split; [right; destruct Hin as [Hin|Hin];
              [left; congruence | now right]|].
      split; [lia|].
      intros w [<-|Hw]; auto.
    + apply (ltb_false_scaled a v Fa Fv) in E.
      destruct (IH a Fa) as (Fm & Hin & Hle & Hall).
      split; [exact Fm|].
      split; [destruct Hin as [Hin|Hin]; [now left | right; now right]|].
      split; [exact Hle|].
      intros w [<-|Hw]; auto. lia.
Qed.

Lemma min2_Infinity (v : binary64) :
  binary64_isFinite v = true -> min2 Infinity v = v.
Proof.
  intros Fv.
  assert (E : PrimFloat.ltb v infinity = true).
  { rewrite ltb_spec. rewrite isFinite_SF in Fv.
    change (Prim2SF infinity) with (S754_infinity false).
    now destruct (Prim2SF v) as [s|s| |[|] m e]. }
  unfold min2. change (isNaN Infinity) with false.
  change (ltb v Infinity) with (PrimFloat.ltb v infinity).
  cbn [isNaN binary64_Number].
  now rewrite (finite_not_nan v Fv), E.
Qed.

Lemma max2_neg_Infinity (v : binary64) :
  binary64_isFinite v = true -> max2 (neg Infinity) v = v.
Proof.
  intros Fv.
  assert (E : PrimFloat.ltb neg_infinity v = true).
  { rewrite ltb_spec. rewrite isFinite_SF in Fv.
    change (Prim2SF neg_infinity) with (S754_infinity true).
    now destruct (Prim2SF v) as [s|s| |[|] m e]. }
  unfold max2. change (isNaN (neg Infinity)) with false.
  change (ltb (neg Infinity) v) with (PrimFloat.ltb neg_infinity v).
  cbn [isNaN binary64_Number].
  now rewrite (finite_not_nan v Fv), E.
Qed.

(** [Math.min] of finite values is the least of them, [Math.max] the
    greatest. *)
Lemma Math_min_binary64 (l : list binary64) :
  l <> [] -> Forall (fun v => binary64_isFinite v = true) l ->
  binary64_isFinite (Math_min l) = true /\ In (Math_min l) l /\
  forall w, In w l -> PrimFloat.leb (Math_min l) w = true.
Proof.
  intros Hne Fl. destruct l as [|v l]; [now elim Hne|].
  inversion Fl as [|? ? Fv Fl']; subst.
  unfold Math_min. cbn [fold_left]. rewrite (min2_Infinity v Fv).
  destruct (fold_min2_binary64 l v Fv Fl') as (Fm & Hin & Hle & Hall).
  split; [exact Fm|]. split.
  - destruct Hin as [Hin|Hin]; [left; congruence | now right].
  - intros w Hw. assert (Fw : binary64_isFinite w = true)
      by (revert w Hw; now apply Forall_forall).
    apply (leb_scaled _ w Fm Fw). destruct Hw as [<-|Hw]; auto.
Qed.

Lemma Math_max_binary64 (l : list binary64) :
  l <> [] -> Forall (fun v => binary64_isFinite v = true) l ->
  binary64_isFinite (Math_max l) = true /\ In (Math_max l) l /\
  forall w, In w l -> PrimFloat.leb w (Math_max l) = true.
Proof.
  intros Hne Fl. destruct l as [|v l]; [now elim Hne|].
  inversion Fl as [|? ? Fv Fl']; subst.
  unfold Math_max. cbn [fold_left]. rewrite (max2_neg_Infinity v Fv).
  destruct (fold_max2_binary64 l v Fv Fl') as (Fm & Hin & Hle & Hall).
  split; [exact Fm|]. split.
  - destruct Hin as [Hin|Hin]; [left; congruence | now right].
  - intros w Hw. assert (Fw : binary64_isFinite w = true)
      by (revert w Hw; now apply Forall_forall).
    apply (leb_scaled w _ Fw Fm). destruct Hw as [<-|Hw]; auto.
Qed.

(** ** Values *)

Lemma SFabs_finite (x : spec_float) :
  is_finite_SF (SFabs x) = is_finite_SF x /\
  scaled (SFabs x) = Z.abs (scaled x).
Proof.
  destruct x as [s|s| |[|] m e]; cbn [SFabs is_finite_SF scaled cond_Zopp];
    split; try reflexivity; lia.
Qed.

(** The value of a double, in units of [2 ^ emin]. *)
Lemma to_Q_scaled (x : binary64) (q : Q) :
  binary64_to_Q x = Some q ->
  binary64_isFinite x = true /\
  (q == scaled (Prim2SF x) # unit_denominator)%Q.
Proof.
  unfold binary64_to_Q. rewrite isFinite_SF.
  pose proof (Prim2SF_valid x) as V.
  destruct (Prim2SF x) as [s|s| |s m e]; try discriminate; intros [= <-].
  - split; reflexivity.
  - split; [reflexivity|]. cbn [valid_binary] in V.
    apply bounded_canonical in V as [He _]. cbn [scaled].
    set (n := if s then Zneg m else Zpos m).
    assert (En : cond_Zopp s (Zpos m * 2 ^ (e - emin)) = n * 2 ^ (e - emin))
      by (subst n; destruct s; cbn [cond_Zopp]; lia).
    rewrite En.
    assert (Ep : (Qpower 2 e
                  == inject_Z (2 ^ (e - emin)) * (1 # unit_denominator))%Q).
    { replace e with ((e - emin) + emin) at 1 by lia.
      rewrite Qpower_plus by discriminate.
      rewrite (Zpower_Qpower 2 (e - emin)) by lia.
      apply Qmult_comp; reflexivity. }
    rewrite Ep. unfold Qeq, Qmult, inject_Z. cbn [Qnum Qden]. lia.
Qed.

(** [Math.abs(v) >= c] compares the value of [v] with [c]. *)
Lemma geb_abs_value (v : binary64) (q : Q) (c : Z) :
  binary64_to_Q v = Some q -> exact_integer c ->
  (geb (Math_abs v) (of_Z c) = true <-> (inject_Z c <= Qabs q)%Q) /\
  (geb (Math_abs v) (of_Z c) = false <-> (Qabs q < inject_Z c)%Q).
Proof.
  intros Hq [Fc Sc]. apply to_Q_scaled in Hq as [Fv Eq].
  cbn [geb Math_abs of_Z binary64_Number].
  assert (Fa : binary64_isFinite (PrimFloat.abs v) = true).
  { rewrite isFinite_SF, abs_spec, (proj1 (SFabs_finite _)).
    now rewrite <- isFinite_SF. }
  pose proof (leb_scaled _ _ Fc Fa) as Hle.
  pose proof (leb_false_scaled _ _ Fc Fa) as Hlt.
  rewrite abs_spec, (proj2 (SFabs_finite _)), Sc in Hle, Hlt.
  assert (Ea : (Qabs q == Z.abs (scaled (Prim2SF v)) # unit_denominator)%Q)
    by (rewrite Eq; reflexivity).
  rewrite Hle, Hlt, Ea. unfold Qle, Qlt, inject_Z. cbn [Qnum Qden].
  split; split; lia.
Qed.

Lemma exact_integers :
  exact_integer 1 /\ exact_integer 100 /\ exact_integer 1000 /\
  exact_integer 1000000 /\ exact_integer 1000000000.
Proof. repeat split; vm_compute; reflexivity. Qed.

(** ** Rounding

    Each of the four operations returns the exact result, rounded to the
    nearest double, to the even one from the middle ([rounded]); this is
    shown here for results that are not negative, which is what the
    coordinates of a chart need. *)

(** *** Powers of two *)

Lemma pow2_pos (e : Z) : (0 < pow2 e)%Q.
Proof. apply Qpower_0_lt. reflexivity. Qed.

Lemma pow2_add (a b : Z) : (pow2 (a + b) == pow2 a * pow2 b)%Q.
Proof. apply Qpower_plus. discriminate. Qed.

Lemma pow2_Z (e : Z) : 0 <= e -> (pow2 e == inject_Z (2 ^ e))%Q.
Proof. intros He. unfold pow2. now rewrite (Zpower_Qpower 2 e He). Qed.

Lemma pow2_le (a b : Z) : a <= b -> (pow2 a <= pow2 b)%Q.
Proof.
  intros Hab. replace b with (a + (b - a)) by lia.
  rewrite pow2_add, (pow2_Z (b - a)) by lia.
  pose proof (pow2_pos a) as Ha.
  assert (H1 : (1 <= inject_Z (2 ^ (b - a)))%Q).
  { change 1%Q with (inject_Z 1). rewrite <- Zle_Qle.
    assert (0 < 2 ^ (b - a)) by (apply Z.pow_pos_nonneg; lia). lia. }
  set (u := pow2 a) in *. set (w := inject_Z (2 ^ (b - a))) in *.
  assert (0 <= u * (w - 1))%Q by (apply Qmult_le_0_compat; lra).
  lra.
Qed.

Lemma pow2_lt (a b : Z) : a < b -> (pow2 a < pow2 b)%Q.
Proof.
  intros Hab. replace b with (a + (b - a)) by lia.
  rewrite pow2_add, (pow2_Z (b - a)) by lia.
  pose proof (pow2_pos a) as Ha.
  assert (H1 : (2 <= inject_Z (2 ^ (b - a)))%Q).
  { change 2%Q with (inject_Z 2). rewrite <- Zle_Qle.
    replace (b - a) with (Z.succ (b - a - 1)) by lia.
    rewrite Z.pow_succ_r by lia.
    assert (0 < 2 ^ (b - a - 1)) by (apply Z.pow_pos_nonneg; lia). lia. }
  set (u := pow2 a) in *. set (w := inject_Z (2 ^ (b - a))) in *.
  assert (0 <= u * (w - 2))%Q by (apply Qmult_le_0_compat; lra).
  lra.
Qed.

(** *** What a shift to the right keeps *)

Lemma fraction_nonzero (r s : bool) (f : Q) :
  fraction r s f -> (orb r s = true <-> ~ (f == 0)%Q).
Proof.
  intros (Hf & Hr & Hs). destruct r, s; cbn [orb]; split; try reflexivity;
    try discriminate.
  - intros _ E. assert (1 # 2 <= f)%Q by now apply Hr. lra.
  - intros _ E. assert (1 # 2 <= f)%Q by now apply Hr. lra.
  - intros _. now apply Hs.
  - intros Hne. exfalso.
    destruct (Qeq_dec f (1 # 2)) as [E|E].
    + assert (false = true) by (apply Hr; lra). discriminate.
    + assert (false = true) by (apply Hs; auto). discriminate.
Qed.

Lemma shr_1_fraction (m : Z) (r s : bool) (f : Q) :
  0 <= m -> fraction r s f ->
  let mrs := shr_1 {| shr_m := m; shr_r := r; shr_s := s |} in
  exists f',
    fraction (shr_r mrs) (shr_s mrs) f' /\ 0 <= shr_m mrs /\
    (inject_Z m + f == 2 * (inject_Z (shr_m mrs) + f'))%Q.
Proof.
  intros Hm Hf. pose proof (fraction_nonzero r s f Hf) as Hn.
  destruct Hf as (Hf & Hr & Hs).
  assert (Hhalf : forall b : bool,
             let f' := (((if b then 1 else 0) + f) * (1 # 2))%Q in
             fraction b (orb r s) f').
  { intros b f'. subst f'. split; [|split].
    - destruct b; split; lra.
    - destruct b; split; try discriminate; try reflexivity; intros; lra.
    - rewrite Hn. destruct b; split.
      + intros Hne. split; intros E; apply Hne; lra.
      + intros [_ Hne] E. apply Hne. lra.
      + intros Hne. split; intros E; [apply Hne|]; lra.
      + intros [Hne _] E. apply Hne. lra. }
  destruct m as [|p|p]; [| |lia].
  - exists ((0 + f) * (1 # 2))%Q. cbn [shr_1 shr_m shr_r shr_s].
    split; [exact (Hhalf false)|]. split; [lia|]. ring.
  - destruct p as [p|p|]; cbn [shr_1 shr_m shr_r shr_s].
    + exists ((1 + f) * (1 # 2))%Q. split; [exact (Hhalf true)|].
      split; [lia|].
      rewrite Pos2Z.inj_xI, inject_Z_plus, inject_Z_mult. ring.
    + exists ((0 + f) * (1 # 2))%Q. split; [exact (Hhalf false)|].
      split; [lia|].
      rewrite Pos2Z.inj_xO, inject_Z_mult. ring.
    + exists ((1 + f) * (1 # 2))%Q. split; [exact (Hhalf true)|].
      split; [lia|]. ring.
Qed.

Lemma shifted_1 (a : shr_record) : shifted 1 a (shr_1 a).
Proof.
  intros Ha. destruct a as [m r s]. cbn [shr_m shr_r shr_s] in *. split.
  - destruct m as [|[p|p|]|p]; cbn; lia.
  - intros f Hf. destruct (shr_1_fraction m r s f Ha Hf) as (f' & H1 & _ & H2).
    exists f'. split; [exact H1|]. exact H2.
Qed.

Lemma shifted_trans (j k : Z) (a b c : shr_record) :
  0 <= j -> 0 <= k -> shifted j a b -> shifted k b c -> shifted (j + k) a c.
Proof.
  intros Hj Hk Hab Hbc Ha. destruct (Hab Ha) as [Hb Hab'].
  destruct (Hbc Hb) as [Hc Hbc']. split; [exact Hc|].
  intros f Hf. destruct (Hab' f Hf) as (f1 & Hf1 & E1).
  destruct (Hbc' f1 Hf1) as (f2 & Hf2 & E2).
  exists f2. split; [exact Hf2|].
  rewrite E1, E2, Z.pow_add_r, inject_Z_mult by lia. ring.
Qed.

Lemma iter_pos_shifted (p : positive) :
  forall a, shifted (Zpos p) a (iter_pos shr_1 p a).
Proof.
  induction p as [p IH|p IH|]; intros a; cbn [iter_pos].
  - replace (Zpos p~1) with (1 + (Zpos p + Zpos p)) by lia.
    apply (shifted_trans _ _ _ (shr_1 a)); try lia; [apply shifted_1|].
    apply (shifted_trans _ _ _ (iter_pos shr_1 p (shr_1 a))); try lia;
      apply IH.
  - replace (Zpos p~0) with (Zpos p + Zpos p) by lia.
    apply (shifted_trans _ _ _ (iter_pos shr_1 p a)); try lia; apply IH.
  - apply shifted_1.
Qed.

Lemma located_fraction (m : Z) (l : location) (f : Q) :
  located l f ->
  let mrs := shr_record_of_loc m l in
  shr_m mrs = m /\ fraction (shr_r mrs) (shr_s mrs) f.
Proof.
  destruct l as [|[| |]]; cbn [located shr_record_of_loc shr_m shr_r shr_s];
    intros H; (split; [reflexivity|]); (split; [lra|]);
    (split; split; try discriminate; try reflexivity; intros; try lra).
Qed.

Lemma fraction_located (mrs : shr_record) (f : Q) :
  fraction (shr_r mrs) (shr_s mrs) f -> located (loc_of_shr_record mrs) f.
Proof.
  intros Hf. pose proof (fraction_nonzero _ _ _ Hf) as Hn.
  destruct Hf as (Hf & Hr & Hs).
  destruct mrs as [m [|] [|]]; cbn [shr_r shr_s loc_of_shr_record located] in *.
  - assert (1 # 2 <= f)%Q by now apply Hr.
    assert (~ (f == 1 # 2)%Q) by now apply Hs. split; [|lra].
    destruct (Qlt_le_dec (1 # 2) f) as [L|L]; [exact L|].
    exfalso. apply H0. lra.
  - assert (1 # 2 <= f)%Q by now apply Hr.
    destruct (Qeq_dec f (1 # 2)) as [E|E]; [exact E|].
    assert (false = true); [|discriminate].
    apply Hs. split; [|exact E]. intros E0. lra.
  - assert (~ (f == 0)%Q) by now apply Hs.
    assert (Hlt : (f < 1 # 2)%Q).
    { destruct (Qlt_le_dec f (1 # 2)) as [L|L]; [exact L|].
      assert (false = true) by now apply Hr. discriminate. }
    split; [|exact Hlt].
    destruct (Qlt_le_dec 0 f) as [L|L]; [exact L|]. exfalso. apply H. lra.
  - destruct (Qeq_dec f 0) as [E|E]; [exact E|].
    assert (false = true) by (apply Hn; exact E). discriminate.
Qed.

Lemma round_nearest_even_rne (m : Z) (l : location) (f : Q) :
  located l f -> round_nearest_even m l = rne m f.
Proof.
  unfold rne. destruct l as [|[| |]]; cbn [located round_nearest_even];
    intros H.
  - assert (E : (f ?= 1 # 2)%Q = Lt) by (apply (proj1 (Qlt_alt _ _)); lra). now rewrite E.
  - assert (E : (f ?= 1 # 2)%Q = Eq) by (apply (proj1 (Qeq_alt _ _)); lra).
    rewrite E. reflexivity.
  - assert (E : (f ?= 1 # 2)%Q = Lt) by (apply (proj1 (Qlt_alt _ _)); lra). now rewrite E.
  - assert (E : (f ?= 1 # 2)%Q = Gt) by (apply (proj1 (Qgt_alt _ _)); lra). now rewrite E.
Qed.

Lemma rne_bounds (m : Z) (f : Q) : m <= rne m f <= m + 1.
Proof.
  unfold rne. destruct (f ?= 1 # 2)%Q; [destruct (Z.even m)| |]; lia.
Qed.

Lemma rne_exact (m : Z) (f : Q) : (f == 0)%Q -> rne m f = m.
Proof.
  intros E. unfold rne.
  assert (H : (f ?= 1 # 2)%Q = Lt) by (apply (proj1 (Qlt_alt _ _)); lra). now rewrite H.
Qed.

Lemma rne_cases (m : Z) (f : Q) :
  ((f < 1 # 2)%Q /\ rne m f = m) \/
  ((f == 1 # 2)%Q /\ rne m f = if Z.even m then m else m + 1) \/
  ((1 # 2 < f)%Q /\ rne m f = m + 1).
Proof.
  unfold rne. destruct (Qcompare_spec f (1 # 2)) as [E|E|E]; auto.
Qed.

(** Rounding to nearest is monotone. *)
Lemma rne_mono (m m' : Z) (f f' : Q) :
  (0 <= f < 1)%Q -> (0 <= f' < 1)%Q ->
  (inject_Z m + f <= inject_Z m' + f')%Q -> rne m f <= rne m' f'.
Proof.
  intros Hf Hf' Hle.
  destruct (Z_lt_le_dec m m') as [L|L].
  - pose proof (rne_bounds m f). pose proof (rne_bounds m' f'). lia.
  - assert (m = m').
    { destruct (Z.eq_dec m m') as [E|E]; [exact E|].
      assert (Hm : m' + 1 <= m) by lia. rewrite Zle_Qle in Hm.
      rewrite inject_Z_plus in Hm. change (inject_Z 1) with 1%Q in Hm. lra. }
    subst m'. assert (Hff : (f <= f')%Q) by lra.
    destruct (rne_cases m f) as [[H1 ->]|[[H1 ->]|[H1 ->]]];
      destruct (rne_cases m f') as [[H2 ->]|[[H2 ->]|[H2 ->]]];
      try (destruct (Z.even m)); try lia; exfalso; lra.
Qed.

(** *** What rounding computes *)

Lemma Zdigits2_bounds (m : Z) :
  0 <= m -> m < 2 ^ Zdigits2 m /\ (0 < m -> 2 ^ (Zdigits2 m - 1) <= m).
Proof.
  intros Hm. destruct m as [|p|p]; [cbn; lia| |lia].
  cbn [Zdigits2]. pose proof (digits2_pos_bounds p). lia.
Qed.

Lemma shr_fexp_shifted (m e : Z) (l : location) (f : Q) :
  0 <= m -> located l f ->
  e <= fexp prec emax (Zdigits2 m + e) ->
  exists m1 r1 s1 f1,
    shr_fexp prec emax m e l
    = ({| shr_m := m1; shr_r := r1; shr_s := s1 |},
       fexp prec emax (Zdigits2 m + e)) /\
    0 <= m1 /\ fraction r1 s1 f1 /\
    ((inject_Z m + f) * pow2 e
     == (inject_Z m1 + f1) * pow2 (fexp prec emax (Zdigits2 m + e)))%Q.
Proof.
  intros Hm Hl He. unfold shr_fexp, shr.
  destruct (located_fraction m l f Hl) as [Em Hf].
  set (e1 := fexp prec emax (Zdigits2 m + e)) in *.
  destruct (e1 - e) as [|p|p] eqn:En; [| |lia].
  - destruct (shr_record_of_loc m l) as [m0 r0 s0] eqn:E0.
    cbn [shr_m shr_r shr_s] in *. subst m0.
    exists m, r0, s0, f. assert (Ee : e1 = e) by lia.
    clearbody e1. subst e1.
    split; [reflexivity|]. split; [exact Hm|]. split; [exact Hf|]. reflexivity.
  - pose proof (iter_pos_shifted p (shr_record_of_loc m l)) as Hs.
    unfold shifted in Hs. rewrite Em in Hs. destruct (Hs Hm) as [H1 H2].
    destruct (H2 f Hf) as (f1 & Hf1 & E1).
    destruct (iter_pos shr_1 p (shr_record_of_loc m l)) as [m1 r1 s1] eqn:Ei.
    cbn [shr_m shr_r shr_s] in *.
    exists m1, r1, s1, f1. split; [f_equal; lia|].
    split; [exact H1|]. split; [exact Hf1|].
    rewrite E1. replace e1 with (Zpos p + e) by lia.
    rewrite pow2_add, (pow2_Z (Zpos p)) by lia. ring.
Qed.

Lemma integer_below (a b : Z) (f : Q) :
  (0 <= f)%Q -> (inject_Z a + f < inject_Z b)%Q -> a < b.
Proof.
  intros Hf H. apply Z.lt_nge. intros L. rewrite Zle_Qle in L. lra.
Qed.

Lemma integer_above (a b : Z) (f : Q) :
  (f < 1)%Q -> (inject_Z b <= inject_Z a + f)%Q -> b <= a.
Proof.
  intros Hf H. apply Z.lt_succ_r. apply Z.lt_nge. intros L.
  rewrite Zle_Qle in L. unfold Z.succ in L. rewrite inject_Z_plus in L.
  change (inject_Z 1) with 1%Q in L. lra.
Qed.

(** The rounding function of the specification, [binary_round_aux],
    rounds: from a mantissa [m], the place [l] of the rest [f] and an
    exponent [e] not above the one of the result, it returns the number
    [(m + f) * 2 ^ e] rounded. *)
Lemma binary_round_aux_rounded (m e : Z) (l : location) (f : Q) :
  0 <= m -> located l f ->
  e <= fexp prec emax (Zdigits2 m + e) ->
  rounded ((inject_Z m + f) * pow2 e)
          (binary_round_aux prec emax false m e l).
Proof.
  intros Hm Hl He. unfold binary_round_aux.
  destruct (shr_fexp_shifted m e l f Hm Hl He)
    as (m1 & r1 & s1 & f1 & -> & Hm1 & Hf1 & EX).
  set (e1 := fexp prec emax (Zdigits2 m + e)) in *.
  set (d := Zdigits2 m) in *.
  cbn [shr_m].
  pose proof (fraction_located {| shr_m := m1; shr_r := r1; shr_s := s1 |}
                f1 Hf1) as Hl1.
  rewrite (round_nearest_even_rne m1 _ f1 Hl1).
  destruct Hf1 as (Hf1 & _).
  assert (Hf0 : (0 <= f < 1)%Q).
  { destruct l as [|[| |]]; cbn [located] in Hl; lra. }
  assert (Hemin : emin <= e1) by (subst e1; unfold fexp; lia).
  destruct (Zdigits2_bounds m Hm) as [Hup Hlow]. fold d in Hup, Hlow.
  assert (Hd0 : 0 <= d) by (subst d; destruct m; cbn; lia).
  pose proof prec_pos as Hp.
  (* the mantissa has at most [prec] digits *)
  assert (EX' : (inject_Z m + f == (inject_Z m1 + f1) * inject_Z (2 ^ (e1 - e)))%Q).
  { assert (E : (pow2 e1 == inject_Z (2 ^ (e1 - e)) * pow2 e)%Q).
    { replace e1 with ((e1 - e) + e) at 1 by lia.
      rewrite pow2_add, (pow2_Z (e1 - e)) by lia. reflexivity. }
    rewrite E in EX. pose proof (pow2_pos e) as Hpe.
    apply (Qmult_inj_r _ _ (pow2 e)); [lra|]. rewrite EX. ring. }
  assert (Hpn : 0 < 2 ^ (e1 - e)) by (apply Z.pow_pos_nonneg; lia).
  assert (Hm1up : m1 < 2 ^ prec).
  { apply (integer_below m1 (2 ^ prec) f1); [lra|].
    assert (H1 : (inject_Z m + f < inject_Z (2 ^ d))%Q).
    { assert (m + 1 <= 2 ^ d) by lia. rewrite Zle_Qle in H.
      rewrite inject_Z_plus in H. change (inject_Z 1) with 1%Q in H. lra. }
    assert (H2 : 2 ^ d <= 2 ^ prec * 2 ^ (e1 - e)).
    { rewrite <- Z.pow_add_r by lia. apply Z.pow_le_mono_r; [lia|].
      subst e1. unfold fexp. lia. }
    rewrite Zle_Qle, inject_Z_mult in H2. rewrite EX' in H1.
    set (u := inject_Z (2 ^ (e1 - e))) in *.
    assert (Hu : (0 < u)%Q).
    { subst u. change 0%Q with (inject_Z 0). now rewrite <- Zlt_Qlt. }
    apply (Qmult_lt_r _ _ u Hu). lra. }
  assert (Hm1low : e1 = emin \/ 2 ^ (prec - 1) <= m1).
  { destruct (Z.eq_dec e1 emin) as [E|E]; [now left|right].
    assert (Ed : e1 = d + e - prec) by (subst e1; unfold fexp in *; lia).
    assert (Hmpos : 0 < m).
    { destruct (Z.eq_dec m 0) as [E0|E0]; [|lia]. exfalso. subst m.
      subst d. cbn [Zdigits2] in *. lia. }
    apply (integer_above m1 (2 ^ (prec - 1)) f1); [lra|].
    assert (H2 : 2 ^ (prec - 1) * 2 ^ (e1 - e) <= m).
    { rewrite <- Z.pow_add_r by lia.
      replace (prec - 1 + (e1 - e)) with (d - 1) by lia. auto. }
    rewrite Zle_Qle, inject_Z_mult in H2.
    set (u := inject_Z (2 ^ (e1 - e))) in *.
    assert (Hu : (0 < u)%Q).
    { subst u. change 0%Q with (inject_Z 0). now rewrite <- Zlt_Qlt. }
    apply (Qmult_le_r _ _ u Hu). lra. }
  pose proof (rne_bounds m1 f1) as Hr.
  set (m2 := rne m1 f1) in *.
  (* the second shift *)
  exists (inject_Z m2 * pow2 e1)%Q. split.
  { exists m1, f1, e1. fold m2.
    split; [exact EX|]. split; [exact Hf1|]. split; [lia|].
    split; [exact Hemin|]. split; [exact Hm1low|]. reflexivity. }
  unfold shr_fexp, shr. cbn [shr_record_of_loc].
  destruct (Z.eq_dec m2 (2 ^ prec)) as [Etop|Etop].
  - (* the mantissa has one digit too many *)
    assert (Ed2 : Zdigits2 m2 = prec + 1).
    { rewrite Etop. reflexivity. }
    rewrite Ed2. unfold fexp.
    replace (Z.max (prec + 1 + e1 - prec) emin - e1) with 1 by lia.
    cbn [iter_pos].
    assert (Eshr : shr_1 {| shr_m := m2; shr_r := false; shr_s := false |} =
                   {| shr_m := 4503599627370496; shr_r := false;
                      shr_s := false |})
      by (rewrite Etop; reflexivity).
    rewrite Eshr. cbn [shr_m].
    destruct (e1 + 1 <=? emax - prec) eqn:Ee.
    + cbn [holds].
      assert (E1 : (pow2 1 == 2)%Q) by reflexivity.
      assert (E2 : (inject_Z (2 ^ prec) == 2 * inject_Z 4503599627370496)%Q)
        by reflexivity.
      rewrite Etop, pow2_add, E1, E2. ring.
    + apply Z.leb_gt in Ee. cbn [holds]. rewrite Etop.
      assert (Hle : (pow2 emax <= pow2 (prec + e1))%Q)
        by (apply pow2_le; lia).
      rewrite pow2_add, (pow2_Z prec) in Hle by lia. exact Hle.
  - assert (Hm2 : m2 < 2 ^ prec) by lia.
    assert (Hd2 : Zdigits2 m2 <= prec).
    { destruct (Z.eq_dec m2 0) as [E0|E0]; [rewrite E0; cbn; lia|].
      destruct (Zdigits2_bounds m2 ltac:(lia)) as [_ Hl2].
      specialize (Hl2 ltac:(lia)).
      apply Z.lt_succ_r. apply Z.lt_nge. intros L.
      assert (2 ^ prec <= 2 ^ (Zdigits2 m2 - 1))
        by (apply Z.pow_le_mono_r; lia).
      lia. }
    assert (Hres : forall mrs e3,
               mrs = {| shr_m := m2; shr_r := false; shr_s := false |} ->
               e3 = e1 ->
               holds (inject_Z m2 * pow2 e1)
                 match shr_m mrs with
                 | 0 => S754_zero false
                 | Zpos p =>
                     if e3 <=? emax - prec then S754_finite false p e3
                     else S754_infinity false
                 | Zneg _ => S754_nan
                 end).
    { intros mrs e3 -> ->. cbn [shr_m].
      destruct m2 as [|p2|p2] eqn:E2; [cbn; ring| |lia].
      destruct (e1 <=? emax - prec) eqn:Ee; [cbn; reflexivity|].
      apply Z.leb_gt in Ee. cbn [holds].
      destruct Hm1low as [E|E];
        [assert (emin = -1074) by reflexivity;
         assert (emax - prec = 971) by reflexivity; lia|].
      assert (Hle : (pow2 emax <= pow2 (prec - 1 + e1))%Q)
        by (apply pow2_le; lia).
      rewrite pow2_add, (pow2_Z (prec - 1)) in Hle by lia.
      assert (H2 : (inject_Z (2 ^ (prec - 1)) <= inject_Z (Zpos p2))%Q)
        by (rewrite <- Zle_Qle; lia).
      pose proof (pow2_pos e1) as Hpe.
      eapply Qle_trans; [exact Hle|].
      apply Qmult_le_compat_r; [exact H2 | lra]. }
    unfold fexp.
    destruct (Z.max (Zdigits2 m2 + e1 - prec) emin - e1) as [|p|p] eqn:En;
      [| lia |]; apply Hres; reflexivity.
Qed.

Lemma pow2_scale_le (a b : Q) (e : Z) :
  (a <= b)%Q -> (a * pow2 e <= b * pow2 e)%Q.
Proof.
  intros H. pose proof (pow2_pos e).
  apply Qmult_le_compat_r; [exact H | lra].
Qed.

Lemma pow2_scale_lt (a b : Q) (e : Z) :
  (a < b)%Q -> (a * pow2 e < b * pow2 e)%Q.
Proof.
  intros H. pose proof (pow2_pos e).
  apply Qmult_lt_compat_r; [lra | exact H].
Qed.

Lemma pow2_scale_le_inv (a b : Q) (e : Z) :
  (a * pow2 e <= b * pow2 e)%Q -> (a <= b)%Q.
Proof.
  intros H. pose proof (pow2_pos e).
  apply Qmult_le_r in H; [exact H | lra].
Qed.

Lemma pow2_inject (k e : Z) :
  0 <= k -> (inject_Z (2 ^ k) * pow2 e == pow2 (k + e))%Q.
Proof. intros Hk. now rewrite pow2_add, (pow2_Z k Hk). Qed.

Lemma inject_Z_nonneg (m : Z) : 0 <= m -> (0 <= inject_Z m)%Q.
Proof. intros H. change 0%Q with (inject_Z 0). now rewrite <- Zle_Qle. Qed.

Lemma rounding_nonneg (X V : Q) : rounding X V -> (0 <= X /\ 0 <= V)%Q.
Proof.
  intros (m & f & e & EX & Hf & Hm & He & Hl & EV).
  pose proof (pow2_pos e) as Hp. pose proof (rne_bounds m f) as Hr.
  pose proof (inject_Z_nonneg m ltac:(lia)).
  pose proof (inject_Z_nonneg (rne m f) ltac:(lia)).
  rewrite EX, EV. split; apply Qmult_le_0_compat; lra.
Qed.

(** Rounding is monotone. *)
Lemma rounding_mono (X X' V V' : Q) :
  rounding X V -> rounding X' V' -> (X <= X')%Q -> (V <= V')%Q.
Proof.
  intros (m & f & e & EX & Hf & Hm & He & Hl & EV)
         (m' & f' & e' & EX' & Hf' & Hm' & He' & Hl' & EV') Hle.
  rewrite EV, EV'. rewrite EX, EX' in Hle.
  pose proof (rne_bounds m f) as Hr. pose proof (rne_bounds m' f') as Hr'.
  pose proof prec_pos as Hp.
  destruct (Z.compare_spec e e') as [E|L|L].
  - subst e'. apply pow2_scale_le_inv in Hle.
    apply pow2_scale_le. rewrite <- Zle_Qle. now apply rne_mono.
  - destruct Hl' as [E|Hl']; [lia|].
    apply Qle_trans with (inject_Z (2 ^ prec) * pow2 e)%Q.
    { apply pow2_scale_le. rewrite <- Zle_Qle. lia. }
    rewrite pow2_inject by lia.
    apply Qle_trans with (pow2 (prec - 1 + e')); [apply pow2_le; lia|].
    rewrite <- pow2_inject by lia.
    apply pow2_scale_le. rewrite <- Zle_Qle. lia.
  - exfalso. destruct Hl as [E|Hl]; [lia|].
    assert (H1 : (pow2 (prec + e') <= (inject_Z m + f) * pow2 e)%Q).
    { apply Qle_trans with (pow2 (prec - 1 + e)); [apply pow2_le; lia|].
      rewrite <- pow2_inject by lia. apply pow2_scale_le.
      rewrite Zle_Qle in Hl. lra. }
    assert (H2 : ((inject_Z m' + f') * pow2 e' < pow2 (prec + e'))%Q).
    { rewrite <- pow2_inject by lia. apply pow2_scale_lt.
      assert (H3 : m' + 1 <= 2 ^ prec) by lia.
      rewrite Zle_Qle, inject_Z_plus in H3.
      change (inject_Z 1) with 1%Q in H3. lra. }
    lra.
Qed.

Lemma rounding_exact (m e : Z) :
  0 <= m < 2 ^ prec -> emin <= e -> (e = emin \/ 2 ^ (prec - 1) <= m) ->
  rounding (inject_Z m * pow2 e) (inject_Z m * pow2 e).
Proof.
  intros Hm He Hl. exists m, 0%Q, e.
  split; [ring|]. split; [lra|]. split; [exact Hm|]. split; [exact He|].
  split; [exact Hl|]. now rewrite rne_exact.
Qed.

Lemma rounding_zero : rounding 0 0.
Proof.
  exists 0, 0%Q, emin.
  split; [ring|]. split; [lra|]. split; [split; [lia|reflexivity]|].
  split; [lia|]. split; [now left|]. rewrite rne_exact by reflexivity. ring.
Qed.

(** The mantissa and the exponent of a double. *)
Lemma bounded_mantissa (m : positive) (e : Z) :
  bounded prec emax m e = true ->
  Zpos m < 2 ^ prec /\ emin <= e <= emax - prec /\
  (e = emin \/ 2 ^ (prec - 1) <= Zpos m).
Proof.
  intros B. pose proof (bounded_canonical m e B) as [He Hc].
  unfold bounded in B. apply andb_prop in B as [_ B]. apply Z.leb_le in B.
  pose proof (digits2_pos_bounds m) as [Hlo Hhi].
  pose proof prec_pos as Hp. unfold fexp in Hc.
  assert (Hd : Zpos (digits2_pos m) <= prec) by lia.
  split.
  { apply Z.lt_le_trans with (1 := Hhi). apply Z.pow_le_mono_r; lia. }
  split; [lia|].
  destruct (Z.eq_dec e emin) as [E|E]; [now left|right].
  assert (Ed : Zpos (digits2_pos m) = prec) by lia.
  rewrite Ed in Hlo. exact Hlo.
Qed.

Lemma negative_value (m : positive) (e : Z) :
  (inject_Z (- Zpos m) * pow2 e < 0)%Q.
Proof.
  assert (H : (inject_Z (- Zpos m) < 0)%Q)
    by (change 0%Q with (inject_Z 0); rewrite <- Zlt_Qlt; lia).
  apply (pow2_scale_lt _ _ e) in H. lra.
Qed.

Lemma B2Q_below_overflow (x : spec_float) :
  valid_binary x = true -> (B2Q x < pow2 emax)%Q.
Proof.
  intros V. pose proof (pow2_pos emax) as Hp.
  destruct x as [s|s| |s m e]; cbn [B2Q]; try exact Hp.
  cbn [valid_binary] in V. apply bounded_mantissa in V as (Hm & He & _).
  destruct s; cbn [cond_Zopp].
  - pose proof (negative_value m e). lra.
  - apply Qlt_le_trans with (inject_Z (2 ^ prec) * pow2 e)%Q.
    { apply pow2_scale_lt. now rewrite <- Zlt_Qlt. }
    pose proof prec_pos.
    rewrite pow2_inject by lia. apply pow2_le. lia.
Qed.

(** A double that is not negative holds its own value, which rounds to
    itself. *)
Lemma holds_value (x : spec_float) :
  valid_binary x = true -> is_finite_SF x = true -> (0 <= B2Q x)%Q ->
  holds (B2Q x) x /\ rounding (B2Q x) (B2Q x).
Proof.
  intros V F P. destruct x as [s|s| |s m e]; try discriminate;
    cbn [B2Q holds] in *.
  - split; [reflexivity | exact rounding_zero].
  - cbn [valid_binary] in V. apply bounded_mantissa in V as (Hm & He & Hl).
    destruct s; cbn [cond_Zopp] in *.
    + exfalso. pose proof (negative_value m e). lra.
    + split; [reflexivity|]. apply rounding_exact; [lia | lia | exact Hl].
Qed.

Lemma holds_finite (V : Q) (c : spec_float) :
  holds V c -> is_finite_SF c = true -> (B2Q c == V)%Q.
Proof.
  destruct c as [s|s| |[|] m e]; cbn [holds is_finite_SF B2Q cond_Zopp];
    try discriminate; try contradiction; intros H _;
    [symmetry; exact H | exact H].
Qed.

Lemma holds_below (V U : Q) (c : spec_float) :
  holds V c -> (V < pow2 emax)%Q -> is_finite_SF c = true.
Proof.
  destruct c as [s|[|]| |[|] m e]; cbn [holds is_finite_SF];
    try reflexivity; try contradiction. intros H L. lra.
Qed.

(** A number below a double rounds to a double not above it. *)
Lemma rounded_upper (X : Q) (c U : spec_float) :
  rounded X c -> valid_binary U = true -> is_finite_SF U = true ->
  (X <= B2Q U)%Q ->
  is_finite_SF c = true /\ (0 <= B2Q c <= B2Q U)%Q.
Proof.
  intros (V & R & H) VU FU Hle.
  pose proof (rounding_nonneg _ _ R) as [HX HV].
  destruct (holds_value U VU FU ltac:(lra)) as [_ RU].
  pose proof (rounding_mono _ _ _ _ R RU Hle) as HVU.
  pose proof (B2Q_below_overflow U VU) as HU.
  assert (F : is_finite_SF c = true)
    by (apply (holds_below V V c H); lra).
  split; [exact F|]. rewrite (holds_finite V c H F). lra.
Qed.

(** A number above a double rounds to a double not below it. *)
Lemma rounded_lower (X : Q) (c L : spec_float) :
  rounded X c -> valid_binary L = true -> is_finite_SF L = true ->
  (0 <= B2Q L)%Q -> (B2Q L <= X)%Q -> is_finite_SF c = true ->
  (B2Q L <= B2Q c)%Q.
Proof.
  intros (V & R & H) VL FL PL Hle F.
  destruct (holds_value L VL FL PL) as [_ RL].
  pose proof (rounding_mono _ _ _ _ RL R Hle) as HLV.
  now rewrite (holds_finite V c H F).
Qed.

(** Of two numbers the lesser one rounds to the lesser double. *)
Lemma rounded_mono (X X' : Q) (c c' : spec_float) :
  rounded X c -> rounded X' c' -> (X <= X')%Q ->
  valid_binary c' = true -> is_finite_SF c' = true ->
  is_finite_SF c = true /\ (0 <= B2Q c <= B2Q c')%Q.
Proof.
  intros (V & R & H) (V' & R' & H') Hle Vc Fc.
  pose proof (rounding_nonneg _ _ R) as [HX HV].
  pose proof (rounding_mono _ _ _ _ R R' Hle) as HVV.
  pose proof (holds_finite V' c' H' Fc) as E'.
  pose proof (B2Q_below_overflow c' Vc) as HU.
  assert (F : is_finite_SF c = true)
    by (apply (holds_below V V c H); lra).
  split; [exact F|]. rewrite (holds_finite V c H F). lra.
Qed.

(** Above the subnormal numbers rounding adds at most one part in
    [2 ^ (prec - 1)]. *)
Lemma rounding_relative (X V : Q) :
  rounding X V -> (pow2 (emin + prec - 1) <= X)%Q ->
  (V <= X * (1 + pow2 (1 - prec)))%Q.
Proof.
  intros (m & f & e & EX & Hf & Hm & He & Hl & EV) HX.
  pose proof (rne_bounds m f) as Hr. pose proof prec_pos as Hp.
  pose proof (pow2_pos e) as Hpe.
  assert (G : (inject_Z (2 ^ (prec - 1)) * pow2 e <= X)%Q).
  { destruct Hl as [->|Hl].
    - rewrite pow2_inject by lia.
      now replace (prec - 1 + emin) with (emin + prec - 1) by lia.
    - rewrite EX. apply pow2_scale_le. rewrite Zle_Qle in Hl. lra. }
  assert (E1 : (pow2 e == inject_Z (2 ^ (prec - 1)) * pow2 e * pow2 (1 - prec))%Q).
  { rewrite <- (pow2_Z (prec - 1)) by lia.
    rewrite <- !pow2_add.
    now replace (prec - 1 + e + (1 - prec)) with e by lia. }
  assert (G1 : (pow2 e <= X * pow2 (1 - prec))%Q).
  { rewrite E1 at 1. now apply pow2_scale_le. }
  assert (G2 : (inject_Z m * pow2 e <= X)%Q).
  { rewrite EX. apply pow2_scale_le. lra. }
  assert (G3 : (inject_Z (rne m f) <= inject_Z m + 1)%Q).
  { change 1%Q with (inject_Z 1). rewrite <- inject_Z_plus, <- Zle_Qle. lia. }
  apply (pow2_scale_le _ _ e) in G3.
  rewrite EV. lra.
Qed.

Lemma rounded_ext (X X' : Q) (c : spec_float) :
  (X == X')%Q -> rounded X c -> rounded X' c.
Proof.
  intros E (V & (m & f & e & EX & R) & H).
  exists V. split; [|exact H]. exists m, f, e.
  split; [now rewrite <- E | exact R].
Qed.

Lemma rounded_zero_result (X : Q) (s : bool) :
  (X == 0)%Q -> rounded X (S754_zero s).
Proof.
  intros E. apply (rounded_ext 0); [now symmetry|].
  exists 0%Q. split; [exact rounding_zero | reflexivity].
Qed.

Lemma rounded_self (x : spec_float) :
  valid_binary x = true -> is_finite_SF x = true -> (0 <= B2Q x)%Q ->
  rounded (B2Q x) x.
Proof.
  intros V F P. exists (B2Q x).
  destruct (holds_value x V F P) as [H R]. now split.
Qed.

(** *** Alignment *)

Lemma iter_xO_value (m d : positive) :
  Zpos (Pos.iter xO m d) = Zpos m * 2 ^ Zpos d.
Proof.
  induction d as [|d IH] using Pos.peano_ind.
  - cbn [Pos.iter]. lia.
  - rewrite Pos.iter_succ, Pos2Z.inj_succ, Z.pow_succ_r by lia.
    rewrite Pos2Z.inj_xO, IH. lia.
Qed.

Lemma shl_align_value (m : positive) (e e' : Z) :
  e' <= e ->
  shl_align m e e' = (Z.to_pos (Zpos m * 2 ^ (e - e')), e') /\
  0 < Zpos m * 2 ^ (e - e').
Proof.
  intros H. unfold shl_align.
  destruct (e' - e) as [|d|d] eqn:Ed; [|lia|].
  - assert (e = e') by lia. subst e'. rewrite Z.sub_diag.
    cbn [Z.pow]. rewrite Z.mul_1_r. cbn [Z.to_pos]. split; [reflexivity|lia].
  - assert (E : e - e' = Zpos d) by lia. rewrite E.
    rewrite <- iter_xO_value. cbn [Z.to_pos]. split; [reflexivity|lia].
Qed.

Lemma cond_Zopp_value (s : bool) (m : Z) (k e : Z) :
  0 <= k ->
  (inject_Z (cond_Zopp s (m * 2 ^ k)) * pow2 e
   == inject_Z (cond_Zopp s m) * pow2 (k + e))%Q.
Proof.
  intros Hk. rewrite <- pow2_inject by exact Hk.
  assert (E : cond_Zopp s (m * 2 ^ k) = cond_Zopp s m * 2 ^ k)
    by (destruct s; cbn [cond_Zopp]; lia).
  rewrite E, inject_Z_mult. ring.
Qed.

Lemma aligned_value (s : bool) (m : positive) (e ez : Z) :
  ez <= e ->
  (inject_Z (cond_Zopp s (Zpos (fst (shl_align m e ez)))) * pow2 ez
   == B2Q (S754_finite s m e))%Q.
Proof.
  intros H. destruct (shl_align_value m e ez H) as [-> P]. cbn [fst].
  rewrite Z2Pos.id by exact P.
  rewrite cond_Zopp_value by lia. cbn [B2Q].
  now replace (e - ez + ez) with e by lia.
Qed.

(** *** Rounding a number written with an exponent *)

Lemma binary_round_rounded (m : positive) (e : Z) :
  rounded (inject_Z (Zpos m) * pow2 e) (binary_round prec emax false m e).
Proof.
  unfold binary_round.
  set (e0 := fexp prec emax (Zpos (digits2_pos m) + e)).
  destruct (Z_le_gt_dec e0 e) as [L|L].
  - destruct (shl_align_value m e e0 L) as [-> P].
    set (m' := Z.to_pos (Zpos m * 2 ^ (e - e0))).
    assert (Em : Zpos m' = Zpos m * 2 ^ (e - e0))
      by (unfold m'; now rewrite Z2Pos.id).
    apply (rounded_ext ((inject_Z (Zpos m') + 0) * pow2 e0)).
    { assert (Ep : (pow2 e == pow2 (e - e0) * pow2 e0)%Q).
      { rewrite <- pow2_add. now replace (e - e0 + e0) with e by lia. }
      rewrite Em, inject_Z_mult, <- (pow2_Z (e - e0)), Ep by lia. ring. }
    apply binary_round_aux_rounded; [lia | reflexivity |].
    assert (Ed : Zdigits2 (Zpos m') = Zpos (digits2_pos m) + (e - e0)).
    { destruct (Z.eq_dec e e0) as [E|E].
      - unfold m'. rewrite E, Z.sub_diag. cbn [Z.pow].
        rewrite Z.mul_1_r. cbn [Z.to_pos Zdigits2]. lia.
      - assert (Hd : exists d, e - e0 = Zpos d)
          by (destruct (e - e0) as [|d|d] eqn:Ed; try lia; now exists d).
        destruct Hd as [d Hd]. unfold m'. rewrite Hd.
        rewrite <- iter_xO_value. cbn [Z.to_pos Zdigits2].
        apply digits2_pos_iter_xO. }
    rewrite Ed.
    replace (Zpos (digits2_pos m) + (e - e0) + e0)
      with (Zpos (digits2_pos m) + e) by lia.
    fold e0. lia.
  - unfold shl_align.
    destruct (e0 - e) as [|d|d] eqn:Ed; try lia.
    apply (rounded_ext ((inject_Z (Zpos m) + 0) * pow2 e)); [ring|].
    apply binary_round_aux_rounded; [lia | reflexivity |].
    cbn [Zdigits2]. fold e0. lia.
Qed.

Lemma binary_normalize_rounded (D e : Z) :
  0 <= D ->
  rounded (inject_Z D * pow2 e) (binary_normalize prec emax D e false).
Proof.
  intros H. destruct D as [|p|p]; [| |lia]; cbn [binary_normalize].
  - apply rounded_zero_result. ring.
  - apply binary_round_rounded.
Qed.

Lemma scaled_sign (D : Z) (e : Z) :
  (0 <= inject_Z D * pow2 e)%Q -> 0 <= D.
Proof.
  intros H. apply Z.le_ngt. intros L.
  assert (H1 : (inject_Z D < 0)%Q)
    by (change 0%Q with (inject_Z 0); now rewrite <- Zlt_Qlt).
  apply (pow2_scale_lt _ _ e) in H1. lra.
Qed.

Lemma positive_value (m : positive) (e : Z) :
  (0 < inject_Z (Zpos m) * pow2 e)%Q.
Proof.
  assert (H : (0 < inject_Z (Zpos m))%Q)
    by (change 0%Q with (inject_Z 0); rewrite <- Zlt_Qlt; lia).
  apply (pow2_scale_lt _ _ e) in H. lra.
Qed.

(** *** Subtraction and addition *)

(** [x - y] for [y <= x] is the difference, rounded. *)
Lemma SFsub_rounded (x y : spec_float) :
  valid_binary x = true -> valid_binary y = true ->
  is_finite_SF x = true -> is_finite_SF y = true ->
  (B2Q y <= B2Q x)%Q ->
  rounded (B2Q x - B2Q y) (SF64sub x y).
Proof.
  intros Vx Vy Fx Fy Hle.
  destruct x as [sx| | |sx mx ex], y as [sy| | |sy my ey]; try discriminate;
    unfold SF64sub; cbn [SFsub].
  - destruct sx, sy; cbn [negb]; apply rounded_zero_result; cbn [B2Q]; ring.
  - cbn [B2Q] in Hle. destruct sy; cbn [cond_Zopp negb] in *.
    + apply (rounded_ext (B2Q (S754_finite false my ey))).
      { cbn [B2Q cond_Zopp]. rewrite inject_Z_opp. ring. }
      apply rounded_self; [exact Vy | reflexivity |].
      pose proof (positive_value my ey). cbn [B2Q cond_Zopp]. lra.
    + exfalso. pose proof (positive_value my ey). lra.
  - cbn [B2Q] in Hle. destruct sx; cbn [cond_Zopp] in *.
    + exfalso. pose proof (negative_value mx ex). lra.
    + apply (rounded_ext (B2Q (S754_finite false mx ex))).
      { cbn [B2Q cond_Zopp]. ring. }
      apply rounded_self; [exact Vx | reflexivity |].
      pose proof (positive_value mx ex). cbn [B2Q cond_Zopp]. lra.
  - set (ez := Z.min ex ey).
    pose proof (aligned_value sx mx ex ez ltac:(lia)) as Ex.
    pose proof (aligned_value sy my ey ez ltac:(lia)) as Ey.
    set (D := cond_Zopp sx (Zpos (fst (shl_align mx ex ez))) -
              cond_Zopp sy (Zpos (fst (shl_align my ey ez)))).
    assert (ED : (inject_Z D * pow2 ez
                  == B2Q (S754_finite sx mx ex) - B2Q (S754_finite sy my ey))%Q).
    { unfold D. unfold Z.sub. rewrite inject_Z_plus, inject_Z_opp.
      rewrite <- Ex, <- Ey. ring. }
    apply (rounded_ext _ _ _ ED).
    apply binary_normalize_rounded. apply (scaled_sign D ez). lra.
Qed.

(** [x + y] for [x, y >= 0] is the sum, rounded. *)
Lemma SFadd_rounded (x y : spec_float) :
  valid_binary x = true -> valid_binary y = true ->
  is_finite_SF x = true -> is_finite_SF y = true ->
  (0 <= B2Q x)%Q -> (0 <= B2Q y)%Q ->
  rounded (B2Q x + B2Q y) (SF64add x y).
Proof.
  intros Vx Vy Fx Fy Px Py.
  destruct x as [sx| | |sx mx ex], y as [sy| | |sy my ey]; try discriminate;
    unfold SF64add; cbn [SFadd].
  - destruct sx, sy; apply rounded_zero_result; cbn [B2Q]; ring.
  - apply (rounded_ext (B2Q (S754_finite sy my ey))); [cbn [B2Q]; ring|].
    now apply rounded_self.
  - apply (rounded_ext (B2Q (S754_finite sx mx ex))); [cbn [B2Q]; ring|].
    now apply rounded_self.
  - set (ez := Z.min ex ey).
    pose proof (aligned_value sx mx ex ez ltac:(lia)) as Ex.
    pose proof (aligned_value sy my ey ez ltac:(lia)) as Ey.
    set (D := cond_Zopp sx (Zpos (fst (shl_align mx ex ez))) +
              cond_Zopp sy (Zpos (fst (shl_align my ey ez)))).
    assert (ED : (inject_Z D * pow2 ez
                  == B2Q (S754_finite sx mx ex) + B2Q (S754_finite sy my ey))%Q).
    { unfold D. rewrite inject_Z_plus. rewrite <- Ex, <- Ey. ring. }
    apply (rounded_ext _ _ _ ED).
    apply binary_normalize_rounded. apply (scaled_sign D ez). lra.
Qed.

(** *** Multiplication *)

Lemma nonneg_sign (s : bool) (m : positive) (e : Z) :
  (0 <= B2Q (S754_finite s m e))%Q -> s = false.
Proof.
  destruct s; [|reflexivity]. cbn [B2Q cond_Zopp]. intros H.
  pose proof (negative_value m e). lra.
Qed.

(** [x * y] for [x, y >= 0] is the product, rounded. *)
Lemma SFmul_rounded (x y : spec_float) :
  valid_binary x = true -> valid_binary y = true ->
  is_finite_SF x = true -> is_finite_SF y = true ->
  (0 <= B2Q x)%Q -> (0 <= B2Q y)%Q ->
  rounded (B2Q x * B2Q y) (SF64mul x y).
Proof.
  intros Vx Vy Fx Fy Px Py.
  destruct x as [sx| | |sx mx ex], y as [sy| | |sy my ey]; try discriminate;
    unfold SF64mul; cbn [SFmul];
    try (apply rounded_zero_result; cbn [B2Q]; ring).
  apply nonneg_sign in Px, Py. subst sx sy. cbn [xorb].
  apply (rounded_ext ((inject_Z (Zpos (mx * my)) + 0) * pow2 (ex + ey))).
  { cbn [B2Q cond_Zopp]. rewrite Pos2Z.inj_mul, inject_Z_mult, pow2_add.
    ring. }
  apply binary_round_aux_rounded; [lia | reflexivity |].
  cbn [valid_binary] in Vx, Vy.
  pose proof (bounded_canonical _ _ Vx) as [Lx Cx].
  pose proof (bounded_canonical _ _ Vy) as [Ly Cy].
  pose proof (digits2_pos_bounds mx) as [Bx Bx'].
  pose proof (digits2_pos_bounds my) as [By By'].
  pose proof (digits2_pos_bounds (mx * my)) as [Bz Bz'].
  cbn [Zdigits2].
  set (dx := Zpos (digits2_pos mx)) in *.
  set (dy := Zpos (digits2_pos my)) in *.
  set (dz := Zpos (digits2_pos (mx * my))) in *.
  assert (Hdx : 1 <= dx) by (unfold dx; lia).
  assert (Hdy : 1 <= dy) by (unfold dy; lia).
  assert (Hdz : dx + dy - 1 <= dz).
  { assert (H1 : 2 ^ (dx - 1) * 2 ^ (dy - 1) <= Zpos mx * Zpos my)
      by (apply Z.mul_le_mono_nonneg; lia).
    rewrite <- Z.pow_add_r in H1 by lia.
    rewrite Pos2Z.inj_mul in Bz'.
    assert (H2 : 2 ^ (dx - 1 + (dy - 1)) < 2 ^ dz) by lia.
    apply Z.pow_lt_mono_r_iff in H2; [lia | lia | unfold dz; lia]. }
  assert (Emin : emin = -1074) by reflexivity.
  assert (Eprec : prec = 53) by reflexivity.
  unfold fexp in *. lia.
Qed.

(** *** Division *)

(** The place of the remainder [r] of a division by [n]. *)
Lemma new_location_located (n r : Z) :
  0 < n -> 0 <= r < n ->
  located (new_location n r) (inject_Z r / inject_Z n).
Proof.
  intros Hn Hr.
  assert (Hn' : (0 < inject_Z n)%Q)
    by (change 0%Q with (inject_Z 0); now rewrite <- Zlt_Qlt).
  assert (Q2 : forall a b : Z, a < b -> (inject_Z a < inject_Z b)%Q)
    by (intros a b; now rewrite <- Zlt_Qlt).
  assert (Hlt : 2 * r < n -> (inject_Z r / inject_Z n < 1 # 2)%Q).
  { intros L. apply Qlt_shift_div_r; [exact Hn'|].
    apply Q2 in L. rewrite inject_Z_mult in L.
    change (inject_Z 2) with 2%Q in L. lra. }
  assert (Hgt : n < 2 * r -> (1 # 2 < inject_Z r / inject_Z n)%Q).
  { intros L. apply Qlt_shift_div_l; [exact Hn'|].
    apply Q2 in L. rewrite inject_Z_mult in L.
    change (inject_Z 2) with 2%Q in L. lra. }
  assert (Hpos : 0 < r -> (0 < inject_Z r / inject_Z n)%Q).
  { intros L. apply Qlt_shift_div_l; [exact Hn'|].
    apply Q2 in L. change (inject_Z 0) with 0%Q in L. lra. }
  assert (Hone : (inject_Z r / inject_Z n < 1)%Q).
  { apply Qlt_shift_div_r; [exact Hn'|].
    assert (L : r < n) by lia. apply Q2 in L. lra. }
  unfold new_location, new_location_even, new_location_odd.
  destruct (Z.even n) eqn:Ev.
  - destruct (Z.eqb_spec r 0) as [E|E].
    + subst r. cbn [located]. unfold Qdiv. change (inject_Z 0) with 0%Q. ring.
    + destruct (Z.compare_spec (2 * r) n) as [C|C|C]; cbn [located].
      * assert (Ei : (inject_Z n == 2 * inject_Z r)%Q).
        { rewrite <- C, inject_Z_mult. reflexivity. }
        rewrite Ei. field.
        intros E0. rewrite Ei in Hn'. lra.
      * split; [apply Hpos; lia | now apply Hlt].
      * split; [now apply Hgt | exact Hone].
  - assert (Hodd : 2 * r <> n).
    { intros E. rewrite <- E, Z.even_mul in Ev. discriminate. }
    destruct (Z.eqb_spec r 0) as [E|E].
    + subst r. cbn [located]. unfold Qdiv. change (inject_Z 0) with 0%Q. ring.
    + destruct (Z.compare_spec (2 * r + 1) n) as [C|C|C]; cbn [located].
      * split; [apply Hpos; lia | apply Hlt; lia].
      * split; [apply Hpos; lia | apply Hlt; lia].
      * split; [apply Hgt; lia | exact Hone].
Qed.

Lemma fexp_mono (a b : Z) :
  a <= b -> fexp prec emax a <= fexp prec emax b.
Proof. unfold fexp. lia. Qed.

(** The division of the mantissas: quotient, exponent and the place of
    the remainder. *)
Lemma SFdiv_core_rounded (m1 m2 : positive) (e1 e2 : Z) :
  exists q e' l f,
    SFdiv_core_binary prec emax (Zpos m1) e1 (Zpos m2) e2 = (q, e', l) /\
    0 <= q /\ located l f /\
    e' <= fexp prec emax (Zdigits2 q + e') /\
    ((inject_Z q + f) * pow2 e'
     == (inject_Z (Zpos m1) * pow2 e1) / (inject_Z (Zpos m2) * pow2 e2))%Q.
Proof.
  unfold SFdiv_core_binary. cbn [Zdigits2].
  set (d1 := Zpos (digits2_pos m1)). set (d2 := Zpos (digits2_pos m2)).
  set (e' := Z.min (fexp prec emax (d1 + e1 - (d2 + e2))) (e1 - e2)).
  set (s := e1 - e2 - e').
  assert (Hs : 0 <= s) by (unfold s, e'; lia).
  set (m' := match s with
             | 0 => Zpos m1
             | Zpos _ => Z.shiftl (Zpos m1) s
             | Zneg _ => 0
             end).
  assert (Em : m' = Zpos m1 * 2 ^ s).
  { unfold m'. destruct s as [|p|p] eqn:Es; [cbn [Z.pow]; lia| |lia].
    now rewrite Z.shiftl_mul_pow2 by lia. }
  pose proof (Z_div_mod m' (Zpos m2) ltac:(lia)) as Hdm.
  destruct (Z.div_eucl m' (Zpos m2)) as [q r] eqn:Edm.
  destruct Hdm as [Edv Hr].
  assert (Hps : 0 < 2 ^ s) by (apply Z.pow_pos_nonneg; lia).
  assert (Hq : 0 <= q) by nia.
  exists q, e', (new_location (Zpos m2) r), (inject_Z r / inject_Z (Zpos m2))%Q.
  split; [reflexivity|]. split; [exact Hq|].
  split; [apply new_location_located; lia|].
  assert (Hm2 : (0 < inject_Z (Zpos m2))%Q)
    by (change 0%Q with (inject_Z 0); rewrite <- Zlt_Qlt; lia).
  split.
  - apply Z.le_trans with (fexp prec emax (d1 + e1 - (d2 + e2)));
      [unfold e'; lia|].
    apply fexp_mono.
    pose proof (digits2_pos_bounds m1) as [B1 B1'].
    pose proof (digits2_pos_bounds m2) as [B2 B2'].
    fold d1 in B1, B1'. fold d2 in B2, B2'.
    assert (Hd1 : 1 <= d1) by (unfold d1; lia).
    assert (Hd2 : 1 <= d2) by (unfold d2; lia).
    assert (Hdq0 : 0 <= Zdigits2 q)
      by (destruct q as [|p|p]; cbn [Zdigits2]; lia).
    destruct (Z_le_gt_dec (d1 + s - d2) 0) as [K|K]; [unfold s in *; lia|].
    assert (H1 : 2 ^ (d1 - 1 + s) <= m').
    { rewrite Em, Z.pow_add_r by lia. apply Z.mul_le_mono_nonneg_r; lia. }
    assert (H2 : m' < 2 ^ d2 * (q + 1)) by nia.
    assert (H3 : 2 ^ (d1 - 1 + s) = 2 ^ d2 * 2 ^ (d1 + s - d2 - 1)).
    { rewrite <- Z.pow_add_r by lia. f_equal. lia. }
    assert (H4 : 2 ^ (d1 + s - d2 - 1) < q + 1).
    { assert (0 < 2 ^ d2) by (apply Z.pow_pos_nonneg; lia). nia. }
    assert (H5 : 0 < 2 ^ (d1 + s - d2 - 1)) by (apply Z.pow_pos_nonneg; lia).
    destruct (Zdigits2_bounds q Hq) as [Hup _].
    assert (H6 : 2 ^ (d1 + s - d2 - 1) < 2 ^ Zdigits2 q) by lia.
    apply Z.pow_lt_mono_r_iff in H6; [|lia|lia].
    unfold s in *. lia.
  - assert (E1 : (inject_Z q + inject_Z r / inject_Z (Zpos m2)
                  == inject_Z m' / inject_Z (Zpos m2))%Q).
    { rewrite Edv, inject_Z_plus, inject_Z_mult. field. lra. }
    rewrite E1, Em, inject_Z_mult, <- (pow2_Z s) by exact Hs.
    assert (E2 : (pow2 e1 == pow2 s * pow2 e' * pow2 e2)%Q).
    { rewrite <- !pow2_add. unfold s. now replace (e1 - e2 - e' + e' + e2) with e1 by lia. }
    rewrite E2. pose proof (pow2_pos e2). field. split; lra.
Qed.

(** [x / y] for [x >= 0] and [y > 0] is the quotient, rounded. *)
Lemma SFdiv_rounded (x y : spec_float) :
  valid_binary x = true -> valid_binary y = true ->
  is_finite_SF x = true -> is_finite_SF y = true ->
  (0 <= B2Q x)%Q -> (0 < B2Q y)%Q ->
  rounded (B2Q x / B2Q y) (SF64div x y).
Proof.
  intros Vx Vy Fx Fy Px Py.
  destruct x as [sx| | |sx mx ex], y as [sy| | |sy my ey]; try discriminate;
    unfold SF64div; cbn [SFdiv]; try (cbn [B2Q] in Py; lra).
  - apply rounded_zero_result. cbn [B2Q]. unfold Qdiv. ring.
  - apply nonneg_sign in Px. assert (Sy : sy = false) by (apply (nonneg_sign sy my ey); lra).
    subst sx sy. cbn [xorb].
    destruct (SFdiv_core_rounded mx my ex ey)
      as (q & e' & l & f & -> & Hq & Hl & He & EV).
    apply (rounded_ext _ _ _ EV).
    now apply binary_round_aux_rounded.
Qed.

(** *** The operations of the doubles *)

Lemma B2Q_scaled (x : spec_float) :
  valid_binary x = true ->
  (B2Q x == inject_Z (scaled x) * pow2 emin)%Q.
Proof.
  intros V. destruct x as [s|s| |s m e]; cbn [B2Q scaled]; try ring.
  cbn [valid_binary] in V. apply bounded_canonical in V as [He _].
  rewrite cond_Zopp_value by lia.
  now replace (e - emin + emin) with e by lia.
Qed.

Lemma scaled_le_val (a b : binary64) :
  scaled (Prim2SF a) <= scaled (Prim2SF b) <-> (val a <= val b)%Q.
Proof.
  unfold val.
  rewrite (B2Q_scaled _ (Prim2SF_valid a)), (B2Q_scaled _ (Prim2SF_valid b)).
  split; intros H.
  - apply pow2_scale_le. now rewrite <- Zle_Qle.
  - apply pow2_scale_le_inv in H. now rewrite Zle_Qle.
Qed.

(** Finite doubles compare as their values do. *)
Lemma leb_val (a b : binary64) :
  binary64_isFinite a = true -> binary64_isFinite b = true ->
  (PrimFloat.leb a b = true <-> (val a <= val b)%Q).
Proof.
  intros Fa Fb. rewrite (leb_scaled a b Fa Fb). apply scaled_le_val.
Qed.

Lemma eqb_val (a b : binary64) :
  binary64_isFinite a = true -> binary64_isFinite b = true ->
  PrimFloat.eqb a b = true -> (val a == val b)%Q.
Proof.
  intros Fa Fb E.
  pose proof Fa as Fa'. pose proof Fb as Fb'.
  rewrite isFinite_SF in Fa', Fb'.
  rewrite eqb_spec in E. unfold SFeqb in E.
  rewrite (SFcompare_scaled _ _ (Prim2SF_valid a) (Prim2SF_valid b) Fa' Fb')
    in E.
  destruct (Z.compare_spec (scaled (Prim2SF a)) (scaled (Prim2SF b)))
    as [C|C|C]; try discriminate.
  apply Qle_antisym; apply scaled_le_val; lia.
Qed.

Lemma truthy_val (x : binary64) :
  binary64_isFinite x = true -> truthy x = true -> (0 <= val x)%Q ->
  (0 < val x)%Q.
Proof.
  rewrite isFinite_SF, truthy_SF. unfold val.
  destruct (Prim2SF x) as [s|s| |s m e]; try discriminate.
  intros _ _ P. apply nonneg_sign in P as ->. apply positive_value.
Qed.

Lemma sub_rounded (a b : binary64) :
  binary64_isFinite a = true -> binary64_isFinite b = true ->
  (val b <= val a)%Q ->
  rounded (val a - val b) (Prim2SF (PrimFloat.sub a b)).
Proof.
  rewrite !isFinite_SF, sub_spec. intros Fa Fb H.
  apply SFsub_rounded; auto using Prim2SF_valid.
Qed.

Lemma add_rounded (a b : binary64) :
  binary64_isFinite a = true -> binary64_isFinite b = true ->
  (0 <= val a)%Q -> (0 <= val b)%Q ->
  rounded (val a + val b) (Prim2SF (PrimFloat.add a b)).
Proof.
  rewrite !isFinite_SF, add_spec. intros Fa Fb Pa Pb.
  apply SFadd_rounded; auto using Prim2SF_valid.
Qed.

Lemma mul_rounded (a b : binary64) :
  binary64_isFinite a = true -> binary64_isFinite b = true ->
  (0 <= val a)%Q -> (0 <= val b)%Q ->
  rounded (val a * val b) (Prim2SF (PrimFloat.mul a b)).
Proof.
  rewrite !isFinite_SF, mul_spec. intros Fa Fb Pa Pb.
  apply SFmul_rounded; auto using Prim2SF_valid.
Qed.

Lemma div_rounded (a b : binary64) :
  binary64_isFinite a = true -> binary64_isFinite b = true ->
  (0 <= val a)%Q -> (0 < val b)%Q ->
  rounded (val a / val b) (Prim2SF (PrimFloat.div a b)).
Proof.
  rewrite !isFinite_SF, div_spec. intros Fa Fb Pa Pb.
  apply SFdiv_rounded; auto using Prim2SF_valid.
Qed.

(** A result below a double is finite and not above it. *)
Lemma result_upper (X : Q) (c U : binary64) :
  rounded X (Prim2SF c) -> binary64_isFinite U = true -> (X <= val U)%Q ->
  binary64_isFinite c = true /\ (0 <= val c <= val U)%Q.
Proof.
  rewrite !isFinite_SF. intros R FU H.
  exact (rounded_upper X _ _ R (Prim2SF_valid U) FU H).
Qed.

Lemma result_lower (X : Q) (c L : binary64) :
  rounded X (Prim2SF c) -> binary64_isFinite L = true ->
  (0 <= val L)%Q -> (val L <= X)%Q -> binary64_isFinite c = true ->
  (val L <= val c)%Q.
Proof.
  rewrite !isFinite_SF. intros R FL P H F.
  exact (rounded_lower X _ _ R (Prim2SF_valid L) FL P H F).
Qed.

Lemma result_mono (X X' : Q) (c c' : binary64) :
  rounded X (Prim2SF c) -> rounded X' (Prim2SF c') -> (X <= X')%Q ->
  binary64_isFinite c' = true ->
  binary64_isFinite c = true /\ (0 <= val c <= val c')%Q.
Proof.
  rewrite !isFinite_SF. intros R R' H F.
  exact (rounded_mono X X' _ _ R R' H (Prim2SF_valid c') F).
Qed.

Lemma result_relative (X : Q) (c : binary64) :
  rounded X (Prim2SF c) -> binary64_isFinite c = true ->
  (pow2 (emin + prec - 1) <= X)%Q ->
  (val c <= X * (1 + pow2 (1 - prec)))%Q.
Proof.
  rewrite isFinite_SF. intros (V & R & H) F HX. unfold val.
  rewrite (holds_finite V _ H F). now apply rounding_relative.
Qed.

(** *** Integers *)

Lemma rounding_integer (k : Z) :
  0 <= k < 2 ^ prec -> rounding (inject_Z k) (inject_Z k).
Proof.
  intros Hk. destruct (Z.eq_dec k 0) as [->|Hn]; [exact rounding_zero|].
  destruct (Zdigits2_bounds k ltac:(lia)) as [Hup Hlow].
  specialize (Hlow ltac:(lia)).
  set (d := Zdigits2 k) in *.
  pose proof prec_pos as Hp.
  assert (Hd1 : 1 <= d).
  { apply Z.le_ngt. intros L.
    assert (2 ^ d <= 2 ^ 0) by (destruct (Z_le_gt_dec 0 d);
      [apply Z.pow_le_mono_r; lia | rewrite Z.pow_neg_r by lia; cbn; lia]).
    cbn in *. lia. }
  assert (Hdp : d <= prec).
  { apply Z.le_ngt. intros L.
    assert (2 ^ prec <= 2 ^ (d - 1)) by (apply Z.pow_le_mono_r; lia). lia. }
  assert (E : (inject_Z k == inject_Z (k * 2 ^ (prec - d)) * pow2 (d - prec))%Q).
  { rewrite inject_Z_mult, <- (pow2_Z (prec - d)) by lia.
    rewrite <- Qmult_assoc, <- pow2_add.
    replace (prec - d + (d - prec)) with 0 by lia.
    change (pow2 0) with 1%Q. ring. }
  assert (Hps : 0 < 2 ^ (prec - d)) by (apply Z.pow_pos_nonneg; lia).
  exists (k * 2 ^ (prec - d)), 0%Q, (d - prec).
  split; [rewrite E at 1; ring|]. split; [lra|].
  assert (Hpd : 2 ^ prec = 2 ^ d * 2 ^ (prec - d)).
  { rewrite <- Z.pow_add_r by lia. f_equal. lia. }
  assert (Hpd1 : 2 ^ (prec - 1) = 2 ^ (d - 1) * 2 ^ (prec - d)).
  { rewrite <- Z.pow_add_r by lia. f_equal. lia. }
  split; [split; [lia | rewrite Hpd; nia]|].
  assert (Emin : emin = -1074) by reflexivity.
  assert (Eprec : prec = 53) by reflexivity.
  split; [lia|]. split; [right; rewrite Hpd1; nia|].
  rewrite rne_exact by reflexivity. exact E.
Qed.

(** An integer below [2 ^ 53] converts to the double of its value. *)
Lemma of_Z_val (k : Z) :
  0 <= k < 2 ^ prec ->
  binary64_isFinite (binary64_of_Z k) = true /\
  (val (binary64_of_Z k) == inject_Z k)%Q.
Proof.
  intros Hk. destruct k as [|p|p]; [split; reflexivity| |lia].
  rewrite isFinite_SF. unfold val. cbn [binary64_of_Z].
  rewrite of_uint63_spec, Uint63.of_Z_spec.
  rewrite Z.mod_small
    by (change Uint63.wB with (2 ^ 63); change prec with 53 in Hk; lia).
  pose proof (binary_normalize_rounded (Zpos p) 0 ltac:(lia))
    as (V & R & H).
  assert (EX : (inject_Z (Zpos p) * pow2 0 == inject_Z (Zpos p))%Q)
    by (change (pow2 0) with 1%Q; ring).
  assert (R' : rounding (inject_Z (Zpos p)) V).
  { destruct R as (m & f & e & E & R). exists m, f, e.
    split; [now rewrite <- EX | exact R]. }
  pose proof (rounding_integer (Zpos p) Hk) as Rk.
  assert (EV : (V == inject_Z (Zpos p))%Q).
  { apply Qle_antisym;
      [apply (rounding_mono _ _ _ _ R' Rk) | apply (rounding_mono _ _ _ _ Rk R')];
      lra. }
  assert (Hlt : (V < pow2 emax)%Q).
  { rewrite EV. apply Qlt_le_trans with (inject_Z (2 ^ prec)).
    - rewrite <- Zlt_Qlt. lia.
    - rewrite <- pow2_Z by (pose proof prec_pos; lia).
      apply pow2_le. assert (emax = 1024) by reflexivity.
      assert (prec = 53) by reflexivity. lia. }
  pose proof (holds_below V V _ H Hlt) as F.
  split; [exact F|]. now rewrite (holds_finite V _ H F).
Qed.

(** ** Printing *)

Local Open Scope string_scope.

Lemma length_append (a b : string) :
  String.length (a ++ b) = (String.length a + String.length b)%nat.
Proof. induction a as [|c a IH]; cbn; [reflexivity | now rewrite IH]. Qed.

Lemma append_nil_r (a : string) : a ++ "" = a.
Proof. induction a as [|c a IH]; cbn; [reflexivity | now rewrite IH]. Qed.

Lemma zeros_length (n : nat) : String.length (zeros n) = n.
Proof. induction n as [|n IH]; cbn; [reflexivity | now rewrite IH]. Qed.

Lemma substring_split (m : string) :
  forall a, (a <= String.length m)%nat ->
    String.substring 0 a m ++ substring_from a m = m /\
    String.length (String.substring 0 a m) = a.
Proof.
  unfold substring_from.
  induction m as [|c m IH]; intros a Ha; cbn [String.length] in *.
  - assert (a = 0%nat) as -> by lia. split; reflexivity.
  - destruct a as [|a].
    + cbn [String.substring append Nat.sub String.length].
      split; [|reflexivity].
      f_equal. clear. induction m as [|c' m IH]; cbn; [reflexivity|].
      now f_equal.
    + cbn [String.substring append Nat.sub String.length].
      destruct (IH a ltac:(lia)) as [E L]. split; [now f_equal | now f_equal].
Qed.

Lemma digits_nonempty (n : Z) : digits n <> "".
Proof.
  unfold digits, NilZero.string_of_uint.
  destruct (N.to_uint (Z.to_N n)); discriminate.
Qed.

Lemma length_pos_nonempty (s : string) :
  (0 < String.length s)%nat -> s <> "".
Proof. destruct s; cbn; [lia | discriminate]. Qed.

(** [toFixed] with [f] decimals: the digits of the value times [10^f],
    rounded to the nearest integer (up from the middle), with a point
    before the last [f] of them and zeros in front if they are fewer than
    [f + 1]. *)
Lemma toFixed_finite_decimals (x : Q) (f : nat) :
  (Qabs x < pow10 21)%Q ->
  let n := round_half_up (Qabs x * pow10 (Z.of_nat f))%Q in
  exists i d,
    toFixed_finite x f
    = Some ((if Qlt_le_dec x 0 then "-" else "")
            ++ i ++ (match f with O => "" | _ => "." end) ++ d) /\
    String.length d = f /\ i <> "" /\
    i ++ d = zeros (f + 1 - String.length (digits n)) ++ digits n.
Proof.
  intros Hx n. unfold toFixed_finite.
  destruct (Qlt_le_dec (Qabs x) (pow10 21)) as [_|Hge];
    [|exfalso; apply (Qlt_not_le _ _ Hx Hge)].
  fold n. set (m := digits n).
  assert (Hm : (1 <= String.length m)%nat).
  { pose proof (digits_nonempty n). fold m in H. destruct m; [congruence|].
    cbn. lia. }
  destruct f as [|f].
  - exists m, "". cbn [append]. rewrite append_nil_r.
    split; [reflexivity|]. split; [reflexivity|].
    split; [now apply digits_nonempty|].
    replace (0 + 1 - String.length m)%nat with 0%nat by lia.
    reflexivity.
  - set (m' := if (String.length m <=? S f)%nat
               then zeros (S f + 1 - String.length m) ++ m else m).
    assert (Em : m' = zeros (S f + 1 - String.length m) ++ m).
    { subst m'. destruct (String.length m <=? S f)%nat eqn:E; [reflexivity|].
      apply Nat.leb_gt in E.
      replace (S f + 1 - String.length m)%nat with 0%nat by lia.
      reflexivity. }
    assert (Hk : (S f + 1 <= String.length m')%nat).
    { rewrite Em, length_append, zeros_length. lia. }
    destruct (substring_split m' (String.length m' - S f) ltac:(lia))
      as [Es El].
    exists (String.substring 0 (String.length m' - S f) m'),
      (substring_from (String.length m' - S f) m').
    split; [reflexivity|]. split; [|split].
    + apply (f_equal String.length) in Es.
      rewrite length_append, El in Es. lia.
    + apply length_pos_nonempty. rewrite El. lia.
    + now rewrite Es.
Qed.

(** On doubles [toFixed] always prints; below [10^21] it prints the
    decimals of the value. *)
Lemma toFixed_binary64 (x : binary64) (q : Q) (f : nat) :
  binary64_to_Q x = Some q -> (Qabs q < pow10 21)%Q ->
  toFixed x f = toFixed_finite q f.
Proof.
  intros Hq Hlt. cbn [toFixed binary64_Number]. unfold binary64_toFixed.
  rewrite Hq.
  destruct (toFixed_finite_decimals q f Hlt) as (i & d & -> & _).
  reflexivity.
Qed.

Lemma toFixed_binary64_total (x : binary64) (f : nat) :
  exists s, toFixed x f = Some s.
Proof.
  cbn [toFixed binary64_Number]. unfold binary64_toFixed.
  destruct (binary64_to_Q x) as [q|].
  - destruct (toFixed_finite q f); eauto.
  - destruct (PrimFloat.is_nan x); [eauto|].
    destruct (PrimFloat.ltb x PrimFloat.zero); eauto.
Qed.

End Float64.

(* ================================================================== *)
(** * StreamingMarkdown.tsx *)
(* ================================================================== *)

Module StreamingMarkdown.

Local Open Scope string_scope.
Local Open Scope list_scope.

(** [animateKey?: string | number].  Numeric keys are item ids, modelled
    as integers. *)
Inductive Key : Type :=
| KStr (s : string)
| KNum (n : Z).

Definition Key_eqb (a b : Key) : bool :=
  match a, b with
  | KStr s, KStr t => String.eqb s t
  | KNum n, KNum m => Z.eqb n m
  | _, _ => false
  end.

(** The props the effect reads ([wrapperClassName] and
    [markdownClassName] only reach the class attribute). *)
Record Props : Type := mkProps {
  content : string;
  animateKey : option Key
}.

(** [const key = animateKey ?? content;] *)
Definition key (p : Props) : Key :=
  match animateKey p with
  | Some k => k
  | None => KStr (content p)
  end.

(** The three refs of a mounted instance:
    [animatedRef = useRef(false)], [prevKeyRef = useRef(null)],
    [prevContentRef = useRef("")]. *)
Record Refs : Type := mkRefs {
  animatedRef : bool;
  prevKeyRef : option Key;
  prevContentRef : string
}.

Definition mount_refs : Refs :=
  {| animatedRef := false; prevKeyRef := None; prevContentRef := "" |}.

(** [prevKeyRef.current !== key] *)
Definition keyChanged (r : Refs) (k : Key) : bool :=
  match prevKeyRef r with
  | None => true
  | Some k' => negb (Key_eqb k' k)
  end.

(** The body of the [useEffect] callback (lines 28-46).  The boolean of
    the result tells whether the branch that calls [setIsUpdating(true)]
    was taken, that is, whether the appearance signal fires. *)
Definition effect (r : Refs) (p : Props) : Refs * bool :=
  let k := key p in
  let changed := keyChanged r k in
  let animated := if changed then false else animatedRef r in
  let prevKey := if changed then Some k else prevKeyRef r in
  let hadContent := (0 <? String.length (prevContentRef r))%nat in
  let hasContent := (0 <? String.length (content p))%nat in
  if negb animated && hasContent && negb hadContent
  then ({| animatedRef := true; prevKeyRef := prevKey;
           prevContentRef := content p |}, true)
  else ({| animatedRef := animated; prevKeyRef := prevKey;
           prevContentRef := content p |}, false).

(** A mounted instance: its refs and the dependency array [[key, content]]
    of the last run of the effect ([None] before the first render). *)
Record Instance : Type := mkInstance {
  refs : Refs;
  deps : option (Key * string)
}.

Definition mount : Instance := {| refs := mount_refs; deps := None |}.

Definition deps_changed (d : option (Key * string)) (p : Props) : bool :=
  match d with
  | None => true
  | Some (k, c) => negb (Key_eqb k (key p) && String.eqb c (content p))
  end.

(** One render with props [p]: React runs the effect after the first
    render and after every render in which a dependency changed. *)
Definition render (i : Instance) (p : Props) : Instance * bool :=
  if deps_changed (deps i) p
  then let '(r, fired) := effect (refs i) p in
       ({| refs := r; deps := Some (key p, content p) |}, fired)
  else (i, false).

(** The instance after a sequence of renders, and the trace of the
    appearance signal, one boolean per render. *)
Fixpoint after (i : Instance) (ps : list Props) : Instance :=
  match ps with
  | [] => i
  | p :: ps' => after (fst (render i p)) ps'
  end.

Fixpoint fires_from (i : Instance) (ps : list Props) : list bool :=
  match ps with
  | [] => []
  | p :: ps' => snd (render i p) :: fires_from (fst (render i p)) ps'
  end.

Definition fires (ps : list Props) : list bool := fires_from mount ps.

(** The text rendered last, [""] when nothing was rendered yet. *)
Definition last_content (ps : list Props) : string :=
  match rev ps with
  | [] => ""
  | p :: _ => content p
  end.

Definition nonempty (s : string) : bool := (0 <? String.length s)%nat.

(** ** The specification's reading: one signal per identity *)

(** Positions of the renders of identity [k] at which the signal fires. *)
Fixpoint fired_at_from (n : nat) (k : Key) (ps : list Props) (fs : list bool)
  : list nat :=
  match ps, fs with
  | p :: ps', f :: fs' =>
      if Key_eqb (key p) k && f
      then n :: fired_at_from (S n) k ps' fs'
      else fired_at_from (S n) k ps' fs'
  | _, _ => []
  end.

Definition fired_at (k : Key) (ps : list Props) : list nat :=
  fired_at_from 0 k ps (fires ps).

(** Position of the first render at which identity [k] has text. *)
Fixpoint first_text_from (n : nat) (k : Key) (ps : list Props) : option nat :=
  match ps with
  | [] => None
  | p :: ps' =>
      if Key_eqb (key p) k && nonempty (content p)
      then Some n
      else first_text_from (S n) k ps'
  end.

Definition first_text (k : Key) (ps : list Props) : option nat :=
  first_text_from 0 k ps.

(** "Fires exactly once per identity, the first time that identity's text
    becomes non-empty", for one sequence of renders. *)
Definition appearance_once (ps : list Props) : Prop :=
  forall k n, first_text k ps = Some n -> fired_at k ps = [n].

(** The trace that fires at the first render with text and nowhere else. *)
Fixpoint first_text_trace (ps : list Props) : list bool :=
  match ps with
  | [] => []
  | p :: ps' =>
      if nonempty (content p)
      then true :: repeat false (List.length ps')
      else false :: first_text_trace ps'
  end.

(** The identity rendered last. *)
Definition last_key (ps : list Props) : option Key :=
  match rev ps with
  | [] => None
  | p :: _ => Some (key p)
  end.

(** The dependency array and the refs agree: what every instance reached
    from [mount] satisfies. *)
Definition consistent (i : Instance) : Prop :=
  match deps i with
  | None => refs i = mount_refs
  | Some (k, c) =>
      prevKeyRef (refs i) = Some k /\ prevContentRef (refs i) = c
  end.

(** ** The highlight and its timer *)

(** The renders at which the text goes from empty to non-empty. *)
Fixpoint appearances_from (prev : string) (ps : list Props) : list bool :=
  match ps with
  | [] => []
  | p :: ps' =>
      (nonempty (content p) && negb (nonempty prev))
      :: appearances_from (content p) ps'
  end.

(** A mounted presenter with its state [isUpdating] (line 22), the
    timers started by [window.setTimeout(() => setIsUpdating(false), 420)]
    that are still pending, the timer that the cleanup returned by the
    last run of the effect would clear (lines 43-44; [None] when that run
    returned no cleanup), and the id the next timer gets. *)
Record Presenter : Type := mkPresenter {
  instance : Instance;
  isUpdating : bool;
  timers : list nat;
  cleanup : option nat;
  next_timer : nat
}.

Definition mount_presenter : Presenter :=
  {| instance := mount; isUpdating := false; timers := []; cleanup := None;
     next_timer := 0 |}.

(** What happens to a mounted presenter: it is rendered with props, or
    the pending timer [t] elapses. *)
Inductive Event : Type :=
| Render (p : Props)
| Elapse (t : nat).

(** [window.clearTimeout(t)] *)
Definition clearTimeout (t : nat) (ts : list nat) : list nat :=
  remove Nat.eq_dec t ts.

(** The cleanup of the last run of the effect, called before the effect
    runs again and at unmount. *)
Definition run_cleanup (m : Presenter) : list nat :=
  match cleanup m with
  | Some t => clearTimeout t (timers m)
  | None => timers m
  end.

(** One event.  When a dependency changed, React calls the cleanup of the
    last run of the effect, if it returned one, and runs the effect
    again; the branch that fires sets the state, starts a timer and
    returns the cleanup for it.  A timer that elapses resets the
    state. *)
Definition step (m : Presenter) (e : Event) : Presenter :=
  match e with
  | Render p =>
      if deps_changed (deps (instance m)) p then
        let pending := run_cleanup m in
        let '(i, fired) := render (instance m) p in
        if fired
        then {| instance := i; isUpdating := true;
                timers := next_timer m :: pending;
                cleanup := Some (next_timer m);
                next_timer := S (next_timer m) |}
        else {| instance := i; isUpdating := isUpdating m;
                timers := pending; cleanup := None;
                next_timer := next_timer m |}
      else m
  | Elapse t =>
      if existsb (Nat.eqb t) (timers m)
      then {| instance := instance m; isUpdating := false;
              timers := clearTimeout t (timers m); cleanup := cleanup m;
              next_timer := next_timer m |}
      else m
  end.

Definition run (m : Presenter) (es : list Event) : Presenter :=
  fold_left step es m.

(** The timers left pending when the presenter is unmounted. *)
Definition unmount (m : Presenter) : list nat := run_cleanup m.

(** The text stays non-empty at every render of [es]. *)
Definition text_stays (es : list Event) : Prop :=
  Forall (fun e => match e with
                   | Render p => nonempty (content p) = true
                   | Elapse _ => True
                   end) es.

(** What every presenter reached from [mount_presenter] satisfies: a
    pending timer is the one the cleanup will clear, and the highlight is
    on while it is pending. *)
Definition tidy (m : Presenter) : Prop :=
  timers m = [] \/
  exists t, timers m = [t] /\ cleanup m = Some t /\ isUpdating m = true.

(** ** Properties *)

Lemma Key_eqb_eq (a b : Key) : Key_eqb a b = true <-> a = b.
Proof.
  destruct a as [s|n], b as [t|m]; simpl.
  - rewrite String.eqb_eq. split; congruence.
  - split; discriminate.
  - split; discriminate.
  - rewrite Z.eqb_eq. split; congruence.
Qed.

Lemma Key_eqb_refl (a : Key) : Key_eqb a a = true.
Proof. now apply Key_eqb_eq. Qed.

Lemma Key_eqb_neq (a b : Key) : Key_eqb a b = false <-> a <> b.
Proof.
  rewrite <- Key_eqb_eq. destruct (Key_eqb a b); split; congruence.
Qed.

Lemma nonempty_false (s : string) : nonempty s = false <-> s = "".
Proof.
  unfold nonempty. destruct s; simpl; split; intro H;
    reflexivity || discriminate.
Qed.

Lemma effect_refs (r : Refs) (p : Props) :
  prevKeyRef (fst (effect r p)) = Some (key p) /\
  prevContentRef (fst (effect r p)) = content p.
Proof.
  unfold effect, keyChanged.
  destruct (prevKeyRef r) as [k'|] eqn:Ek; simpl.
  - destruct (Key_eqb k' (key p)) eqn:E; simpl.
    + apply Key_eqb_eq in E. subst k'.
      destruct (negb (animatedRef r) && _ && _); simpl; auto.
    + destruct (_ && negb _); simpl; auto.
  - destruct (_ && negb _); simpl; auto.
Qed.

(** The signal fires only on the step from no text to some text. *)
Lemma effect_fires (r : Refs) (p : Props) :
  snd (effect r p) = true ->
  nonempty (prevContentRef r) = false /\ nonempty (content p) = true.
Proof.
  unfold effect, nonempty.
  destruct (negb _ && (0 <? String.length (content p))%nat
            && negb (0 <? String.length (prevContentRef r))%nat) eqn:E;
    simpl; [intros _ | discriminate].
  apply andb_prop in E as [E1 E3]. apply andb_prop in E1 as [_ E2].
  apply negb_true_iff in E3. auto.
Qed.

Lemma render_fires (i : Instance) (p : Props) :
  snd (render i p) = true ->
  nonempty (prevContentRef (refs i)) = false /\ nonempty (content p) = true.
Proof.
  unfold render. destruct (deps_changed (deps i) p).
  - destruct (effect (refs i) p) as [r f] eqn:E. simpl. intros ->.
    apply (effect_fires (refs i) p). now rewrite E.
  - simpl. discriminate.
Qed.

Lemma consistent_mount : consistent mount.
Proof. reflexivity. Qed.

Lemma consistent_render (i : Instance) (p : Props) :
  consistent i -> consistent (fst (render i p)).
Proof.
  intros Hi. unfold render. destruct (deps_changed (deps i) p); [|exact Hi].
  destruct (effect (refs i) p) as [r f] eqn:E. unfold consistent. simpl.
  pose proof (effect_refs (refs i) p) as H. now rewrite E in H.
Qed.

Lemma consistent_after (ps : list Props) (i : Instance) :
  consistent i -> consistent (after i ps).
Proof.
  revert i. induction ps as [|p ps IH]; intros i Hi; simpl; [exact Hi|].
  apply IH, consistent_render, Hi.
Qed.

(** After a render the refs hold the identity and the text just rendered,
    whether the effect ran or was skipped. *)
Lemma render_refs (i : Instance) (p : Props) :
  consistent i ->
  prevKeyRef (refs (fst (render i p))) = Some (key p) /\
  prevContentRef (refs (fst (render i p))) = content p.
Proof.
  intros Hi. unfold render, deps_changed. unfold consistent in Hi.
  destruct (deps i) as [[k c]|] eqn:Ed.
  - destruct (Key_eqb k (key p) && String.eqb c (content p)) eqn:E; simpl.
    + apply andb_prop in E as [E1 E2].
      apply Key_eqb_eq in E1. apply String.eqb_eq in E2.
      destruct Hi as [Hk Hc]. subst. auto.
    + destruct (effect (refs i) p) as [r f] eqn:E'. simpl.
      pose proof (effect_refs (refs i) p) as H. now rewrite E' in H.
  - destruct (effect (refs i) p) as [r f] eqn:E'. simpl.
    pose proof (effect_refs (refs i) p) as H. now rewrite E' in H.
Qed.

Lemma after_app (ps qs : list Props) (i : Instance) :
  after i (ps ++ qs) = after (after i ps) qs.
Proof.
  revert i. induction ps as [|p ps IH]; intros i; simpl; [reflexivity|].
  apply IH.
Qed.

Lemma fires_from_app (ps qs : list Props) (i : Instance) :
  fires_from i (ps ++ qs) = fires_from i ps ++ fires_from (after i ps) qs.
Proof.
  revert i. induction ps as [|p ps IH]; intros i; simpl; [reflexivity|].
  now rewrite IH.
Qed.

Lemma fires_from_length (ps : list Props) (i : Instance) :
  List.length (fires_from i ps) = List.length ps.
Proof.
  revert i. induction ps as [|p ps IH]; intros i; simpl; [reflexivity|].
  now rewrite IH.
Qed.

Lemma after_refs (ps : list Props) :
  prevContentRef (refs (after mount ps)) = last_content ps /\
  prevKeyRef (refs (after mount ps)) = last_key ps.
Proof.
  induction ps as [|p ps _] using rev_ind.
  - split; reflexivity.
  - rewrite after_app. unfold last_content, last_key.
    rewrite rev_app_distr. simpl.
    destruct (render_refs (after mount ps) p
                (consistent_after ps mount consistent_mount)) as [Hk Hc].
    auto.
Qed.

(** What one render does to the signal and to [animatedRef], whether the
    effect ran or was skipped. *)
Lemma render_spec (i : Instance) (p : Props) :
  consistent i ->
  let animated :=
    if keyChanged (refs i) (key p) then false else animatedRef (refs i) in
  snd (render i p) =
    negb animated && nonempty (content p)
    && negb (nonempty (prevContentRef (refs i))) /\
  animatedRef (refs (fst (render i p))) = animated || snd (render i p).
Proof.
  intros Hi. unfold render, deps_changed. unfold consistent in Hi.
  assert (Heff :
    let animated :=
      if keyChanged (refs i) (key p) then false else animatedRef (refs i) in
    snd (effect (refs i) p) =
      negb animated && nonempty (content p)
      && negb (nonempty (prevContentRef (refs i))) /\
    animatedRef (fst (effect (refs i) p))
    = animated || snd (effect (refs i) p)).
  { unfold effect, nonempty. simpl.
    destruct (keyChanged (refs i) (key p)); simpl.
    - destruct ((0 <? String.length (content p))%nat
                && negb (0 <? String.length (prevContentRef (refs i)))%nat);
        simpl; auto.
    - destruct (negb (animatedRef (refs i))
                && (0 <? String.length (content p))%nat
                && negb (0 <? String.length (prevContentRef (refs i)))%nat)
        eqn:E; simpl; rewrite ?orb_true_r, ?orb_false_r; auto. }
  destruct (deps i) as [[k c]|] eqn:Ed.
  - destruct (Key_eqb k (key p) && String.eqb c (content p)) eqn:E; simpl.
    + apply andb_prop in E as [E1 E2].
      apply Key_eqb_eq in E1. apply String.eqb_eq in E2.
      destruct Hi as [Hk Hc]. unfold keyChanged. rewrite Hk, Hc, E1, E2.
      rewrite Key_eqb_refl. simpl.
      destruct (animatedRef (refs i)), (nonempty (content p)); auto.
    + destruct (effect (refs i) p) as [r f] eqn:E'. simpl in *. exact Heff.
  - destruct (effect (refs i) p) as [r f] eqn:E'. simpl in *. exact Heff.
Qed.

(** Once the signal has fired for the identity being shown, no later
    render of that identity fires it. *)
Lemma quiet_once_animated (k : Key) (blk : list Props) :
  forall i, consistent i ->
    prevKeyRef (refs i) = Some k -> animatedRef (refs i) = true ->
    Forall (fun p => key p = k) blk ->
    fires_from i blk = repeat false (List.length blk).
Proof.
  induction blk as [|p blk IH]; intros i Hi Hk Ha Hall; [reflexivity|].
  inversion Hall as [|? ? Hp Hall']; subst. simpl.
  destruct (render_spec i p Hi) as [Hf Han].
  destruct (render_refs i p Hi) as [Hk' _].
  unfold keyChanged in Hf, Han. rewrite Hk, Key_eqb_refl in Hf, Han.
  simpl in Hf, Han. rewrite Ha in Hf, Han. simpl in Hf, Han.
  rewrite Hf. f_equal.
  apply IH; auto using consistent_render.
Qed.

Lemma count_occ_repeat_false (n : nat) :
  count_occ bool_dec (repeat false n) true = 0.
Proof. induction n; simpl; auto. Qed.

Lemma at_most_one_per_block (k : Key) (blk : list Props) :
  forall i, consistent i ->
    Forall (fun p => key p = k) blk ->
    count_occ bool_dec (fires_from i blk) true <= 1.
Proof.
  induction blk as [|p blk IH]; intros i Hi Hall; simpl; [lia|].
  inversion Hall as [|? ? Hp Hall']; subst.
  destruct (render_spec i p Hi) as [_ Han].
  destruct (render_refs i p Hi) as [Hk' _].
  destruct (snd (render i p)) eqn:Ef.
  - rewrite orb_true_r in Han.
    rewrite (quiet_once_animated (key p) blk (fst (render i p)));
      auto using consistent_render.
    destruct (bool_dec true true); [|congruence].
    rewrite count_occ_repeat_false. lia.
  - destruct (bool_dec false true); [discriminate|].
    apply IH; auto using consistent_render.
Qed.

(** An identity that starts to be shown over empty text gets the signal
    at its first render with text, and only there. *)
Lemma first_text_fires (k : Key) (blk : list Props) :
  forall i, consistent i ->
    prevContentRef (refs i) = "" ->
    prevKeyRef (refs i) <> Some k \/ animatedRef (refs i) = false ->
    Forall (fun p => key p = k) blk ->
    fires_from i blk = first_text_trace blk.
Proof.
  induction blk as [|p blk IH]; intros i Hi Hc Hfresh Hall; [reflexivity|].
  inversion Hall as [|? ? Hp Hall']; subst. simpl.
  destruct (render_spec i p Hi) as [Hf Han].
  destruct (render_refs i p Hi) as [Hk' Hc'].
  assert (Ha0 : (if keyChanged (refs i) (key p)
                 then false else animatedRef (refs i)) = false).
  { unfold keyChanged. destruct (prevKeyRef (refs i)) as [k'|] eqn:Ek; auto.
    destruct (Key_eqb k' (key p)) eqn:E; simpl; auto.
    apply Key_eqb_eq in E. subst k'. destruct Hfresh; congruence. }
  rewrite Ha0 in Hf, Han. rewrite Hc in Hf. simpl in Hf, Han.
  rewrite andb_true_r in Hf. rewrite Hf.
  destruct (nonempty (content p)) eqn:En.
  - f_equal. rewrite Hf in Han.
    apply (quiet_once_animated (key p)); auto using consistent_render.
  - f_equal. apply IH; auto using consistent_render.
    + rewrite Hc'. now apply nonempty_false.
    + right. now rewrite Han, Hf.
Qed.

(** ** The claims about the presenter *)

(** C2, as the specification words it, fails.  Two sequences of renders
    of one mounted presenter show it: identity 2 arrives with text right
    after identity 1 showed text, and the signal never fires for it; and
    identity 1 comes back after identity 2 was shown without text, and the
    signal fires for it a second time. *)
Lemma appearance_once_fails :
  ~ appearance_once [mkProps "a" (Some (KNum 1)); mkProps "b" (Some (KNum 2))]
  /\
  ~ appearance_once [mkProps "a" (Some (KNum 1)); mkProps "" (Some (KNum 2));
                     mkProps "b" (Some (KNum 1))].
Proof.
  split; intros H.
  - specialize (H (KNum 2) 1 eq_refl). vm_compute in H. discriminate.
  - specialize (H (KNum 1) 0 eq_refl). vm_compute in H. discriminate.
Qed.

(** C2 (amended).  Take any history [pre] of renders of a mounted
    presenter and any run [blk] of consecutive renders that all carry the
    identity [k].  Within the run the appearance signal fires at most
    once.  When the run starts over empty text with another identity (or
    none) rendered before, the signal fires exactly at the first render of
    the run that has text and at no other render of the run, however the
    text grows or is edited afterwards.  For the texts "a", "ab", "abc" of
    one identity on a fresh presenter the trace is: fired, quiet, quiet. *)
Theorem appearance_once_per_run (pre blk : list Props) (k : Key) :
  Forall (fun p => key p = k) blk ->
  count_occ bool_dec (fires_from (after mount pre) blk) true <= 1 /\
  (last_content pre = "" -> last_key pre <> Some k ->
   fires_from (after mount pre) blk = first_text_trace blk) /\
  fires (pre ++ blk) = fires pre ++ fires_from (after mount pre) blk /\
  fires [mkProps "a" (Some k); mkProps "ab" (Some k); mkProps "abc" (Some k)]
  = [true; false; false].
Proof.
  intros Hall.
  assert (Hc : consistent (after mount pre))
    by apply consistent_after, consistent_mount.
  destruct (after_refs pre) as [Hlc Hlk].
  repeat split.
  - now apply (at_most_one_per_block k).
  - intros He Hk. apply (first_text_fires k); auto.
    + now rewrite Hlc.
    + left. now rewrite Hlk.
  - apply fires_from_app.
  - unfold fires. rewrite (first_text_fires k).
    + reflexivity.
    + apply consistent_mount.
    + reflexivity.
    + left. discriminate.
    + repeat constructor.
Qed.

Lemma appearance_once_per_run_witness :
  Forall (fun p => key p = KNum 2)
         [mkProps "" (Some (KNum 2)); mkProps "a" (Some (KNum 2));
          mkProps "ab" (Some (KNum 2))] /\
  fires_from (after mount [mkProps "x" (Some (KNum 1));
                           mkProps "" (Some (KNum 1))])
             [mkProps "" (Some (KNum 2)); mkProps "a" (Some (KNum 2));
              mkProps "ab" (Some (KNum 2))]
  = [false; true; false].
Proof.
  split.
  - repeat constructor.
  - apply (appearance_once_per_run
             [mkProps "x" (Some (KNum 1)); mkProps "" (Some (KNum 1))]
             [mkProps "" (Some (KNum 2)); mkProps "a" (Some (KNum 2));
              mkProps "ab" (Some (KNum 2))] (KNum 2)).
    + repeat constructor.
    + reflexivity.
    + simpl. discriminate.
Defined.

(** C10.  For every sequence of renders, whatever the identities, the
    appearance signal fires at a render only if the text rendered just
    before it (by whichever identity) was empty and the text of this
    render is not: a render that follows non-empty text never fires. *)
Theorem fires_only_after_empty (pre post : list Props) (p : Props) :
  nth (List.length pre) (fires (pre ++ p :: post)) false = true ->
  last_content pre = "" /\ nonempty (content p) = true.
Proof.
  unfold fires. rewrite fires_from_app, app_nth2;
    rewrite fires_from_length; [|lia].
  rewrite Nat.sub_diag. simpl. intros Hf.
  apply render_fires in Hf as [Hprev Hnow].
  destruct (after_refs pre) as [Hlc _]. rewrite Hlc in Hprev.
  split; [now apply nonempty_false | exact Hnow].
Qed.

Lemma fires_only_after_empty_witness :
  last_content [mkProps "x" (Some (KNum 1)); mkProps "" (Some (KNum 2))] = ""
  /\ nonempty (content (mkProps "y" (Some (KNum 2)))) = true.
Proof.
  apply (fires_only_after_empty
           [mkProps "x" (Some (KNum 1)); mkProps "" (Some (KNum 2))]
           [mkProps "yz" (Some (KNum 2))]
           (mkProps "y" (Some (KNum 2)))).
  reflexivity.
Defined.

(** ** More properties of the presenter *)

Lemma unkeyed_fires_from (ps : list Props) :
  forall i, consistent i ->
    prevKeyRef (refs i) = None \/
    prevKeyRef (refs i) = Some (KStr (prevContentRef (refs i))) ->
    Forall (fun p => animateKey p = None) ps ->
    fires_from i ps = appearances_from (prevContentRef (refs i)) ps.
Proof.
  induction ps as [|p ps IH]; intros i Hi Hk Hall; [reflexivity|].
  inversion Hall as [|? ? Hp Hall']; subst. cbn [fires_from appearances_from].
  destruct (render_spec i p Hi) as [Hf _].
  destruct (render_refs i p Hi) as [Hk' Hc'].
  assert (Ekey : key p = KStr (content p)) by (unfold key; now rewrite Hp).
  f_equal.
  - rewrite Hf.
    destruct (nonempty (content p)) eqn:En;
      [|now rewrite andb_false_r].
    destruct (nonempty (prevContentRef (refs i))) eqn:Ep;
      [now rewrite andb_false_r|].
    apply nonempty_false in Ep.
    assert (Hch : keyChanged (refs i) (key p) = true).
    { unfold keyChanged. destruct Hk as [-> | ->]; [reflexivity|].
      rewrite Ekey, Ep. cbn [Key_eqb].
      destruct (content p); [discriminate | reflexivity]. }
    now rewrite Hch.
  - rewrite <- Hc'. apply IH; auto using consistent_render.
    right. now rewrite Hk', Hc', Ekey.
Qed.

(** X1.  Without an [animateKey] the text is its own identity, and the signal
    fires exactly at the renders where the text goes from empty to
    non-empty: at each of them, and at no other render. *)
Theorem unkeyed_fires_on_appearance (ps : list Props) :
  Forall (fun p => animateKey p = None) ps ->
  fires ps = appearances_from "" ps.
Proof.
  intros Hall. unfold fires.
  apply (unkeyed_fires_from ps mount consistent_mount); [now left | exact Hall].
Qed.

Lemma unkeyed_fires_on_appearance_witness :
  fires [mkProps "" None; mkProps "a" None; mkProps "ab" None;
         mkProps "" None; mkProps "b" None]
  = [false; true; false; false; true].
Proof.
  apply (unkeyed_fires_on_appearance
           [mkProps "" None; mkProps "a" None; mkProps "ab" None;
            mkProps "" None; mkProps "b" None]).
  repeat constructor.
Defined.

Lemma render_changed (i : Instance) (p : Props) :
  deps_changed (deps i) p = true ->
  deps (fst (render i p)) = Some (key p, content p) /\
  prevContentRef (refs (fst (render i p))) = content p.
Proof.
  intros Hd. unfold render. rewrite Hd.
  pose proof (effect_refs (refs i) p) as [_ H].
  destruct (effect (refs i) p) as [r f]. now split.
Qed.

Lemma render_fires_changed (i : Instance) (p : Props) :
  snd (render i p) = true -> deps_changed (deps i) p = true.
Proof.
  unfold render. destruct (deps_changed (deps i) p); [reflexivity|].
  discriminate.
Qed.

Lemma run_app (es fs : list Event) (m : Presenter) :
  run m (es ++ fs) = run (run m es) fs.
Proof. unfold run. apply fold_left_app. Qed.

Lemma clearTimeout_single (t : nat) : clearTimeout t [t] = [].
Proof.
  unfold clearTimeout. cbn [remove].
  destruct (Nat.eq_dec t t); congruence.
Qed.

Lemma run_cleanup_tidy (m : Presenter) : tidy m -> run_cleanup m = [].
Proof.
  unfold run_cleanup. intros [Ht | (t & Ht & Hc & _)].
  - rewrite Ht. now destruct (cleanup m).
  - rewrite Ht, Hc. apply clearTimeout_single.
Qed.

Lemma tidy_step (m : Presenter) (e : Event) : tidy m -> tidy (step m e).
Proof.
  intros Hm. destruct e as [p|t]; cbn [step].
  - destruct (deps_changed (deps (instance m)) p); [|exact Hm].
    rewrite (run_cleanup_tidy m Hm).
    destruct (render (instance m) p) as [i [|]].
    + right. exists (next_timer m). cbn. auto.
    + now left.
  - destruct (existsb (Nat.eqb t) (timers m)) eqn:E; [|exact Hm].
    left. cbn [timers].
    destruct Hm as [Ht | (t' & Ht & _)]; rewrite Ht in *; [discriminate|].
    cbn [existsb] in E. rewrite orb_false_r in E. apply Nat.eqb_eq in E.
    subst t'. apply clearTimeout_single.
Qed.

Lemma tidy_run (es : list Event) : forall m, tidy m -> tidy (run m es).
Proof.
  induction es as [|e es IH]; intros m Hm; [exact Hm|].
  change (run m (e :: es)) with (run (step m e) es).
  apply IH, tidy_step, Hm.
Qed.

(** With no timer pending and text on the screen, the highlight stays as
    long as the text does not become empty. *)
Lemma highlight_stays (es : list Event) :
  forall m,
    isUpdating m = true -> timers m = [] ->
    nonempty (prevContentRef (refs (instance m))) = true ->
    text_stays es ->
    isUpdating (run m es) = true /\ timers (run m es) = [].
Proof.
  induction es as [|e es IH]; intros m Hu Ht Hc Hall; [now split|].
  inversion Hall as [|? ? He Hall']; subst.
  change (run m (e :: es)) with (run (step m e) es).
  destruct e as [p|t]; cbn [step].
  - destruct (deps_changed (deps (instance m)) p) eqn:Ed; [|now apply IH].
    destruct (render (instance m) p) as [i fired] eqn:Er.
    assert (Hfired : fired = false).
    { destruct fired; [|reflexivity].
      destruct (render_fires (instance m) p) as [Hprev _];
        [now rewrite Er|congruence]. }
    subst fired.
    assert (Hi : prevContentRef (refs i) = content p).
    { destruct (render_changed (instance m) p Ed) as [_ H].
      now rewrite Er in H. }
    apply IH; cbn [isUpdating timers instance]; auto.
    + unfold run_cleanup. rewrite Ht. now destruct (cleanup m).
    + now rewrite Hi.
  - rewrite Ht. cbn [existsb]. now apply IH.
Qed.

(** X2.  The timer is cancelled by the next change: when the signal fires at
    a render with [p] and a render with another key or text follows
    before the timer elapses, the highlight is never taken back while the
    text stays non-empty, although the timer of an undisturbed render
    takes it back. *)
Theorem highlight_kept_by_early_change (pre es : list Event) (p q : Props) :
  let m := run mount_presenter pre in
  snd (render (instance m) p) = true ->
  deps_changed (Some (key p, content p)) q = true ->
  nonempty (content q) = true ->
  text_stays es ->
  isUpdating (run mount_presenter (pre ++ Render p :: Render q :: es)) = true
  /\
  isUpdating
    (run mount_presenter (pre ++ [Render p; Elapse (next_timer m)])) = false.
Proof.
  intros m Hf Hd Hq Hes. rewrite !run_app. fold m.
  assert (Hm : tidy m) by (apply tidy_run; now left).
  pose proof (render_fires_changed _ _ Hf) as Hch.
  destruct (render_changed (instance m) p Hch) as [Hdeps Hprev].
  assert (Hstep : step m (Render p)
                  = {| instance := fst (render (instance m) p);
                       isUpdating := true; timers := [next_timer m];
                       cleanup := Some (next_timer m);
                       next_timer := S (next_timer m) |}).
  { cbn [step]. rewrite Hch.
    destruct (render (instance m) p) as [i f]. cbn [snd fst] in *.
    subst f. now rewrite (run_cleanup_tidy m Hm). }
  destruct (render_fires _ _ Hf) as [_ Hp].
  split.
  - change (run m (Render p :: Render q :: es))
      with (run (step (step m (Render p)) (Render q)) es).
    rewrite Hstep. cbn [step instance]. rewrite Hdeps, Hd.
    destruct (render (fst (render (instance m) p)) q) as [i fired] eqn:Er.
    assert (Hfired : fired = false).
    { destruct fired; [|reflexivity].
      destruct (render_fires (fst (render (instance m) p)) q) as [Hprev' _];
        [now rewrite Er|]. rewrite Hprev in Hprev'. congruence. }
    subst fired. unfold run_cleanup. cbn [cleanup isUpdating timers].
    apply highlight_stays; cbn [isUpdating timers instance]; auto.
    + unfold clearTimeout. cbn [remove].
      destruct (Nat.eq_dec (next_timer m) (next_timer m)); congruence.
    + assert (Hd' : deps_changed (deps (fst (render (instance m) p))) q
                    = true) by now rewrite Hdeps.
      destruct (render_changed _ q Hd') as [_ H].
      rewrite Er in H. cbn [fst] in H. now rewrite H.
  - change (run m [Render p; Elapse (next_timer m)])
      with (step (step m (Render p)) (Elapse (next_timer m))).
    rewrite Hstep. cbn [step timers existsb]. now rewrite Nat.eqb_refl.
Qed.

Lemma highlight_kept_by_early_change_witness :
  isUpdating
    (run mount_presenter
         ([Render (mkProps "" (Some (KNum 7)))]
          ++ Render (mkProps "a" (Some (KNum 7)))
          :: Render (mkProps "ab" (Some (KNum 7)))
          :: [Render (mkProps "abc" (Some (KNum 7))); Elapse 0; Elapse 1]))
  = true /\
  isUpdating
    (run mount_presenter
         ([Render (mkProps "" (Some (KNum 7)))]
          ++ [Render (mkProps "a" (Some (KNum 7))); Elapse 0]))
  = false.
Proof.
  apply (highlight_kept_by_early_change
           [Render (mkProps "" (Some (KNum 7)))]
           [Render (mkProps "abc" (Some (KNum 7))); Elapse 0; Elapse 1]
           (mkProps "a" (Some (KNum 7))) (mkProps "ab" (Some (KNum 7)))).
  - reflexivity.
  - reflexivity.
  - reflexivity.
  - repeat constructor.
Defined.

(** X3.  Timers do not pile up and do not outlive the presenter: after any
    sequence of renders and elapsing timers at most one timer is pending,
    the highlight is on while one is pending, and unmounting clears
    it. *)
Theorem at_most_one_timer (es : list Event) :
  let m := run mount_presenter es in
  (List.length (timers m) <= 1)%nat /\
  (timers m <> [] -> isUpdating m = true) /\
  unmount m = [].
Proof.
  intros m.
  assert (Hm : tidy m) by (apply tidy_run; now left).
  split; [|split].
  - destruct Hm as [-> | (t & -> & _)]; simpl; lia.
  - intros Hne. destruct Hm as [Ht | (t & _ & _ & Hu)]; congruence.
  - now apply run_cleanup_tidy.
Qed.

(** The highlight of a streamed text on a fresh presenter: the second
    token cancels the timer of the first, and nothing takes the highlight
    back. *)
Example streamed_text_keeps_highlight :
  let m := run mount_presenter
             [Render (mkProps "a" (Some (KNum 1)));
              Render (mkProps "ab" (Some (KNum 1)));
              Elapse 0] in
  isUpdating m = true /\ timers m = [].
Proof. split; reflexivity. Qed.

End StreamingMarkdown.

(* ================================================================== *)
(** * FindingsRail.tsx *)
(* ================================================================== *)

Module FindingsRail.

Import JS.

Local Open Scope string_scope.
Local Open Scope list_scope.
Local Open Scope Z_scope.

(** [l.map((v, idx) => f idx v)] *)
Fixpoint mapi_from {A B : Type} (i : Z) (f : Z -> A -> B) (l : list A)
  : list B :=
  match l with
  | [] => []
  | v :: l' => f i v :: mapi_from (i + 1) f l'
  end.

Definition mapi {A B : Type} (f : Z -> A -> B) (l : list A) : list B :=
  mapi_from 0 f l.

(** [l[i]], [None] for [undefined]. *)
Definition at_index {A : Type} (l : list A) (i : Z) : option A :=
  if i <? 0 then None else nth_error l (Z.to_nat i).

(** [Array.prototype.sort(comparefn)].  ECMA-262 leaves the algorithm
    to the engine and requires the sort to be stable; for a consistent
    comparator the result is then determined ([Array_sort_unique] below
    shows it for the comparator of the rail).  It is computed here by
    insertion from the right: an element goes before the first element it
    does not have to follow. *)
Fixpoint sort_insert {A : Type} (comparefn : A -> A -> Z) (a : A) (l : list A)
  : list A :=
  match l with
  | [] => [a]
  | b :: l' =>
      if comparefn a b <=? 0 then a :: b :: l'
      else b :: sort_insert comparefn a l'
  end.

Definition Array_sort {A : Type} (comparefn : A -> A -> Z) (l : list A)
  : list A :=
  fold_right (sort_insert comparefn) [] l.

(** ** MiniChart *)

Definition width : Z := 260.
Definition height : Z := 140.

Record Padding : Type := { top : Z; right : Z; bottom : Z; left : Z }.

Definition padding : Padding :=
  {| top := 14; right := 10; bottom := 28; left := 46 |}.

Definition innerWidth : Z := width - left padding - right padding.
Definition innerHeight : Z := height - top padding - bottom padding.

Definition maxTicks : Z := 4.

(** [Math.ceil(a / b)] for a length [a] and [b > 0]. *)
Definition ceil_div (a b : Z) : Z := - ((- a) / b).

Section Components.

Context {N : Type} `{Number N}.

(** Modelled from the spec: the type [ChartSpec] of [lib/api], which is
    not among the sources: "{title?, type: line|bar, labels?: ordered
    sequence of string, series: ordered sequence of {name?, values:
    ordered sequence of number}}".  A [None] stands for a field that is
    absent (or, for [values] and [labels], not an array), which the
    component guards against. *)
Record ChartSeries : Type := {
  name : option string;
  values : option (list N)
}.

Record ChartSpec : Type := {
  title : option string;
  type : string;
  labels : option (list string);
  series : option (list ChartSeries)
}.

(** [chart.series?.[0]] *)
Definition first_series (chart : ChartSpec) : option ChartSeries :=
  match series chart with
  | Some (s :: _) => Some s
  | _ => None
  end.

(** [s || d] for an optional string: absent and empty are falsy. *)
Definition or_default (s : option string) (d : string) : string :=
  match s with
  | Some (String c r) => String c r
  | _ => d
  end.

(** Lines 33-41. *)
Definition formatNumber (val : N) : option string :=
  let abs := Math_abs val in
  if geb abs (of_Z 1000000000)
  then option_map (fun s => (s ++ "b")%string)
                  (toFixed (div val (of_Z 1000000000)) 1)
  else if geb abs (of_Z 1000000)
  then option_map (fun s => (s ++ "m")%string)
                  (toFixed (div val (of_Z 1000000)) 1)
  else if geb abs (of_Z 1000)
  then option_map (fun s => (s ++ "k")%string)
                  (toFixed (div val (of_Z 1000)) 1)
  else if geb abs (of_Z 100) then toFixed val 0
  else if geb abs (of_Z 1) then toFixed val 2
  else Some (toPrecision val 2).

(** [max - min || 1] (line 28). *)
Definition span_of (min max : N) : N :=
  let d := sub max min in
  if truthy d then d else of_Z 1.

(** The horizontal position of index [i] among [n] positions (lines 44,
    60 and 66): [padding.left + (i / Math.max(n - 1, 1)) * innerWidth]. *)
Definition x_of (n i : Z) : N :=
  add (of_Z (left padding))
      (mul (div (of_Z i) (of_Z (Z.max (n - 1) 1))) (of_Z innerWidth)).

(** The vertical position of a value (lines 45 and 125):
    [padding.top + (1 - (v - min) / span) * innerHeight]. *)
Definition y_of (min span v : N) : N :=
  add (of_Z (top padding))
      (mul (sub (of_Z 1) (div (sub v min) span)) (of_Z innerHeight)).

(** Lines 43-47.  A point stands for the text [`${x},${y}`]. *)
Definition pts_of (values : list N) (min span : N) : list (N * N) :=
  let n := Z.of_nat (List.length values) in
  mapi (fun idx v => (x_of n idx, y_of min span v)) values.

(** [`${n}`] for an index. *)
Definition ordinal (n : Z) : string :=
  if n <? 0 then ("-" ++ digits (- n))%string else digits n.

(** Lines 50-53. *)
Definition xLabels_of (chart : ChartSpec) (values : list N) : list string :=
  match labels chart with
  | Some ls =>
      if (List.length ls =? List.length values)%nat then ls
      else mapi (fun idx _ => ordinal (idx + 1)) values
  | None => mapi (fun idx _ => ordinal (idx + 1)) values
  end.

Record XTick : Type := { idx : Z; label : option string; x : N }.

Definition tick_at (xLabels : list string) (i : Z) : XTick :=
  {| idx := i;
     label := at_index xLabels i;
     x := x_of (Z.of_nat (List.length xLabels)) i |}.

(** The loop of lines 59-62, [for (let i = 0; i < xLabels.length;
    i += step)], unrolled [fuel] times. *)
Fixpoint xTicks_loop (fuel : nat) (xLabels : list string) (step : Z)
    (i : Z) (ticks : list XTick) : list XTick :=
  match fuel with
  | O => ticks
  | S fuel' =>
      if i <? Z.of_nat (List.length xLabels)
      then xTicks_loop fuel' xLabels step (i + step)
                       (ticks ++ [tick_at xLabels i])
      else ticks
  end.

(** Lines 55-70.  As [step >= 1], the loop ends within
    [xLabels.length] rounds. *)
Definition xTicks_of (xLabels : list string) : list XTick :=
  let n := Z.of_nat (List.length xLabels) in
  let step := Z.max 1 (ceil_div n maxTicks) in
  let ticks := xTicks_loop (List.length xLabels) xLabels step 0 [] in
  let last_idx :=
    at_index (map idx ticks) (Z.of_nat (List.length ticks) - 1) in
  match last_idx with
  | Some j => if j =? n - 1 then ticks else ticks ++ [tick_at xLabels (n - 1)]
  | None => ticks ++ [tick_at xLabels (n - 1)]
  end.

Record YTick : Type := { value : N; y : N; text : option string }.

(** Lines 72-75, with the text drawn at line 107. *)
Definition yTicks_of (min span : N) : list YTick :=
  map (fun t =>
         let value := add min (mul span t) in
         {| value := value;
            y := add (of_Z (top padding))
                     (mul (sub (of_Z 1) t) (of_Z innerHeight));
            text := formatNumber value |})
      [of_Z 0; div (of_Z 1) (of_Z 2); of_Z 1].

(** The bar of one value: the locals of lines 123-126 and the [rect] drawn
    from them. *)
Record Bar : Type := {
  bar_x : N;          (* [x], the centre of the bar *)
  bar_y : N;          (* [y] *)
  barWidth : N;
  bar_h : N;          (* [h] *)
  rect_x : N          (* [x - barWidth / 2] *)
}.

Definition bars_of (values : list N) (min span : N) : list Bar :=
  let n := Z.of_nat (List.length values) in
  mapi (fun idx v =>
          let barWidth :=
            div (of_Z innerWidth)
                (max2 (mul (of_Z n) (div (of_Z 14) (of_Z 10))) (of_Z 1)) in
          let x :=
            add (of_Z (left padding))
                (mul (of_Z idx)
                     (div (of_Z innerWidth) (of_Z (Z.max (n - 1) 1)))) in
          let y := y_of min span v in
          let h := sub (of_Z (height - bottom padding)) y in
          {| bar_x := x; bar_y := y; barWidth := barWidth; bar_h := h;
             rect_x := sub x (div barWidth (of_Z 2)) |})
       values.

Inductive Marks : Type :=
| Bars (rects : list Bar)
| Polyline (points : list (N * N)).

(** What the component draws. *)
Record Chart : Type := {
  heading : string;             (* [chart.title || "Signal"] *)
  legend : string;              (* [series.name || "metric"] *)
  grid : list YTick;            (* grid lines and y-axis labels *)
  axis : list XTick;            (* x-axis labels *)
  marks : Marks
}.

(** Lines 20-24: the values that are drawn, [None] where the component
    returns [null].  The values are numbers, on which [Number(v)] is the
    identity. *)
Definition drawn_values (chart : ChartSpec) : option (list N) :=
  match first_series chart with
  | None => None
  | Some series =>
      match values series with
      | None | Some [] => None
      | Some vs =>
          match filter isFinite vs with
          | [] => None
          | values => Some values
          end
      end
  end.

(** The component (lines 15-152): [None] is [null], no chart. *)
Definition MiniChart (chart : ChartSpec) : option Chart :=
  match first_series chart, drawn_values chart with
  | Some series, Some values =>
      let min := Math_min values in
      let max := Math_max values in
      let span := span_of min max in
      let pts := pts_of values min span in
      let xLabels := xLabels_of chart values in
      let xTicks := xTicks_of xLabels in
      let yTicks := yTicks_of min span in
      let bars := String.eqb (type chart) "bar" in
      Some {| heading := or_default (title chart) "Signal";
              legend := or_default (name series) "metric";
              grid := yTicks;
              axis := xTicks;
              marks := if bars then Bars (bars_of values min span)
                       else Polyline pts |}
  | _, _ => None
  end.

(** ** FindingsRail *)

(** Modelled from the spec: the types [AgentInsight] and [AgentState] of
    [lib/useExperiment], which is not among the sources.  An insight is
    the event "{runId, seq, id, summary, timestamp, chart?}"; an agent
    snapshot is "{id, gpu?, status, thoughts, insights, lastSeqApplied}",
    of which the rail reads [id], [gpu] and [insights].  A timestamp is a
    count of milliseconds, an integer. *)
Record AgentInsight : Type := {
  runId : string;
  seq : Z;
  id : string;
  summary : string;
  timestamp : Z;
  chart : option ChartSpec
}.

Record AgentState : Type := {
  agent_id : string;                      (* [agent.id] *)
  agent_gpu : option string;              (* [agent.gpu] *)
  insights : option (list AgentInsight)   (* [None]: absent *)
}.

(** [type InsightWithAgent = AgentInsight & { agentId; gpu? }], built by
    [{ ...insight, agentId: agent.id, gpu: agent.gpu }]. *)
Record InsightWithAgent : Type := {
  insight : AgentInsight;
  agentId : string;
  gpu : option string
}.

(** [agents: Record<string, AgentState>]: the entries of the object in the
    order in which [Object.values] enumerates them. *)
Definition Agents : Type := list (string * AgentState).

Definition Object_values (agents : Agents) : list AgentState :=
  map snd agents.

(** [(agent.insights || []).map(insight => ({...}))] *)
Definition with_agent (agent : AgentState) : list InsightWithAgent :=
  map (fun i => {| insight := i; agentId := agent_id agent;
                   gpu := agent_gpu agent |})
      match insights agent with
      | Some l => l
      | None => []
      end.

(** [Object.values(agents).flatMap(...)] *)
Definition all_insights (agents : Agents) : list InsightWithAgent :=
  flat_map with_agent (Object_values agents).

Definition time (i : InsightWithAgent) : Z := timestamp (insight i).

(** [(a, b) => b.timestamp - a.timestamp] *)
Definition by_recency (a b : InsightWithAgent) : Z := time b - time a.

(** [slice(0, k)] for [k >= 0]. *)
Definition slice0 {A : Type} (k : nat) (l : list A) : list A := firstn k l.

(** Lines 155-158. *)
Definition rail_insights (agents : Agents) : list InsightWithAgent :=
  slice0 24 (Array_sort by_recency (all_insights agents)).

(** One card of the rail (lines 179-202). *)
Record Card : Type := {
  key : string;                   (* [key={insight.id}] *)
  card_agent : string;            (* "Agent {insight.agentId}" *)
  card_time : Z;                  (* the time shown as a distance to now *)
  card_summary : string;
  card_chart : option Chart       (* the chart drawn, if any *)
}.

(** [insight.chart && insight.chart.series?.length
       ? <MiniChart chart={insight.chart} /> : null] *)
Definition chart_of (i : InsightWithAgent) : option Chart :=
  match chart (insight i) with
  | Some c =>
      match series c with
      | Some (_ :: _) => MiniChart c
      | _ => None
      end
  | None => None
  end.

Definition card_of (i : InsightWithAgent) : Card :=
  {| key := id (insight i);
     card_agent := agentId i;
     card_time := time i;
     card_summary := summary (insight i);
     card_chart := chart_of i |}.

(** What the component returns: [<AnimatePresence>] around the rail
    [<motion.aside>] with its cards, or around nothing. *)
Inductive Element : Type :=
| AnimatePresence (aside : option (list Card)).

Definition FindingsRail (agents : Agents) : Element :=
  let insights := rail_insights agents in
  AnimatePresence
    (if (0 <? List.length insights)%nat
     then Some (map card_of insights)
     else None).

(** ** The specification's order of the rail *)

(** [(runId, seq)] of [a] is above that of [b]. *)
Definition run_seq_above (a b : InsightWithAgent) : Prop :=
  match String.compare (runId (insight a)) (runId (insight b)) with
  | Gt => True
  | Eq => seq (insight b) < seq (insight a)
  | Lt => False
  end.

(** "Strictly sorted by timestamp descending; ties broken by (runId, seq)
    descending": [a] may stand before [b]. *)
Definition spec_before (a b : InsightWithAgent) : Prop :=
  time b < time a \/ (time a = time b /\ run_seq_above a b).

End Components.

(** ** Vocabulary of the properties *)

Section Vocabulary.

Context {N : Type} `{Number N}.

(** [a] may stand before [b]: it is not older. *)
Definition not_older (a b : InsightWithAgent (N:=N)) : Prop := time b <= time a.

(** The insights of one timestamp. *)
Definition at_time (t : Z) (l : list (InsightWithAgent (N:=N)))
  : list (InsightWithAgent (N:=N)) :=
  filter (fun i => time i =? t) l.

(** The values of the first series as the spec gives them, none when the
    series or its values are missing. *)
Definition series_values (chart : ChartSpec (N:=N)) : list N :=
  match first_series chart with
  | Some s =>
      match values s with
      | Some vs => vs
      | None => []
      end
  | None => []
  end.

(** [["1"; "2"; ...]], [n] of them. *)
Definition ordinals (n : nat) : list string :=
  map (fun i => digits (Z.of_nat i)) (List.seq 1 n).

(** A chart of one unnamed series, without title or labels. *)
Definition series_chart (type : string) (vs : list N) : ChartSpec (N:=N) :=
  {| title := None; type := type; labels := None;
     series := Some [{| name := None; values := Some vs |}] |}.

(** The formatting as the specification words it: suffixes B, M and k. *)
Definition spec_formatNumber (val : N) : option string :=
  let abs := Math_abs val in
  if geb abs (of_Z 1000000000)
  then option_map (fun s => (s ++ "B")%string)
                  (toFixed (div val (of_Z 1000000000)) 1)
  else if geb abs (of_Z 1000000)
  then option_map (fun s => (s ++ "M")%string)
                  (toFixed (div val (of_Z 1000000)) 1)
  else if geb abs (of_Z 1000)
  then option_map (fun s => (s ++ "k")%string)
                  (toFixed (div val (of_Z 1000)) 1)
  else if geb abs (of_Z 100) then toFixed val 0
  else if geb abs (of_Z 1) then toFixed val 2
  else Some (toPrecision val 2).

End Vocabulary.

(** The positions [i], [i + step], ..., [k] of them. *)
Definition strides (i step : Z) (k : nat) : list Z :=
  map (fun j => i + Z.of_nat j * step) (List.seq 0 k).

(** *** In exact arithmetic *)

(** A horizontal position of the area: from [padding.left] to
    [width - padding.right]. *)
Definition across (x : exact) : Prop :=
  exists q, x = Fin q /\
    (inject_Z (left padding) <= q <= inject_Z (width - right padding))%Q.

(** A vertical position of the area: from [padding.top] to
    [height - padding.bottom]. *)
Definition down (y : exact) : Prop :=
  exists q, y = Fin q /\
    (inject_Z (top padding) <= q <= inject_Z (height - bottom padding))%Q.

(** The marks of a chart lie within the drawing area. *)
Definition marks_inside (m : Marks (N:=exact)) : Prop :=
  match m with
  | Bars rects => Forall (fun b => across (bar_x b) /\ down (bar_y b)) rects
  | Polyline points => Forall (fun p => across (fst p) /\ down (snd p)) points
  end.

(** *** On doubles *)

(** A horizontal position of the area, on doubles. *)
Definition from_left (x : binary64) : Prop :=
  binary64_isFinite x = true /\
  PrimFloat.leb (of_Z (left padding)) x = true.

Definition inside_across (x : binary64) : Prop :=
  from_left x /\ PrimFloat.leb x (of_Z (width - right padding)) = true.

Definition inside_down (y : binary64) : Prop :=
  binary64_isFinite y = true /\
  PrimFloat.leb (of_Z (top padding)) y = true /\
  PrimFloat.leb y (of_Z (height - bottom padding)) = true.

(** [width - padding.right + 2 ^ -44]: the second double above 250. *)
Definition right_slack : binary64 := 0x1.f400000000002p+7%float.

(** The horizontal position of a bar: in the area, or beyond its right
    end by at most [2 ^ -44]. *)
Definition beside (x : binary64) : Prop :=
  from_left x /\ PrimFloat.leb x right_slack = true.

Definition marks_in_area (m : Marks (N:=binary64)) : Prop :=
  match m with
  | Bars rects =>
      Forall (fun b => beside (bar_x b) /\ inside_down (bar_y b)) rects
  | Polyline points =>
      Forall (fun p => inside_across (fst p) /\ inside_down (snd p)) points
  end.

(** One agent whose two insights carry the same timestamp, emitted with
    [seq] 0 and then 1. *)
Definition tied_insight (n : Z) : AgentInsight (N:=exact) :=
  {| runId := "run-1"; seq := n; id := digits n; summary := "";
     timestamp := 100; chart := None |}.

Definition tied_agents : Agents (N:=exact) :=
  [("run-1", {| agent_id := "run-1"; agent_gpu := None;
                insights := Some [tied_insight 0; tied_insight 1] |})].

(** Four agents with one insight each, at 100, 50, 300 and 200. *)
Definition agent_at (a : string) (t : Z) : string * AgentState (N:=exact) :=
  (a, {| agent_id := a; agent_gpu := None;
         insights := Some [{| runId := a; seq := 0; id := a; summary := "";
                              timestamp := t; chart := None |}] |}).

Definition four_agents : Agents (N:=exact) :=
  [agent_at "a" 100; agent_at "b" 50; agent_at "c" 300; agent_at "d" 200].

(** Thirty agents with one insight each, at 1, 2, ..., 30. *)
Definition thirty_agents : Agents (N:=exact) :=
  map (fun k => agent_at (digits (Z.of_nat k)) (Z.of_nat k)) (List.seq 1 30).

(** A series of three values of which one is not a number, with the
    given labels. *)
Definition gapped_chart (labels : list string) : ChartSpec (N:=binary64) :=
  {| title := None; type := "line"; labels := Some labels;
     series := Some [{| name := None;
                        values := Some [1%float; PrimFloat.nan; 3%float] |}] |}.

(** The values 1, 2, ..., [n]. *)
Definition count_up (n : nat) : list binary64 :=
  map (fun k => of_Z (Z.of_nat k)) (List.seq 1 n).

(** The double nearest to 1e308. *)
Definition huge : binary64 := 0x1.1ccf385ebc8ap+1023%float.

(** The first series with only its finite values left. *)
Definition finite_only {N : Type} `{Number N} (chart : ChartSpec (N:=N))
  : ChartSpec (N:=N) :=
  match series chart with
  | Some (s :: rest) =>
      {| title := title chart; type := type chart; labels := labels chart;
         series := Some ({| name := name s;
                            values := option_map (filter isFinite)
                                                 (values s) |} :: rest) |}
  | _ => chart
  end.

(** ** Properties of the sort *)

Section Sort.

Context {A : Type} (comparefn : A -> A -> Z).

Lemma sort_insert_perm (a : A) (l : list A) :
  Permutation (sort_insert comparefn a l) (a :: l).
Proof.
  induction l as [|b l IH]; simpl; [apply Permutation_refl|].
  destruct (comparefn a b <=? 0); [apply Permutation_refl|].
  apply perm_trans with (b :: a :: l); [now apply perm_skip | apply perm_swap].
Qed.

Lemma Array_sort_perm (l : list A) : Permutation (Array_sort comparefn l) l.
Proof.
  induction l as [|a l IH]; simpl; [apply perm_nil|].
  apply perm_trans with (a :: Array_sort comparefn l);
    [apply sort_insert_perm | now apply perm_skip].
Qed.

Lemma Array_sort_length (l : list A) :
  List.length (Array_sort comparefn l) = List.length l.
Proof. apply Permutation_length, Array_sort_perm. Qed.

End Sort.

Section Rail.

Context {N : Type} `{Number N}.

Lemma sort_insert_sorted (a : InsightWithAgent (N:=N))
    (l : list (InsightWithAgent (N:=N))) :
  StronglySorted not_older l ->
  StronglySorted not_older (sort_insert by_recency a l).
Proof.
  induction 1 as [|b l Hs IH Hb]; simpl.
  - repeat constructor.
  - destruct (by_recency a b <=? 0) eqn:E.
    + apply Z.leb_le in E. unfold by_recency in E.
      constructor; [now constructor|].
      constructor; [unfold not_older; lia|].
      rewrite Forall_forall in Hb |- *. intros c Hc.
      specialize (Hb c Hc). unfold not_older in *. lia.
    + apply Z.leb_gt in E. unfold by_recency in E.
      constructor; [exact IH|].
      rewrite Forall_forall in Hb |- *. intros c Hc.
      apply (Permutation_in _ (sort_insert_perm by_recency a l)) in Hc.
      destruct Hc as [<-|Hc]; [unfold not_older; lia | now apply Hb].
Qed.

Lemma Array_sort_sorted (l : list (InsightWithAgent (N:=N))) :
  StronglySorted not_older (Array_sort by_recency l).
Proof.
  induction l as [|a l IH]; simpl; [constructor|].
  now apply sort_insert_sorted.
Qed.

Lemma sort_insert_at_time (t : Z) (a : InsightWithAgent (N:=N))
    (l : list (InsightWithAgent (N:=N))) :
  at_time t (sort_insert by_recency a l) = at_time t (a :: l).
Proof.
  induction l as [|b l IH]; [reflexivity|].
  cbn [sort_insert]. destruct (by_recency a b <=? 0) eqn:E; [reflexivity|].
  apply Z.leb_gt in E. unfold by_recency in E.
  unfold at_time in *. cbn [filter] in *. rewrite IH.
  destruct (time a =? t) eqn:Ea; [|reflexivity].
  apply Z.eqb_eq in Ea.
  assert (Eb : (time b =? t) = false) by (apply Z.eqb_neq; lia).
  now rewrite Eb.
Qed.

(** The sort is stable: insights of one timestamp keep their order. *)
Lemma Array_sort_stable (t : Z) (l : list (InsightWithAgent (N:=N))) :
  at_time t (Array_sort by_recency l) = at_time t l.
Proof.
  induction l as [|a l IH]; [reflexivity|].
  cbn [Array_sort fold_right]. rewrite sort_insert_at_time.
  fold (Array_sort by_recency l).
  unfold at_time in *. cbn [filter]. now rewrite IH.
Qed.

(** The timestamps of the sorted insights are the sorted timestamps. *)
Lemma sort_insert_times (a : InsightWithAgent (N:=N))
    (l : list (InsightWithAgent (N:=N))) :
  map time (sort_insert by_recency a l)
  = sort_insert (fun s t => t - s) (time a) (map time l).
Proof.
  induction l as [|b l IH]; [reflexivity|].
  cbn [sort_insert map]. unfold by_recency at 1.
  destruct (time b - time a <=? 0); cbn [map]; [reflexivity|].
  now rewrite IH.
Qed.

Lemma Array_sort_times (l : list (InsightWithAgent (N:=N))) :
  map time (Array_sort by_recency l)
  = Array_sort (fun s t => t - s) (map time l).
Proof.
  induction l as [|a l IH]; [reflexivity|].
  cbn [Array_sort fold_right map]. rewrite sort_insert_times.
  fold (Array_sort by_recency l). now rewrite IH.
Qed.

Lemma at_time_head (a : InsightWithAgent (N:=N))
    (l : list (InsightWithAgent (N:=N))) :
  at_time (time a) (a :: l) = a :: at_time (time a) l.
Proof. unfold at_time. cbn [filter]. now rewrite Z.eqb_refl. Qed.

Lemma at_time_In (t : Z) (a : InsightWithAgent (N:=N))
    (l : list (InsightWithAgent (N:=N))) :
  In a (at_time t l) <-> In a l /\ time a = t.
Proof. unfold at_time. rewrite filter_In, Z.eqb_eq. tauto. Qed.

(** The result of the sort does not depend on the algorithm: a sequence
    that is sorted by recency and keeps the insights of every timestamp
    in the order they have in [l] is [Array_sort by_recency l]. *)
Lemma stable_sorted_unique (l1 l2 : list (InsightWithAgent (N:=N))) :
  StronglySorted not_older l1 -> StronglySorted not_older l2 ->
  (forall t, at_time t l1 = at_time t l2) ->
  l1 = l2.
Proof.
  intros H1. revert l2.
  induction H1 as [|a l1 Hs1 IH Ha]; intros l2 H2 Hat.
  - destruct l2 as [|b l2]; [reflexivity|].
    specialize (Hat (time b)). rewrite at_time_head in Hat. discriminate.
  - destruct H2 as [|b l2 Hs2 Hb].
    + specialize (Hat (time a)). rewrite at_time_head in Hat. discriminate.
    + rewrite Forall_forall in Ha, Hb.
      assert (Hab : time a = time b).
      { apply Z.le_antisymm.
        - assert (Hin : In a (at_time (time a) (b :: l2))).
          { rewrite <- Hat, at_time_head. now left. }
          apply at_time_In in Hin as [[<-|Hin] _]; [lia|].
          apply (Hb a Hin).
        - assert (Hin : In b (at_time (time b) (a :: l1))).
          { rewrite Hat, at_time_head. now left. }
          apply at_time_In in Hin as [[<-|Hin] _]; [lia|].
          apply (Ha b Hin). }
      pose proof (Hat (time a)) as Hhead.
      rewrite at_time_head, Hab, at_time_head in Hhead.
      injection Hhead as -> Htail.
      f_equal. apply IH; [exact Hs2|].
      intros t. specialize (Hat t). unfold at_time in *. cbn [filter] in Hat.
      destruct (time b =? t); [now injection Hat | exact Hat].
Qed.

Lemma Array_sort_unique (l l' : list (InsightWithAgent (N:=N))) :
  StronglySorted not_older l' ->
  (forall t, at_time t l' = at_time t l) ->
  l' = Array_sort by_recency l.
Proof.
  intros Hs Hat. apply stable_sorted_unique;
    [exact Hs | apply Array_sort_sorted |].
  intros t. now rewrite Array_sort_stable.
Qed.

Lemma StronglySorted_firstn {B : Type} (R : B -> B -> Prop) (k : nat)
    (l : list B) :
  StronglySorted R l -> StronglySorted R (firstn k l).
Proof.
  revert k. induction l as [|b l IH]; intros k Hs.
  - rewrite firstn_nil. constructor.
  - destruct k; [constructor|]. simpl.
    inversion Hs as [|? ? Hs' Hb]; subst.
    constructor; [now apply IH|].
    rewrite Forall_forall in Hb |- *. intros c Hc. apply Hb.
    rewrite <- (firstn_skipn k l). apply in_or_app. now left.
Qed.

Lemma StronglySorted_split {B : Type} (R : B -> B -> Prop) (k : nat)
    (l : list B) :
  StronglySorted R l ->
  forall a b, In a (firstn k l) -> In b (skipn k l) -> R a b.
Proof.
  revert k. induction l as [|c l IH]; intros k Hs a b Ha Hb.
  - rewrite firstn_nil in Ha. destruct Ha.
  - destruct k; [destruct Ha|]. simpl in Ha, Hb.
    inversion Hs as [|? ? Hs' Hc]; subst.
    destruct Ha as [<-|Ha].
    + rewrite Forall_forall in Hc. apply Hc.
      rewrite <- (firstn_skipn k l). apply in_or_app. now right.
    + now apply (IH k).
Qed.

Lemma filter_firstn {B : Type} (f : B -> bool) (k : nat) (l : list B) :
  exists later, filter f l = filter f (firstn k l) ++ later.
Proof.
  exists (filter f (skipn k l)).
  now rewrite <- filter_app, firstn_skipn.
Qed.

Lemma with_agent_nil (a : AgentState (N:=N)) :
  with_agent a = [] <-> insights a = None \/ insights a = Some [].
Proof.
  unfold with_agent. destruct (insights a) as [[|i l]|]; simpl.
  - split; auto.
  - split; [discriminate | intros [?|?]; discriminate].
  - split; auto.
Qed.

Lemma all_insights_nil (agents : Agents (N:=N)) :
  all_insights agents = [] <->
  Forall (fun a => insights a = None \/ insights a = Some [])
         (Object_values agents).
Proof.
  unfold all_insights.
  induction (Object_values agents) as [|a l IH]; simpl.
  - split; auto.
  - split.
    + intros E. apply app_eq_nil in E as [E1 E2].
      constructor; [now apply with_agent_nil | now apply IH].
    + intros HF. inversion HF as [|? ? Ha Hl]; subst.
      apply with_agent_nil in Ha. apply IH in Hl. now rewrite Ha, Hl.
Qed.

Lemma rail_insights_nil (agents : Agents (N:=N)) :
  rail_insights agents = [] <-> all_insights agents = [].
Proof.
  unfold rail_insights, slice0.
  pose proof (Array_sort_length by_recency (all_insights agents)) as HL.
  destruct (all_insights agents) as [|i l] eqn:E.
  - simpl. tauto.
  - destruct (Array_sort by_recency (i :: l)) as [|j m]; [discriminate|].
    simpl. split; discriminate.
Qed.

End Rail.

(** ** Properties of the chart, for every implementation of numbers *)

Section ChartFacts.

Context {N : Type} `{Number N}.

Lemma drawn_values_filter (chart : ChartSpec (N:=N)) :
  drawn_values chart =
    match filter isFinite (series_values chart) with
    | [] => None
    | vs => Some vs
    end.
Proof.
  unfold drawn_values, series_values.
  destruct (first_series chart) as [s|]; [|reflexivity].
  destruct (values s) as [[|v vs]|]; reflexivity.
Qed.

Lemma drawn_values_Some (chart : ChartSpec (N:=N)) (vs : list N) :
  drawn_values chart = Some vs <->
  vs = filter isFinite (series_values chart) /\ vs <> [].
Proof.
  rewrite drawn_values_filter.
  destruct (filter isFinite (series_values chart)) as [|v l].
  - split; [discriminate | intros [-> E]; now elim E].
  - split; [intros [= <-]; split; [reflexivity | discriminate]
           | intros [-> _]; reflexivity].
Qed.

Lemma drawn_values_finite (chart : ChartSpec (N:=N)) (vs : list N) :
  drawn_values chart = Some vs ->
  vs <> [] /\ Forall (fun v => isFinite v = true) vs.
Proof.
  intros E. apply drawn_values_Some in E as [-> Hne]. split; [exact Hne|].
  apply Forall_forall. intros v Hv. now apply filter_In in Hv.
Qed.

Lemma MiniChart_drawn (chart : ChartSpec (N:=N)) :
  MiniChart chart = None <-> drawn_values chart = None.
Proof.
  unfold MiniChart, drawn_values.
  destruct (first_series chart) as [s|]; [|tauto].
  destruct (values s) as [[|v vs]|]; try tauto.
  destruct (filter isFinite (v :: vs)); [tauto|].
  split; discriminate.
Qed.

Lemma MiniChart_Some (chart : ChartSpec (N:=N)) (c : Chart) :
  MiniChart chart = Some c ->
  exists series values,
    first_series chart = Some series /\ drawn_values chart = Some values /\
    grid c = yTicks_of (Math_min values)
                       (span_of (Math_min values) (Math_max values)) /\
    axis c = xTicks_of (xLabels_of chart values) /\
    marks c = if String.eqb (type chart) "bar"
              then Bars (bars_of values (Math_min values)
                           (span_of (Math_min values) (Math_max values)))
              else Polyline (pts_of values (Math_min values)
                               (span_of (Math_min values) (Math_max values))).
Proof.
  unfold MiniChart.
  destruct (first_series chart) as [series|]; [|discriminate].
  destruct (drawn_values chart) as [values|]; [|discriminate].
  intros [= <-]. exists series, values. cbn [grid axis marks]. auto.
Qed.

Lemma mapi_from_length {A B : Type} (f : Z -> A -> B) (l : list A) (i : Z) :
  List.length (mapi_from i f l) = List.length l.
Proof.
  revert i. induction l as [|a l IH]; intros i; simpl; [reflexivity|].
  now rewrite IH.
Qed.

Lemma mapi_from_ordinals {A : Type} (l : list A) (i : nat) :
  mapi_from (Z.of_nat i) (fun idx (_ : A) => ordinal (idx + 1)) l
  = map (fun j => digits (Z.of_nat j)) (List.seq (S i) (List.length l)).
Proof.
  revert i. induction l as [|a l IH]; intros i; [reflexivity|].
  cbn [mapi_from List.length List.seq map]. f_equal.
  - unfold ordinal.
    destruct (Z.of_nat i + 1 <? 0) eqn:E; [apply Z.ltb_lt in E; lia|].
    f_equal. lia.
  - replace (Z.of_nat i + 1) with (Z.of_nat (S i)) by lia. apply IH.
Qed.

Lemma xLabels_of_cases (chart : ChartSpec (N:=N)) (vs : list N) :
  xLabels_of chart vs =
    match labels chart with
    | Some ls =>
        if (List.length ls =? List.length vs)%nat then ls
        else ordinals (List.length vs)
    | None => ordinals (List.length vs)
    end.
Proof.
  unfold xLabels_of, ordinals, mapi.
  pose proof (mapi_from_ordinals vs 0) as E. cbn [Z.of_nat] in E.
  rewrite E. reflexivity.
Qed.

Lemma xLabels_of_length (chart : ChartSpec (N:=N)) (vs : list N) :
  List.length (xLabels_of chart vs) = List.length vs.
Proof.
  rewrite xLabels_of_cases. unfold ordinals.
  destruct (labels chart) as [ls|].
  - destruct (List.length ls =? List.length vs)%nat eqn:E.
    + now apply Nat.eqb_eq.
    + now rewrite length_map, length_seq.
  - now rewrite length_map, length_seq.
Qed.

(** *** The ticks of the x axis *)

Lemma ceil_div_spec (a b : Z) :
  0 < b -> b * (ceil_div a b - 1) < a <= b * ceil_div a b.
Proof.
  intros Hb. unfold ceil_div.
  pose proof (Z.div_mod (- a) b ltac:(lia)) as E.
  pose proof (Z.mod_pos_bound (- a) b Hb) as R.
  nia.
Qed.

Lemma ceil_div_unique (a b c : Z) :
  0 < b -> b * (c - 1) < a <= b * c -> ceil_div a b = c.
Proof.
  intros Hb Hc. pose proof (ceil_div_spec a b Hb). nia.
Qed.

Lemma ceil_div_step (a b : Z) :
  0 < b -> ceil_div a b = 1 + ceil_div (a - b) b.
Proof.
  intros Hb. apply ceil_div_unique; [exact Hb|].
  pose proof (ceil_div_spec (a - b) b Hb). lia.
Qed.

Lemma strides_S (i step : Z) (k : nat) :
  strides i step (S k) = i :: strides (i + step) step k.
Proof.
  unfold strides. cbn [List.seq map]. f_equal; [lia|].
  rewrite <- seq_shift, map_map. apply map_ext. intros j. lia.
Qed.

Lemma strides_length (i step : Z) (k : nat) :
  List.length (strides i step k) = k.
Proof. unfold strides. now rewrite length_map, length_seq. Qed.

Lemma strides_last (i step : Z) (k : nat) :
  at_index (strides i step (S k)) (Z.of_nat (S k) - 1)
  = Some (i + Z.of_nat k * step).
Proof.
  unfold at_index. destruct (Z.of_nat (S k) - 1 <? 0) eqn:E;
    [apply Z.ltb_lt in E; lia|].
  replace (Z.to_nat (Z.of_nat (S k) - 1)) with k by lia.
  unfold strides. rewrite nth_error_map.
  rewrite (nth_error_nth' _ 0%nat) by (rewrite length_seq; lia).
  rewrite seq_nth by lia. reflexivity.
Qed.

(** With enough rounds the loop pushes a tick at every position below the
    number of labels, and more rounds change nothing. *)
Lemma xTicks_loop_spec (xLabels : list string) (step : Z) :
  1 <= step ->
  forall fuel i ticks,
    let k := Z.to_nat (ceil_div (Z.of_nat (List.length xLabels) - i) step) in
    (k <= fuel)%nat ->
    xTicks_loop (N:=N) fuel xLabels step i ticks
    = ticks ++ map (tick_at xLabels) (strides i step k).
Proof.
  intros Hstep. induction fuel as [|fuel IH]; intros i ticks k Hk.
  - assert (k = 0%nat) as -> by lia. simpl. now rewrite app_nil_r.
  - cbn [xTicks_loop].
    pose proof (ceil_div_spec (Z.of_nat (List.length xLabels) - i) step
                  ltac:(lia)) as Hc.
    destruct (i <? Z.of_nat (List.length xLabels)) eqn:E.
    + apply Z.ltb_lt in E.
      pose proof (ceil_div_step (Z.of_nat (List.length xLabels) - i) step
                    ltac:(lia)) as Hs.
      pose proof (ceil_div_spec (Z.of_nat (List.length xLabels) - i - step)
                    step ltac:(lia)) as Hc'.
      assert (Hk' : k = S (Z.to_nat (ceil_div
                 (Z.of_nat (List.length xLabels) - (i + step)) step))).
      { subst k. rewrite Hs.
        replace (Z.of_nat (List.length xLabels) - (i + step))
          with (Z.of_nat (List.length xLabels) - i - step) by lia.
        assert (0 <= ceil_div (Z.of_nat (List.length xLabels) - i - step) step)
          by nia.
        lia. }
      rewrite Hk', strides_S. rewrite IH by lia.
      rewrite <- app_assoc. reflexivity.
    + apply Z.ltb_ge in E.
      assert (k = 0%nat) as -> by (subst k; nia).
      simpl. now rewrite app_nil_r.
Qed.

(** The number of strided ticks: at least one, at most [maxTicks]. *)
Lemma strided_count (n : Z) :
  1 <= n ->
  let step := Z.max 1 (ceil_div n maxTicks) in
  1 <= ceil_div n step <= 4 /\ ceil_div n step <= n.
Proof.
  intros Hn step. unfold maxTicks in *.
  pose proof (ceil_div_spec n 4 ltac:(lia)) as H4.
  assert (Hs : 1 <= step) by (subst step; lia).
  assert (Hs4 : n <= 4 * step) by (subst step; lia).
  pose proof (ceil_div_spec n step ltac:(lia)) as Hc.
  nia.
Qed.

Lemma xTicks_of_spec (xLabels : list string) :
  xLabels <> [] ->
  let n := Z.of_nat (List.length xLabels) in
  let step := Z.max 1 (ceil_div n maxTicks) in
  let k := Z.to_nat (ceil_div n step) in
  xTicks_of (N:=N) xLabels
  = map (tick_at xLabels)
        (strides 0 step k
         ++ if (Z.of_nat k - 1) * step =? n - 1 then [] else [n - 1]).
Proof.
  intros Hne n step k.
  assert (Hn : 1 <= n) by (subst n; destruct xLabels; [congruence|simpl; lia]).
  destruct (strided_count n Hn) as [Hk Hkn]. fold step in Hk, Hkn.
  unfold xTicks_of. fold n. fold step.
  rewrite (xTicks_loop_spec xLabels step ltac:(subst step; lia)
             (List.length xLabels) 0 []);
    rewrite Z.sub_0_r; fold n; fold k; [|subst k n; lia].
  cbn [app]. rewrite map_map. cbn [idx tick_at]. rewrite map_id.
  rewrite length_map, strides_length.
  destruct k as [|k'] eqn:Ek; [lia|].
  rewrite strides_last. rewrite Z.add_0_l.
  replace (Z.of_nat (S k') - 1) with (Z.of_nat k') by lia.
  destruct (Z.of_nat k' * step =? n - 1).
  - now rewrite app_nil_r.
  - now rewrite map_app.
Qed.

Lemma strides_snoc (i step : Z) (k : nat) :
  strides i step (S k) = strides i step k ++ [i + Z.of_nat k * step].
Proof. unfold strides. now rewrite seq_S, map_app. Qed.

Lemma strides_bounds (step : Z) (k : nat) (n j : Z) :
  1 <= step -> step * (Z.of_nat k - 1) < n ->
  In j (strides 0 step k) -> 0 <= j < n.
Proof.
  intros Hs Hk Hj. unfold strides in Hj.
  apply in_map_iff in Hj as (m & <- & Hm). apply in_seq in Hm. nia.
Qed.

(** The positions of the ticks: at most [maxTicks] strided ones from 0,
    then the last position unless the stride reached it.  Every tick
    carries the label of its position, and the last tick is at the last
    label. *)
Lemma xTicks_of_positions (xLabels : list string) :
  xLabels <> [] ->
  let n := Z.of_nat (List.length xLabels) in
  let step := Z.max 1 (ceil_div n maxTicks) in
  let k := Z.to_nat (ceil_div n step) in
  (1 <= k <= 4)%nat /\
  map idx (xTicks_of (N:=N) xLabels)
  = strides 0 step k ++ (if (Z.of_nat k - 1) * step =? n - 1 then []
                         else [n - 1]) /\
  (forall t, In t (xTicks_of (N:=N) xLabels) ->
     0 <= idx t < n /\
     x t = x_of n (idx t) /\
     exists l, label t = Some l /\
               nth_error xLabels (Z.to_nat (idx t)) = Some l) /\
  last (map idx (xTicks_of (N:=N) xLabels)) 0 = n - 1.
Proof.
  intros Hne n step k.
  assert (Hn : 1 <= n) by (subst n; destruct xLabels; [congruence|simpl; lia]).
  destruct (strided_count n Hn) as [Hk Hkn]. fold step in Hk, Hkn.
  assert (Hstep : 1 <= step) by (subst step; lia).
  pose proof (ceil_div_spec n step ltac:(lia)) as Hc.
  pose proof (xTicks_of_spec xLabels Hne) as E.
  cbv zeta in E. fold n in E. fold step in E. fold k in E.
  set (pos := strides 0 step k
              ++ (if (Z.of_nat k - 1) * step =? n - 1 then [] else [n - 1]))
    in *.
  assert (Hpos : forall j, In j pos -> 0 <= j < n).
  { intros j Hj. subst pos. apply in_app_or in Hj as [Hj|Hj].
    - apply (strides_bounds step k n j Hstep); [subst k; lia | exact Hj].
    - destruct ((Z.of_nat k - 1) * step =? n - 1); [destruct Hj|].
      destruct Hj as [<-|[]]. lia. }
  split; [subst k; lia|].
  rewrite E, map_map. cbn [idx tick_at]. rewrite map_id.
  split; [reflexivity|]. split.
  - intros t Ht. apply in_map_iff in Ht as (j & <- & Hj).
    apply Hpos in Hj. cbn [idx label x tick_at]. fold n.
    split; [exact Hj|]. split; [reflexivity|].
    unfold at_index. destruct (j <? 0) eqn:Ej; [apply Z.ltb_lt in Ej; lia|].
    destruct (nth_error xLabels (Z.to_nat j)) as [l|] eqn:El.
    + now exists l.
    + apply nth_error_None in El. subst n. lia.
  - subst pos. destruct k as [|k'] eqn:Ek; [lia|].
    rewrite strides_snoc.
    replace (Z.of_nat (S k') - 1) with (Z.of_nat k') by lia.
    destruct (Z.of_nat k' * step =? n - 1) eqn:El.
    + apply Z.eqb_eq in El. rewrite app_nil_r, last_last. lia.
    + now rewrite last_last.
Qed.

Lemma yTicks_of_text (mn sp : N) :
  Forall (fun t => text t = formatNumber (value t)) (yTicks_of mn sp).
Proof. unfold yTicks_of. repeat constructor. Qed.

End ChartFacts.

(** ** Properties of the chart in exact arithmetic *)

Section ExactChart.

Local Open Scope Q_scope.

Lemma exact_geb_Fin (a b : Q) : exact_geb (Fin a) (Fin b) = true <-> b <= a.
Proof.
  unfold exact_geb, exact_compare.
  destruct (a ?= b) eqn:E.
  - apply Qeq_alt in E. split; [intros _; rewrite E; apply Qle_refl | auto].
  - apply Qlt_alt in E. split; [discriminate | intros H; lra].
  - apply Qgt_alt in E. split; [intros _; lra | auto].
Qed.

Lemma exact_geb_Fin_false (a b : Q) :
  exact_geb (Fin a) (Fin b) = false <-> a < b.
Proof.
  pose proof (exact_geb_Fin a b) as G.
  destruct (exact_geb (Fin a) (Fin b)).
  - split; [discriminate|]. intros L. assert (b <= a) by now apply G. lra.
  - split; [intros _|auto]. destruct (Qlt_le_dec a b) as [L|L]; [exact L|].
    apply G in L. discriminate.
Qed.

Lemma exact_ltb_Fin (a b : Q) : exact_ltb (Fin a) (Fin b) = true <-> a < b.
Proof.
  unfold exact_ltb, exact_compare.
  destruct (a ?= b) eqn:E.
  - apply Qeq_alt in E. split; [discriminate | intros L; lra].
  - apply Qlt_alt in E. tauto.
  - apply Qgt_alt in E. split; [discriminate | intros L; lra].
Qed.

Lemma exact_div_Fin (a b : Q) :
  ~ b == 0 -> exact_div (Fin a) (Fin b) = Fin (a / b).
Proof.
  intros Hb. unfold exact_div.
  destruct (Qeq_bool b 0) eqn:E; [|reflexivity].
  apply Qeq_bool_eq in E. contradiction.
Qed.

Lemma finite_values (l : list exact) :
  Forall (fun v => isFinite v = true) l -> exists qs, l = map Fin qs.
Proof.
  induction 1 as [|v l Hv _ [qs ->]].
  - now exists [].
  - destruct v as [q| | |]; try discriminate. now exists (q :: qs).
Qed.

(** [Math.min] of finite values is the least of them. *)
Lemma fold_min2_Fin (qs : list Q) (a : Q) :
  exists m, fold_left min2 (map Fin qs) (Fin a) = Fin m /\
            m <= a /\ (forall q, In q qs -> m <= q) /\
            (m = a \/ In m qs).
Proof.
  revert a. induction qs as [|q qs IH]; intros a; simpl.
  - exists a. repeat split; [apply Qle_refl | intros ? [] | now left].
  - unfold min2 at 2. cbn [isNaN exact_Number exact_isNaN ltb].
    destruct (exact_ltb (Fin q) (Fin a)) eqn:E.
    + apply exact_ltb_Fin in E.
      destruct (IH q) as (m & Em & Hma & Hall & Hin).
      exists m. repeat split; auto; [lra | |].
      * intros q' [<-|Hq']; auto.
      * right. destruct Hin as [->|Hin]; auto.
    + assert (a <= q).
      { destruct (Qlt_le_dec q a) as [L|L]; [|exact L].
        apply exact_ltb_Fin in L. congruence. }
      destruct (IH a) as (m & Em & Hma & Hall & Hin).
      exists m. repeat split; auto.
      * intros q' [<-|Hq']; [lra | auto].
      * destruct Hin as [->|Hin]; auto.
Qed.

Lemma fold_max2_Fin (qs : list Q) (a : Q) :
  exists m, fold_left max2 (map Fin qs) (Fin a) = Fin m /\
            a <= m /\ (forall q, In q qs -> q <= m) /\
            (m = a \/ In m qs).
Proof.
  revert a. induction qs as [|q qs IH]; intros a; simpl.
  - exists a. repeat split; [apply Qle_refl | intros ? [] | now left].
  - unfold max2 at 2. cbn [isNaN exact_Number exact_isNaN ltb].
    destruct (exact_ltb (Fin a) (Fin q)) eqn:E.
    + apply exact_ltb_Fin in E.
      destruct (IH q) as (m & Em & Hma & Hall & Hin).
      exists m. repeat split; auto; [lra | |].
      * intros q' [<-|Hq']; auto.
      * right. destruct Hin as [->|Hin]; auto.
    + assert (q <= a).
      { destruct (Qlt_le_dec a q) as [L|L]; [|exact L].
        apply exact_ltb_Fin in L. congruence. }
      destruct (IH a) as (m & Em & Hma & Hall & Hin).
      exists m. repeat split; auto.
      * intros q' [<-|Hq']; [lra | auto].
      * destruct Hin as [->|Hin]; auto.
Qed.

Lemma Math_min_Fin (q : Q) (qs : list Q) :
  exists m, Math_min (map Fin (q :: qs)) = Fin m /\
            In m (q :: qs) /\ forall q', In q' (q :: qs) -> m <= q'.
Proof.
  unfold Math_min. cbn [map fold_left].
  change (min2 Infinity (Fin q)) with (Fin q).
  destruct (fold_min2_Fin qs q) as (m & Em & Hma & Hall & Hin).
  exists m. split; [exact Em|]. split.
  - destruct Hin as [->|Hin]; [now left | now right].
  - intros q' [<-|Hq']; auto.
Qed.

Lemma Math_max_Fin (q : Q) (qs : list Q) :
  exists m, Math_max (map Fin (q :: qs)) = Fin m /\
            In m (q :: qs) /\ forall q', In q' (q :: qs) -> q' <= m.
Proof.
  unfold Math_max. cbn [map fold_left].
  change (max2 (neg Infinity) (Fin q)) with (Fin q).
  destruct (fold_max2_Fin qs q) as (m & Em & Hma & Hall & Hin).
  exists m. split; [exact Em|]. split.
  - destruct Hin as [->|Hin]; [now left | now right].
  - intros q' [<-|Hq']; auto.
Qed.

(** The span is the range of the values, or 1 for a flat series; it is
    positive either way. *)
Lemma span_of_Fin (mn mx : Q) :
  mn <= mx ->
  exists s, span_of (Fin mn) (Fin mx) = Fin s /\ 0 < s /\
            (mx == mn -> s = 1) /\ (~ mx == mn -> s = mx - mn).
Proof.
  intros Hle. unfold span_of.
  cbn [sub truthy exact_Number exact_sub exact_add exact_neg exact_truthy of_Z].
  destruct (Qeq_bool (mx + - mn) 0) eqn:E; cbn [negb].
  - apply Qeq_bool_eq in E. exists 1.
    split; [reflexivity|]. split; [lra|]. split; [reflexivity|].
    intros Hne. elim Hne. lra.
  - apply Qeq_bool_neq in E. exists (mx - mn).
    split; [reflexivity|]. split; [|split; [|reflexivity]].
    + destruct (Qlt_le_dec 0 (mx - mn)) as [L|L]; [exact L|].
      elim E. lra.
    + intros He. elim E. lra.
Qed.

Lemma inject_Z_nonzero (z : Z) : (1 <= z)%Z -> ~ inject_Z z == 0.
Proof.
  intros Hz E. rewrite Zle_Qle in Hz.
  change (inject_Z 1) with 1 in Hz. lra.
Qed.

Lemma x_of_Fin (n i : Z) :
  x_of n i
  = Fin (inject_Z (left padding)
         + inject_Z i / inject_Z (Z.max (n - 1) 1) * inject_Z innerWidth).
Proof.
  unfold x_of. cbn [add mul div of_Z exact_Number].
  rewrite exact_div_Fin by (apply inject_Z_nonzero; lia).
  reflexivity.
Qed.

Lemma y_of_Fin (mn s v : Q) :
  ~ s == 0 ->
  y_of (Fin mn) (Fin s) (Fin v)
  = Fin (inject_Z (top padding)
         + (1 - (v - mn) / s) * inject_Z innerHeight).
Proof.
  intros Hs. unfold y_of. cbn [add mul div sub of_Z exact_Number].
  unfold exact_sub. cbn [exact_neg exact_add].
  rewrite exact_div_Fin by exact Hs.
  reflexivity.
Qed.

Lemma unit_fraction (a b : Q) : 0 <= a -> a <= b -> 0 < b ->
  0 <= a / b <= 1.
Proof.
  intros Ha Hab Hb. split.
  - apply Qle_shift_div_l; [exact Hb | lra].
  - apply Qle_shift_div_r; [exact Hb | lra].
Qed.

Lemma x_of_across (n i : Z) :
  (0 <= i <= n - 1)%Z -> across (x_of n i).
Proof.
  intros Hi. rewrite x_of_Fin. eexists. split; [reflexivity|].
  assert (Hr : 0 <= inject_Z i / inject_Z (Z.max (n - 1) 1) <= 1).
  { apply unit_fraction.
    - change 0 with (inject_Z 0). rewrite <- Zle_Qle. lia.
    - rewrite <- Zle_Qle. lia.
    - change 0 with (inject_Z 0). rewrite <- Zlt_Qlt. lia. }
  set (r := inject_Z i / inject_Z (Z.max (n - 1) 1)) in *.
  change (inject_Z (left padding)) with 46.
  change (inject_Z innerWidth) with 204.
  change (inject_Z (width - right padding)) with 250.
  lra.
Qed.

Lemma y_of_down (mn mx s v : Q) :
  mn <= v -> v <= mx -> 0 < s ->
  (mx == mn -> s = 1) -> (~ mx == mn -> s = mx - mn) ->
  down (y_of (Fin mn) (Fin s) (Fin v)).
Proof.
  intros Hlo Hhi Hs Hflat Hrange.
  rewrite y_of_Fin by lra. eexists. split; [reflexivity|].
  assert (Hr : 0 <= (v - mn) / s <= 1).
  { apply unit_fraction; [lra | | exact Hs].
    destruct (Qeq_dec mx mn) as [E|E].
    - rewrite (Hflat E). lra.
    - rewrite (Hrange E). lra. }
  set (r := (v - mn) / s) in *.
  change (inject_Z (top padding)) with 14.
  change (inject_Z innerHeight) with 98.
  change (inject_Z (height - bottom padding)) with 112.
  lra.
Qed.

Lemma Forall_mapi_from {A B : Type} (P : B -> Prop) (f : Z -> A -> B)
    (l : list A) (i : Z) :
  (forall j v, (i <= j < i + Z.of_nat (List.length l))%Z -> In v l ->
               P (f j v)) ->
  Forall P (mapi_from i f l).
Proof.
  revert i. induction l as [|a l IH]; intros i Hf; simpl; constructor.
  - apply Hf; [simpl List.length; lia | now left].
  - apply IH. intros j v Hj Hv. apply Hf; [simpl List.length; lia | now right].
Qed.

(** What [formatNumber] does in each of its ranges. *)
Lemma formatNumber_ranges (q : Q) :
  (inject_Z 1000000000 <= Qabs q ->
   formatNumber (Fin q)
   = option_map (fun s => (s ++ "b")%string)
                (toFixed_finite (q / inject_Z 1000000000) 1)) /\
  (inject_Z 1000000 <= Qabs q < inject_Z 1000000000 ->
   formatNumber (Fin q)
   = option_map (fun s => (s ++ "m")%string)
                (toFixed_finite (q / inject_Z 1000000) 1)) /\
  (inject_Z 1000 <= Qabs q < inject_Z 1000000 ->
   formatNumber (Fin q)
   = option_map (fun s => (s ++ "k")%string)
                (toFixed_finite (q / inject_Z 1000) 1)) /\
  (inject_Z 100 <= Qabs q < inject_Z 1000 ->
   formatNumber (Fin q) = toFixed_finite q 0) /\
  (inject_Z 1 <= Qabs q < inject_Z 100 ->
   formatNumber (Fin q) = toFixed_finite q 2) /\
  (Qabs q < inject_Z 1 ->
   formatNumber (Fin q) = Some (toPrecision_finite q 2)).
Proof.
  unfold formatNumber.
  cbn [Math_abs geb div of_Z toFixed toPrecision exact_Number exact_abs
       exact_toFixed exact_toPrecision].
  repeat rewrite exact_div_Fin by (apply inject_Z_nonzero; lia).
  repeat split.
  - intros H9. apply exact_geb_Fin in H9. now rewrite H9.
  - intros [H6 H9].
    apply exact_geb_Fin_false in H9. apply exact_geb_Fin in H6.
    now rewrite H9, H6.
  - intros [H3 H6].
    assert (H9 : Qabs q < inject_Z 1000000000).
    { eapply Qlt_trans; [exact H6|]. reflexivity. }
    apply exact_geb_Fin_false in H9, H6. apply exact_geb_Fin in H3.
    now rewrite H9, H6, H3.
  - intros [H2 H3].
    assert (H6 : Qabs q < inject_Z 1000000).
    { eapply Qlt_trans; [exact H3|]. reflexivity. }
    assert (H9 : Qabs q < inject_Z 1000000000).
    { eapply Qlt_trans; [exact H6|]. reflexivity. }
    apply exact_geb_Fin_false in H9, H6, H3. apply exact_geb_Fin in H2.
    now rewrite H9, H6, H3, H2.
  - intros [H1 H2].
    assert (H3 : Qabs q < inject_Z 1000).
    { eapply Qlt_trans; [exact H2|]. reflexivity. }
    assert (H6 : Qabs q < inject_Z 1000000).
    { eapply Qlt_trans; [exact H3|]. reflexivity. }
    assert (H9 : Qabs q < inject_Z 1000000000).
    { eapply Qlt_trans; [exact H6|]. reflexivity. }
    apply exact_geb_Fin_false in H9, H6, H3, H2. apply exact_geb_Fin in H1.
    now rewrite H9, H6, H3, H2, H1.
  - intros H1.
    assert (H2 : Qabs q < inject_Z 100).
    { eapply Qlt_trans; [exact H1|]. reflexivity. }
    assert (H3 : Qabs q < inject_Z 1000).
    { eapply Qlt_trans; [exact H2|]. reflexivity. }
    assert (H6 : Qabs q < inject_Z 1000000).
    { eapply Qlt_trans; [exact H3|]. reflexivity. }
    assert (H9 : Qabs q < inject_Z 1000000000).
    { eapply Qlt_trans; [exact H6|]. reflexivity. }
    apply exact_geb_Fin_false in H9, H6, H3, H2, H1.
    now rewrite H9, H6, H3, H2, H1.
Qed.

(** The centre of a bar lies across the area as well. *)
Lemma bar_x_across (n i : Z) :
  (0 <= i <= n - 1)%Z ->
  across (add (of_Z (left padding))
              (mul (of_Z i)
                   (div (of_Z innerWidth) (of_Z (Z.max (n - 1) 1))))).
Proof.
  intros Hi. cbn [add mul div of_Z exact_Number].
  rewrite exact_div_Fin by (apply inject_Z_nonzero; lia).
  eexists. split; [reflexivity|].
  assert (Hm : 0 < inject_Z (Z.max (n - 1) 1)).
  { change 0 with (inject_Z 0). rewrite <- Zlt_Qlt. lia. }
  assert (Hr : 0 <= inject_Z i / inject_Z (Z.max (n - 1) 1) <= 1).
  { apply unit_fraction; [| |exact Hm].
    - change 0 with (inject_Z 0). rewrite <- Zle_Qle. lia.
    - rewrite <- Zle_Qle. lia. }
  assert (E : inject_Z i * (inject_Z innerWidth / inject_Z (Z.max (n - 1) 1))
              == inject_Z i / inject_Z (Z.max (n - 1) 1) * inject_Z innerWidth).
  { field. lra. }
  rewrite E.
  set (r := inject_Z i / inject_Z (Z.max (n - 1) 1)) in *.
  change (inject_Z (left padding)) with 46.
  change (inject_Z innerWidth) with 204.
  change (inject_Z (width - right padding)) with 250.
  lra.
Qed.

(** What [drawn_values] returns: finite values, at least one, with their
    least and greatest and a positive span. *)
Lemma drawn_values_exact (chart : ChartSpec (N:=exact)) (values : list exact) :
  drawn_values chart = Some values ->
  exists qs mn mx s,
    values = map Fin qs /\ qs <> [] /\
    Math_min values = Fin mn /\ Math_max values = Fin mx /\
    In mn qs /\ In mx qs /\ (forall q, In q qs -> mn <= q <= mx) /\
    span_of (Math_min values) (Math_max values) = Fin s /\ 0 < s /\
    (mx == mn -> s = 1) /\ (~ mx == mn -> s = mx - mn).
Proof.
  intros Hd. apply drawn_values_finite in Hd as [Hne Hfin].
  apply finite_values in Hfin as [qs ->].
  destruct qs as [|q qs]; [now elim Hne|].
  destruct (Math_min_Fin q qs) as (mn & Emn & Imn & Lmn).
  destruct (Math_max_Fin q qs) as (mx & Emx & Imx & Lmx).
  destruct (span_of_Fin mn mx (Lmn mx Imx)) as (s & Es & Hs & Hflat & Hrange).
  exists (q :: qs), mn, mx, s. rewrite Emn, Emx.
  split; [reflexivity|]. split; [discriminate|].
  split; [reflexivity|]. split; [reflexivity|].
  split; [exact Imn|]. split; [exact Imx|].
  split; [intros q' Hq'; split; auto|].
  split; [exact Es|]. split; [exact Hs|]. split; assumption.
Qed.

End ExactChart.

(** ** Properties of the chart on doubles *)

Section Binary64Chart.

(** What [drawn_values] returns on doubles: finite values, at least
    one. *)
Lemma drawn_values_binary64 (chart : ChartSpec (N:=binary64))
    (values : list binary64) :
  drawn_values chart = Some values ->
  values <> [] /\ Forall (fun v => binary64_isFinite v = true) values.
Proof. exact (drawn_values_finite chart values). Qed.

(** The span of finite values: [max - min], or 1 when these are equal;
    it is never zero and never NaN. *)
Lemma span_of_binary64 (mn mx : binary64) :
  binary64_isFinite mn = true -> binary64_isFinite mx = true ->
  span_of mn mx = (if PrimFloat.eqb mx mn then 1%float
                   else PrimFloat.sub mx mn) /\
  truthy (span_of mn mx) = true.
Proof.
  intros Fn Fx. unfold span_of. cbv zeta.
  pose proof (Float64.truthy_sub mx mn Fx Fn) as E.
  change (sub mx mn) with (PrimFloat.sub mx mn).
  destruct (PrimFloat.eqb mx mn); cbn [negb] in E; rewrite E.
  - split; reflexivity.
  - split; [reflexivity | exact E].
Qed.

(** What [formatNumber] does with a double of value [q], in each of its
    ranges. *)
Lemma formatNumber_on_doubles (v : binary64) (q : Q) :
  binary64_to_Q v = Some q ->
  ((1000000000 <= Qabs q)%Q ->
   formatNumber v
   = option_map (fun s => (s ++ "b")%string)
                (toFixed (div v (of_Z 1000000000)) 1)) /\
  ((1000000 <= Qabs q < 1000000000)%Q ->
   formatNumber v
   = option_map (fun s => (s ++ "m")%string)
                (toFixed (div v (of_Z 1000000)) 1)) /\
  ((1000 <= Qabs q < 1000000)%Q ->
   formatNumber v
   = option_map (fun s => (s ++ "k")%string) (toFixed (div v (of_Z 1000)) 1)) /\
  ((100 <= Qabs q < 1000)%Q -> formatNumber v = toFixed_finite q 0) /\
  ((1 <= Qabs q < 100)%Q -> formatNumber v = toFixed_finite q 2) /\
  ((Qabs q < 1)%Q -> formatNumber v = Some (toPrecision_finite q 2)).
Proof.
  intros Hq.
  destruct Float64.exact_integers as (I0 & I2 & I3 & I6 & I9).
  destruct (Float64.geb_abs_value v q _ Hq I0) as [T0 F0].
  destruct (Float64.geb_abs_value v q _ Hq I2) as [T2 F2].
  destruct (Float64.geb_abs_value v q _ Hq I3) as [T3 F3].
  destruct (Float64.geb_abs_value v q _ Hq I6) as [T6 F6].
  destruct (Float64.geb_abs_value v q _ Hq I9) as [T9 F9].
  change (inject_Z 1) with 1%Q in *. change (inject_Z 100) with 100%Q in *.
  change (inject_Z 1000) with 1000%Q in *.
  change (inject_Z 1000000) with 1000000%Q in *.
  change (inject_Z 1000000000) with 1000000000%Q in *.
  assert (E21 : (pow10 21 == 1000000000000000000000)%Q) by reflexivity.
  unfold formatNumber. set (a := Qabs q) in *.
  split; [|split; [|split; [|split; [|split]]]].
  - intros H9. now rewrite (proj2 T9 H9).
  - intros [H6 H9]. now rewrite (proj2 F9 H9), (proj2 T6 H6).
  - intros [H3 H6].
    rewrite (proj2 F9 ltac:(lra)), (proj2 F6 H6), (proj2 T3 H3). reflexivity.
  - intros [H2 H3].
    rewrite (proj2 F9 ltac:(lra)), (proj2 F6 ltac:(lra)), (proj2 F3 H3),
      (proj2 T2 H2).
    apply Float64.toFixed_binary64; [exact Hq | fold a; rewrite E21; lra].
  - intros [H1 H2].
    rewrite (proj2 F9 ltac:(lra)), (proj2 F6 ltac:(lra)),
      (proj2 F3 ltac:(lra)), (proj2 F2 H2), (proj2 T0 H1).
    apply Float64.toFixed_binary64; [exact Hq | fold a; rewrite E21; lra].
  - intros H1.
    rewrite (proj2 F9 ltac:(lra)), (proj2 F6 ltac:(lra)),
      (proj2 F3 ltac:(lra)), (proj2 F2 ltac:(lra)), (proj2 F0 H1).
    cbn [toPrecision binary64_Number]. unfold binary64_toPrecision.
    now rewrite Hq.
Qed.

(** The constants of the chart and the indices of its values are doubles
    of the same value. *)
Lemma Z_val (k : Z) :
  0 <= k < 2 ^ 53 ->
  binary64_isFinite (of_Z k) = true /\ (Float64.val (of_Z k) == inject_Z k)%Q.
Proof. exact (Float64.of_Z_val k). Qed.

Lemma quotient_at_most_one (a b : Q) :
  (0 < b)%Q -> (a <= b)%Q -> (a / b <= 1)%Q.
Proof. intros Hb H. apply Qle_shift_div_r; [exact Hb | lra]. Qed.

(** The [y] of a value between [min] and [max]: each of the five
    operations rounds a number of a known range, and rounding keeps the
    range, whose ends are doubles. *)
Lemma y_of_inside (mn mx v : binary64) :
  binary64_isFinite mn = true -> binary64_isFinite mx = true ->
  binary64_isFinite v = true ->
  PrimFloat.leb mn v = true -> PrimFloat.leb v mx = true ->
  binary64_isFinite (PrimFloat.sub mx mn) = true ->
  inside_down (y_of mn (span_of mn mx) v).
Proof.
  intros Fn Fx Fv Hlo Hhi Fd.
  apply (Float64.leb_val _ _ Fn Fv) in Hlo. apply (Float64.leb_val _ _ Fv Fx) in Hhi.
  destruct (span_of_binary64 mn mx Fn Fx) as [Es Ts].
  destruct (Z_val 0 ltac:(lia)) as [F0 V0].
  destruct (Z_val 1 ltac:(lia)) as [F1 V1].
  destruct (Z_val (top padding) ltac:(cbn; lia)) as [Ft Vt].
  destruct (Z_val innerHeight ltac:(cbn; lia)) as [Fh Vh].
  destruct (Z_val (height - bottom padding) ltac:(cbn; lia)) as [Fb Vb].
  change (inject_Z 0) with 0%Q in V0. change (inject_Z 1) with 1%Q in V1.
  change (inject_Z (top padding)) with 14%Q in Vt.
  change (inject_Z innerHeight) with 98%Q in Vh.
  change (inject_Z (height - bottom padding)) with 112%Q in Vb.
  set (span := span_of mn mx) in *.
  set (a := PrimFloat.sub v mn).
  pose proof (Float64.sub_rounded v mn Fv Fn Hlo) as Ra. fold a in Ra.
  assert (Hspan : binary64_isFinite span = true /\ (0 < Float64.val span)%Q /\
                  binary64_isFinite a = true /\ (0 <= Float64.val a <= Float64.val span)%Q).
  { destruct (PrimFloat.eqb mx mn) eqn:Eq.
    - assert (E1 : span = of_Z 1) by (rewrite Es; reflexivity).
      rewrite E1, V1. split; [exact F1|]. split; [lra|].
      apply Float64.eqb_val in Eq; [|exact Fx|exact Fn].
      destruct (Float64.result_upper _ a (of_Z 0) Ra F0 ltac:(lra)) as [Fa Ha].
      split; [exact Fa|]. lra.
    - assert (Fs : binary64_isFinite span = true) by (rewrite Es; exact Fd).
      pose proof (Float64.sub_rounded mx mn Fx Fn ltac:(lra)) as Rs.
      rewrite <- Es in Rs.
      destruct (Float64.result_mono _ _ span span Rs Rs ltac:(lra) Fs) as [_ Ps].
      destruct (Float64.result_mono _ _ a span Ra Rs ltac:(lra) Fs) as [Fa Ha].
      split; [exact Fs|]. split; [apply Float64.truthy_val; [exact Fs|exact Ts|lra]|].
      split; [exact Fa | exact Ha]. }
  destruct Hspan as (Fs & Ps & Fa & Ha).
  set (r := PrimFloat.div a span).
  pose proof (Float64.div_rounded a span Fa Fs ltac:(lra) Ps) as Rr. fold r in Rr.
  destruct (Float64.result_upper _ r (of_Z 1) Rr F1) as [Fr Hr].
  { rewrite V1. apply quotient_at_most_one; lra. }
  rewrite V1 in Hr.
  set (t := PrimFloat.sub (of_Z 1) r).
  pose proof (Float64.sub_rounded (of_Z 1) r F1 Fr ltac:(lra)) as Rt. fold t in Rt.
  destruct (Float64.result_upper _ t (of_Z 1) Rt F1 ltac:(lra)) as [Ft' Ht].
  rewrite V1 in Ht.
  set (u := PrimFloat.mul t (of_Z innerHeight)).
  pose proof (Float64.mul_rounded t (of_Z innerHeight) Ft' Fh ltac:(lra) ltac:(lra))
    as Ru. fold u in Ru.
  destruct (Float64.result_upper _ u (of_Z innerHeight) Ru Fh) as [Fu Hu].
  { rewrite Vh. lra. }
  rewrite Vh in Hu.
  set (y := PrimFloat.add (of_Z (top padding)) u).
  pose proof (Float64.add_rounded (of_Z (top padding)) u Ft Fu ltac:(lra) ltac:(lra))
    as Ry. fold y in Ry.
  destruct (Float64.result_upper _ y (of_Z (height - bottom padding)) Ry Fb)
    as [Fy Hy].
  { rewrite Vt, Vb. lra. }
  pose proof (Float64.result_lower _ y (of_Z (top padding)) Ry Ft ltac:(lra)
                ltac:(lra) Fy) as Ly.
  change (y_of mn span v) with y.
  split; [exact Fy|]. split.
  - apply (Float64.leb_val _ _ Ft Fy). exact Ly.
  - apply (Float64.leb_val _ _ Fy Fb). lra.
Qed.

Lemma inject_Z_le (a b : Z) : a <= b -> (inject_Z a <= inject_Z b)%Q.
Proof. intros H. now rewrite <- Zle_Qle. Qed.

(** The [x] of a point of the line (line 44): the quotient
    [idx / Math.max(n - 1, 1)] is at most 1. *)
Lemma x_of_inside (n i : Z) :
  0 <= i <= Z.max (n - 1) 1 -> n < 2 ^ 32 -> inside_across (x_of n i).
Proof.
  intros Hi Hn.
  set (m := Z.max (n - 1) 1).
  assert (Hm : 1 <= m < 2 ^ 32) by (unfold m; lia).
  destruct (Z_val i ltac:(fold m in Hi; lia)) as [Fi Vi].
  destruct (Z_val m ltac:(lia)) as [Fm Vm].
  destruct (Z_val 1 ltac:(lia)) as [F1 V1].
  destruct (Z_val (left padding) ltac:(cbn; lia)) as [Fl Vl].
  destruct (Z_val innerWidth ltac:(cbn; lia)) as [Fw Vw].
  destruct (Z_val (width - right padding) ltac:(cbn; lia)) as [Fr Vr].
  change (inject_Z 1) with 1%Q in V1.
  change (inject_Z (left padding)) with 46%Q in Vl.
  change (inject_Z innerWidth) with 204%Q in Vw.
  change (inject_Z (width - right padding)) with 250%Q in Vr.
  pose proof (inject_Z_le 0 i ltac:(lia)) as Hi0.
  pose proof (inject_Z_le i m ltac:(fold m in Hi; lia)) as Him.
  pose proof (inject_Z_le 1 m ltac:(lia)) as Hm1.
  change (inject_Z 0) with 0%Q in Hi0. change (inject_Z 1) with 1%Q in Hm1.
  set (r := PrimFloat.div (of_Z i) (of_Z m)).
  pose proof (Float64.div_rounded (of_Z i) (of_Z m) Fi Fm ltac:(lra) ltac:(lra))
    as Rr. fold r in Rr.
  destruct (Float64.result_upper _ r (of_Z 1) Rr F1) as [Fr' Hr].
  { rewrite V1, Vi, Vm. apply quotient_at_most_one; lra. }
  rewrite V1 in Hr.
  set (p := PrimFloat.mul r (of_Z innerWidth)).
  pose proof (Float64.mul_rounded r (of_Z innerWidth) Fr' Fw ltac:(lra) ltac:(lra))
    as Rp. fold p in Rp.
  destruct (Float64.result_upper _ p (of_Z innerWidth) Rp Fw) as [Fp Hp].
  { rewrite Vw. lra. }
  rewrite Vw in Hp.
  set (x := PrimFloat.add (of_Z (left padding)) p).
  pose proof (Float64.add_rounded (of_Z (left padding)) p Fl Fp ltac:(lra) ltac:(lra))
    as Rx. fold x in Rx.
  destruct (Float64.result_upper _ x (of_Z (width - right padding)) Rx Fr)
    as [Fx Hx].
  { rewrite Vl, Vr. lra. }
  pose proof (Float64.result_lower _ x (of_Z (left padding)) Rx Fl ltac:(lra)
                ltac:(lra) Fx) as Lx.
  change (x_of n i) with x.
  split; [split; [exact Fx|]|].
  - apply (Float64.leb_val _ _ Fl Fx). exact Lx.
  - apply (Float64.leb_val _ _ Fx Fr). lra.
Qed.

(** The doubles [204 + 2 ^ -44] and [250 + 2 ^ -44], and the room that
    rounding [204 / m] leaves. *)
Lemma slack_values :
  binary64_isFinite 0x1.9800000000002p+7%float = true /\
  (Float64.val 0x1.9800000000002p+7%float == 204 + Float64.pow2 (-44))%Q /\
  binary64_isFinite right_slack = true /\
  (Float64.val right_slack == 250 + Float64.pow2 (-44))%Q /\
  (204 * (1 + Float64.pow2 (1 - prec)) <= 204 + Float64.pow2 (-44))%Q /\
  (Float64.pow2 (emin + prec - 1) <= Float64.pow2 (-32))%Q /\
  (Float64.pow2 (-32) * inject_Z (2 ^ 32) == 1)%Q.
Proof. repeat split; vm_compute; congruence. Qed.

(** The [x] of a bar (line 124): the quotient [innerWidth / m] is
    rounded before it is multiplied by [idx], which can carry the product
    beyond [innerWidth], by the rounding of the quotient at most. *)
Lemma bar_x_beside (n i : Z) :
  0 <= i <= Z.max (n - 1) 1 -> n < 2 ^ 32 ->
  beside (PrimFloat.add (of_Z (left padding))
            (PrimFloat.mul (of_Z i)
               (PrimFloat.div (of_Z innerWidth)
                  (of_Z (Z.max (n - 1) 1))))).
Proof.
  intros Hi Hn.
  set (m := Z.max (n - 1) 1) in *.
  assert (Hm : 1 <= m < 2 ^ 32) by (unfold m; lia).
  destruct (Z_val i ltac:(lia)) as [Fi Vi].
  destruct (Z_val m ltac:(lia)) as [Fm Vm].
  destruct (Z_val (left padding) ltac:(cbn; lia)) as [Fl Vl].
  destruct (Z_val innerWidth ltac:(cbn; lia)) as [Fw Vw].
  destruct slack_values as (Fa & Va & Fb & Vb & Hslack & Hsmall & Hunit).
  change (inject_Z (left padding)) with 46%Q in Vl.
  change (inject_Z innerWidth) with 204%Q in Vw.
  pose proof (inject_Z_le 0 i ltac:(lia)) as Hi0.
  pose proof (inject_Z_le i m ltac:(lia)) as Him.
  pose proof (inject_Z_le 1 m ltac:(lia)) as Hm1.
  pose proof (inject_Z_le m (2 ^ 32) ltac:(lia)) as Hm2.
  change (inject_Z 0) with 0%Q in Hi0. change (inject_Z 1) with 1%Q in Hm1.
  pose proof (Float64.pow2_pos (1 - prec)) as Heps.
  pose proof (Float64.pow2_pos (-32)) as H32.
  set (A := (204 / inject_Z m)%Q).
  assert (HA : (0 <= A)%Q) by (apply Qle_shift_div_l; lra).
  assert (HiA : (inject_Z i * A <= 204)%Q).
  { assert (E : (inject_Z i * A == (inject_Z i * 204) / inject_Z m)%Q)
      by (unfold A; field; lra).
    rewrite E. apply Qle_shift_div_r; lra. }
  assert (HAbig : (Float64.pow2 (emin + prec - 1) <= A)%Q).
  { apply Qle_trans with (1 := Hsmall).
    apply Qle_shift_div_l; [lra|].
    apply Qle_trans with (Float64.pow2 (-32) * inject_Z (2 ^ 32))%Q; [|lra].
    apply Qmult_le_compat_nonneg; split; lra. }
  set (w := PrimFloat.div (of_Z innerWidth) (of_Z m)).
  assert (Rw : Float64.rounded A (Prim2SF w)).
  { apply (Float64.rounded_ext (Float64.val (of_Z innerWidth) / Float64.val (of_Z m))).
    - unfold A. now rewrite Vw, Vm.
    - apply Float64.div_rounded; [exact Fw | exact Fm | lra | lra]. }
  destruct (Float64.result_upper _ w (of_Z innerWidth) Rw Fw) as [Fw' Hw].
  { rewrite Vw. unfold A. apply Qle_shift_div_r; lra. }
  pose proof (Float64.result_relative _ w Rw Fw' HAbig) as Hrel.
  set (p := PrimFloat.mul (of_Z i) w).
  pose proof (Float64.mul_rounded (of_Z i) w Fi Fw' ltac:(lra) ltac:(lra)) as Rp.
  fold p in Rp.
  destruct (Float64.result_upper _ p 0x1.9800000000002p+7%float Rp Fa) as [Fp Hp].
  { rewrite Vi, Va. apply Qle_trans with (2 := Hslack).
    apply Qle_trans with (inject_Z i * (A * (1 + Float64.pow2 (1 - prec))))%Q.
    - apply Qmult_le_compat_nonneg; split; lra.
    - rewrite Qmult_assoc. apply Qmult_le_compat_r; lra. }
  rewrite Va in Hp.
  set (x := PrimFloat.add (of_Z (left padding)) p).
  pose proof (Float64.add_rounded (of_Z (left padding)) p Fl Fp ltac:(lra) ltac:(lra))
    as Rx. fold x in Rx.
  destruct (Float64.result_upper _ x right_slack Rx Fb) as [Fx Hx].
  { rewrite Vl, Vb. lra. }
  pose proof (Float64.result_lower _ x (of_Z (left padding)) Rx Fl ltac:(lra)
                ltac:(lra) Fx) as Lx.
  split; [split; [exact Fx|]|].
  - apply (Float64.leb_val _ _ Fl Fx). exact Lx.
  - apply (Float64.leb_val _ _ Fx Fb). lra.
Qed.

End Binary64Chart.

(** ** The claims about the rail *)

(** C1, as the specification words it, fails: two insights of one run
    with the same timestamp stay in the order in which they were emitted
    ([seq] 0 before [seq] 1), not in descending [(runId, seq)] order. *)
Lemma rail_ties_keep_emission_order :
  map (fun i => seq (insight i)) (rail_insights tied_agents) = [0; 1] /\
  ~ Sorted spec_before (rail_insights tied_agents).
Proof.
  split; [reflexivity|].
  intros Hs. inversion Hs as [|a l _ Hhd]; subst.
  inversion Hhd as [|b l' Hab]; subst.
  destruct Hab as [Hlt | [_ Habove]].
  - vm_compute in Hlt. discriminate.
  - vm_compute in Habove. discriminate.
Qed.

Section RailClaims.

Context {N : Type} `{Number N}.

(** C1 (amended).  For every map of agent snapshots the rail holds the
    insights of all agents as one sequence sorted by timestamp, most
    recent first, cut to its first 24: no insight of the rail is older
    than one that follows it or than one that was cut.  Insights of equal
    timestamp are not reordered: they stand in the order in which the
    agents are enumerated and, within an agent, in the order of emission
    (the sort is stable; the code has no other tie-break).  Insights with
    timestamps [100,50,300,200] come out as [300,200,100,50]. *)
Theorem rail_recent_first (agents : Agents (N:=N)) :
  let all := all_insights agents in
  let rail := rail_insights agents in
  StronglySorted not_older rail /\
  List.length rail = Nat.min 24 (List.length all) /\
  (exists cut, Permutation (rail ++ cut) all /\
     forall a b, In a rail -> In b cut -> time b <= time a) /\
  (forall t, exists later, at_time t all = at_time t rail ++ later) /\
  (map time all = [100; 50; 300; 200] ->
   map time rail = [300; 200; 100; 50]).
Proof.
  intros all rail. subst rail. unfold rail_insights, slice0. fold all.
  pose proof (Array_sort_sorted all) as Hs.
  split; [now apply StronglySorted_firstn|].
  split; [now rewrite length_firstn, Array_sort_length|].
  split; [|split].
  - exists (skipn 24 (Array_sort by_recency all)). split.
    + rewrite firstn_skipn. apply Array_sort_perm.
    + intros a b Ha Hb.
      apply (StronglySorted_split not_older 24 _ Hs a b Ha Hb).
  - intros t. rewrite <- (Array_sort_stable t all).
    apply filter_firstn.
  - intros Ht.
    rewrite <- (firstn_map time), Array_sort_times, Ht. reflexivity.
Qed.

(** C8.  The component returns the rail element exactly when some agent
    has an insight: when no agent has one (every agent's [insights] is
    absent or empty) it returns [AnimatePresence] around nothing, and a
    rail that is returned has at least one card, the cards of
    [rail_insights]. *)
Theorem no_insight_no_rail (agents : Agents (N:=N)) :
  (Forall (fun a => insights a = None \/ insights a = Some [])
          (Object_values agents)
   <-> all_insights agents = []) /\
  (all_insights agents = [] <-> FindingsRail agents = AnimatePresence None) /\
  (forall cards, FindingsRail agents = AnimatePresence (Some cards) ->
     cards = map card_of (rail_insights agents) /\ cards <> []).
Proof.
  split; [symmetry; apply all_insights_nil|].
  unfold FindingsRail.
  destruct (rail_insights agents) as [|i l] eqn:E.
  - apply rail_insights_nil in E. simpl. split; [tauto|]. discriminate.
  - simpl. split.
    + split; [|discriminate].
      intros Hall. apply rail_insights_nil in Hall. congruence.
    + intros cards [= <-]. split; [reflexivity | discriminate].
Qed.

End RailClaims.

Lemma rail_recent_first_witness :
  map time (all_insights four_agents) = [100; 50; 300; 200] /\
  map agentId (rail_insights four_agents) = ["c"; "d"; "a"; "b"] /\
  map time (rail_insights four_agents) = [300; 200; 100; 50].
Proof.
  split; [reflexivity|]. split; [reflexivity|].
  apply (rail_recent_first four_agents). reflexivity.
Defined.

(** ** The claims about the chart *)

Section ChartClaims.

Context {N : Type} `{Number N}.

(** C4.  The component draws from the finite values of the first series
    only, and it returns nothing (no chart, [None]) exactly when there is
    no such value: when the series is missing, when its values are
    missing or empty, and when none of them is finite.  The component is
    a total function: there is no other outcome. *)
Theorem no_finite_value_no_chart (chart : ChartSpec (N:=N)) :
  (MiniChart chart = None <-> filter isFinite (series_values chart) = []) /\
  (first_series chart = None -> MiniChart chart = None) /\
  (forall s, first_series chart = Some s ->
     values s = None \/ values s = Some [] -> MiniChart chart = None) /\
  (Forall (fun v => isFinite v = false) (series_values chart) ->
   MiniChart chart = None) /\
  (forall c, MiniChart chart = Some c ->
     drawn_values chart = Some (filter isFinite (series_values chart))).
Proof.
  assert (Hnone : MiniChart chart = None <->
                  filter isFinite (series_values chart) = []).
  { rewrite MiniChart_drawn, drawn_values_filter.
    destruct (filter isFinite (series_values chart)); split;
      congruence. }
  split; [exact Hnone|]. split; [|split; [|split]].
  - intros E. apply Hnone. unfold series_values. now rewrite E.
  - intros s Es [Ev|Ev]; apply Hnone; unfold series_values;
      now rewrite Es, Ev.
  - intros Hall. apply Hnone. clear Hnone.
    induction Hall as [|v l Hv _ IH]; [reflexivity|].
    cbn [filter]. rewrite Hv. exact IH.
  - intros c Ec. rewrite drawn_values_filter.
    destruct (filter isFinite (series_values chart)) eqn:E; [|reflexivity].
    assert (MiniChart chart = None) by now apply Hnone.
    congruence.
Qed.

(** C7.  Two chart specs that agree on title, type, labels and first
    series give the same chart, whatever further series they carry. *)
Theorem only_first_series (c1 c2 : ChartSpec (N:=N)) :
  title c1 = title c2 -> type c1 = type c2 -> labels c1 = labels c2 ->
  first_series c1 = first_series c2 ->
  MiniChart c1 = MiniChart c2.
Proof.
  intros Ht Hy Hl Hs. unfold MiniChart, drawn_values, xLabels_of.
  now rewrite Ht, Hy, Hl, Hs.
Qed.

End ChartClaims.

(** C3.  On the doubles of the browser: when a chart is drawn, [min] and
    [max] are the least and the greatest of the drawn values, and the
    grid, the points and the bars are computed with the span
    [max - min], except for a flat series ([max == min]), where the span
    is 1.  The span is neither zero nor NaN, and neither is the other
    divisor of the points and ticks, [Math.max(n - 1, 1)] for the [n]
    drawn values (as many as there are labels): nothing is divided by
    zero.  For the series [5,5,5] the span is 1: the grid lines stand for
    5, 5.5 and 6.  (An array has fewer than 2^32 elements.) *)
Theorem span_floor (chart : ChartSpec (N:=binary64))
    (values : list binary64) :
  drawn_values chart = Some values ->
  Z.of_nat (List.length values) < 2 ^ 32 ->
  let min := Math_min values in
  let max := Math_max values in
  let span := if PrimFloat.eqb max min then 1%float
              else PrimFloat.sub max min in
  let n := Z.of_nat (List.length values) in
  (In min values /\ In max values /\
   forall v, In v values ->
     PrimFloat.leb min v = true /\ PrimFloat.leb v max = true) /\
  (exists c,
     MiniChart chart = Some c /\
     grid c = yTicks_of min span /\
     marks c = (if String.eqb (type chart) "bar"
                then Bars (bars_of values min span)
                else Polyline (pts_of values min span)) /\
     axis c = xTicks_of (xLabels_of chart values) /\
     List.length (xLabels_of chart values) = List.length values) /\
  (PrimFloat.is_zero span = false /\ PrimFloat.is_nan span = false) /\
  (PrimFloat.is_zero (of_Z (Z.max (n - 1) 1)) = false /\
   PrimFloat.is_nan (of_Z (Z.max (n - 1) 1)) = false) /\
  exists c, MiniChart (series_chart "line" [5%float; 5%float; 5%float])
            = Some c /\
            map value (grid c) = [5%float; 5.5%float; 6%float].
Proof.
  intros Hd Hlen min max span n.
  destruct (drawn_values_binary64 chart values Hd) as [Hne Hfin].
  destruct (Float64.Math_min_binary64 values Hne Hfin) as (Fmin & Imin & Lmin).
  destruct (Float64.Math_max_binary64 values Hne Hfin) as (Fmax & Imax & Lmax).
  fold min in Fmin, Imin, Lmin. fold max in Fmax, Imax, Lmax.
  destruct (span_of_binary64 min max Fmin Fmax) as [Es Ts].
  assert (Hfalsy : forall x : binary64,
             truthy x = true ->
             PrimFloat.is_zero x = false /\ PrimFloat.is_nan x = false).
  { intros x. cbn [truthy binary64_Number].
    destruct (PrimFloat.is_zero x), (PrimFloat.is_nan x);
      cbn; intros; split; congruence. }
  split; [|split; [|split; [|split]]].
  - split; [exact Imin|]. split; [exact Imax|]. intros v Hv. split; auto.
  - destruct (MiniChart chart) as [c|] eqn:Ec.
    + destruct (MiniChart_Some chart c Ec)
        as (series & vs & _ & Hd' & Hg & Ha & Hm).
      rewrite Hd in Hd'. injection Hd' as <-.
      fold min in Hg, Hm. fold max in Hg, Hm. rewrite Es in Hg, Hm.
      exists c. split; [reflexivity|]. split; [exact Hg|].
      split; [exact Hm|]. split; [exact Ha|]. apply xLabels_of_length.
    + apply MiniChart_drawn in Ec. congruence.
  - apply Hfalsy. rewrite Es in Ts. exact Ts.
  - apply Hfalsy. apply Float64.of_Z_truthy. subst n. lia.
  - eexists. split; reflexivity.
Qed.

Lemma span_floor_witness :
  exists c,
    MiniChart (series_chart "bar" [2%float; 2%float]) = Some c /\
    grid c = yTicks_of 2%float 1%float /\
    marks c = Bars (bars_of [2%float; 2%float] 2%float 1%float).
Proof.
  destruct (span_floor (series_chart "bar" [2%float; 2%float])
              [2%float; 2%float] eq_refl eq_refl)
    as (_ & (c & Ec & Hg & Hm & _) & _).
  exists c. split; [exact Ec|]. split; [exact Hg | exact Hm].
Defined.

(** C5.  The labels are compared with the number of values that are
    drawn, not with the length of the series: of a series of three
    values, one of them not a number, three labels (as many as the
    series has values) are dropped for the ordinals "1" and "2", and two
    labels (fewer than the series has values) are used. *)
Lemma labels_compared_with_drawn_values :
  (exists c, MiniChart (gapped_chart ["a"; "b"; "c"]) = Some c /\
             map label (axis c) = [Some "1"; Some "2"]) /\
  (exists c, MiniChart (gapped_chart ["a"; "b"]) = Some c /\
             map label (axis c) = [Some "a"; Some "b"]).
Proof. split; eexists; split; reflexivity. Qed.

(** C6, as the specification words it, fails: the suffixes for 1e9 and
    1e6 are the lower-case letters b and m; and a quotient from 1e21 on
    is written in exponent notation, not with one decimal. *)
Lemma suffixes_are_lower_case :
  formatNumber 2500000000%float = Some "2.5b" /\
  formatNumber 1500000%float = Some "1.5m" /\
  formatNumber 2500000000%float <> spec_formatNumber 2500000000%float /\
  formatNumber 1500000%float <> spec_formatNumber 1500000%float /\
  formatNumber 0x1.93e5939a08ceap+99%float = Some "1e+21b".
Proof.
  split; [reflexivity|]. split; [reflexivity|].
  split; [vm_compute; discriminate|]. split; [vm_compute; discriminate|].
  reflexivity.
Qed.

(** C6 (amended).  On the doubles of the browser, for a chart that is
    drawn: the x axis has ticks at the positions 0, s, 2s, ... below the
    number [n] of labels (as many as values are drawn), with
    s = max(1, ceil(n / 4)) and at most 4 of them, followed by the last
    position [n - 1] unless the stride reached it; every tick carries the
    label of its position.  The text of a y tick of value [q] is:
    [toFixed(1)] of the value divided by 1e9 and the suffix b from 1e9
    on, [toFixed(1)] of the value divided by 1e6 and the suffix m from
    1e6 on, [toFixed(1)] of the value divided by 1e3 and the suffix k
    from 1e3 on, no decimals from 100 on, 2 decimals from 1 on, and 2
    significant digits below (all by absolute value).  [toFixed(f)] of a
    double of magnitude below 1e21 has [f] decimals: the digits of the
    value times [10^f], rounded to the nearest integer, with the point
    before the last [f] of them. *)
Theorem ticks_and_number_format (chart : ChartSpec (N:=binary64))
    (c : Chart) :
  MiniChart chart = Some c ->
  exists values,
    drawn_values chart = Some values /\
    let n := Z.of_nat (List.length values) in
    let step := Z.max 1 (ceil_div n maxTicks) in
    let k := Z.to_nat (ceil_div n step) in
    ((1 <= k <= 4)%nat /\
     map idx (axis c)
     = strides 0 step k ++ (if (Z.of_nat k - 1) * step =? n - 1 then []
                            else [n - 1]) /\
     (forall t, In t (axis c) ->
        0 <= idx t < n /\
        x t = x_of n (idx t) /\
        exists l, label t = Some l /\
                  nth_error (xLabels_of chart values) (Z.to_nat (idx t))
                  = Some l) /\
     last (map idx (axis c)) 0 = n - 1) /\
    (forall t q, In t (grid c) -> binary64_to_Q (value t) = Some q ->
       ((1000000000 <= Qabs q)%Q ->
        exists s, toFixed (div (value t) (of_Z 1000000000)) 1 = Some s /\
                  text t = Some (s ++ "b")%string) /\
       ((1000000 <= Qabs q < 1000000000)%Q ->
        exists s, toFixed (div (value t) (of_Z 1000000)) 1 = Some s /\
                  text t = Some (s ++ "m")%string) /\
       ((1000 <= Qabs q < 1000000)%Q ->
        exists s, toFixed (div (value t) (of_Z 1000)) 1 = Some s /\
                  text t = Some (s ++ "k")%string) /\
       ((100 <= Qabs q < 1000)%Q -> text t = toFixed (value t) 0) /\
       ((1 <= Qabs q < 100)%Q -> text t = toFixed (value t) 2) /\
       ((Qabs q < 1)%Q -> text t = Some (toPrecision_finite q 2))) /\
    (forall (x : binary64) (r : Q) (f : nat),
       binary64_to_Q x = Some r -> (Qabs r < pow10 21)%Q ->
       exists i d,
         toFixed x f
         = Some ((if Qlt_le_dec r 0 then "-" else "")
                 ++ i ++ (match f with O => "" | _ => "." end) ++ d)%string /\
         String.length d = f /\ i <> ""%string /\
         (i ++ d)%string
         = let m := digits (round_half_up (Qabs r * pow10 (Z.of_nat f))%Q) in
           (zeros (f + 1 - String.length m) ++ m)%string).
Proof.
  intros Hc.
  destruct (MiniChart_Some chart c Hc)
    as (series & values & _ & Hd & Hg & Ha & _).
  exists values. split; [exact Hd|]. intros n step k.
  destruct (drawn_values_finite chart values Hd) as [Hne _].
  assert (Hlne : xLabels_of chart values <> []).
  { intros E. apply (f_equal (@List.length string)) in E.
    rewrite xLabels_of_length in E.
    destruct values; [congruence|discriminate]. }
  pose proof (xTicks_of_positions (N:=binary64) _ Hlne) as Hx.
  cbv zeta in Hx. rewrite xLabels_of_length, <- Ha in Hx.
  split; [exact Hx|]. split.
  - intros t q Ht Hq.
    assert (Et : text t = formatNumber (value t)).
    { pose proof (yTicks_of_text (N:=binary64) (Math_min values)
                    (span_of (Math_min values) (Math_max values))) as Hall.
      rewrite <- Hg in Hall. rewrite Forall_forall in Hall. now apply Hall. }
    destruct (formatNumber_on_doubles (value t) q Hq)
      as (H9 & H6 & H3 & H2 & H1 & H0).
    assert (Hsuffix : forall (d : binary64) (u : string),
               formatNumber (value t)
               = option_map (fun s => (s ++ u)%string) (toFixed d 1) ->
               exists s, toFixed d 1 = Some s /\
                         text t = Some (s ++ u)%string).
    { intros d u E. destruct (Float64.toFixed_binary64_total d 1) as [s Es].
      exists s. split; [exact Es|]. rewrite Et, E, Es. reflexivity. }
    split; [intros H; apply Hsuffix; auto|].
    split; [intros H; apply Hsuffix; auto|].
    split; [intros H; apply Hsuffix; auto|].
    assert (E21 : (pow10 21 == 1000000000000000000000)%Q) by reflexivity.
    split; [|split].
    + intros H. rewrite Et, (H2 H). symmetry.
      apply Float64.toFixed_binary64; [exact Hq | rewrite E21; lra].
    + intros H. rewrite Et, (H1 H). symmetry.
      apply Float64.toFixed_binary64; [exact Hq | rewrite E21; lra].
    + intros H. rewrite Et. auto.
  - intros x r f Hr Hlt. rewrite (Float64.toFixed_binary64 x r f Hr Hlt).
    exact (Float64.toFixed_finite_decimals r f Hlt).
Qed.

Lemma ticks_and_number_format_witness :
  exists c,
    MiniChart (series_chart "line" (count_up 9)) = Some c /\
    map idx (axis c) = [0; 3; 6; 8] /\
    map text (grid c) = [Some "1.00"; Some "5.00"; Some "9.00"].
Proof.
  eexists. split; [reflexivity|].
  destruct (ticks_and_number_format (series_chart "line" (count_up 9)) _
              eq_refl) as (values & Hd & Hx & _).
  split; [|reflexivity].
  assert (Hd' : drawn_values (series_chart "line" (count_up 9))
                = Some (count_up 9)) by reflexivity.
  assert (E : values = count_up 9) by congruence.
  subst values. exact (proj1 (proj2 Hx)).
Defined.

(** C9, as stated, fails on the doubles of the browser, by overflow and
    by rounding.  For the two finite values 1e308 and -1e308 the range
    [max - min] overflows to [Infinity], and the [y] of the first point
    is [Infinity / Infinity], not a number.  For the 44 bars of the
    values 1, 2, ..., 44 the [x] of the last bar,
    [46 + 43 * (204 / 43)], is 250.00000000000003, to the right of the
    area, which ends at 250. *)
Lemma marks_leave_area_in_binary64 :
  filter isFinite [huge; neg huge] = [huge; neg huge] /\
  (exists c points,
     MiniChart (series_chart "line" [huge; neg huge]) = Some c /\
     marks c = Polyline points /\
     map (fun p => isNaN (snd p)) points = [true; false]) /\
  filter isFinite (count_up 44) = count_up 44 /\
  (exists c rects,
     MiniChart (series_chart "bar" (count_up 44)) = Some c /\
     marks c = Bars rects /\
     option_map bar_x (nth_error rects 43) = Some 0x1.f400000000001p+7%float /\
     option_map (fun b => PrimFloat.ltb (of_Z (width - right padding))
                                        (bar_x b))
                (nth_error rects 43) = Some true).
Proof.
  split; [reflexivity|]. split.
  - eexists. eexists. split; [vm_compute; reflexivity|].
    split; reflexivity.
  - split; [reflexivity|].
    eexists. eexists. split; [vm_compute; reflexivity|].
    split; [reflexivity|]. split; reflexivity.
Qed.

(** C9 (amended).  On the doubles of the browser: for every chart that
    is drawn, of fewer than 2^32 values whose difference [max - min] is
    finite (does not overflow), every point of the line has a finite [x]
    between [padding.left] and [width - padding.right] and a finite [y]
    between [padding.top] and [height - padding.bottom]; every bar has
    such a [y], and a finite [x] between [padding.left] and
    [width - padding.right + 2 ^ -44]: by rounding, the [x] of a bar can
    lie beyond the right end of the area, by no more than that.  This
    holds also for a series of a single value. *)
Theorem marks_within_area (chart : ChartSpec (N:=binary64)) (c : Chart)
    (values : list binary64) :
  MiniChart chart = Some c ->
  drawn_values chart = Some values ->
  Z.of_nat (List.length values) < 2 ^ 32 ->
  isFinite (sub (Math_max values) (Math_min values)) = true ->
  marks_in_area (marks c).
Proof.
  intros Ec Hd Hlen Fd.
  destruct (MiniChart_Some chart c Ec)
    as (series & vs & _ & Hd' & _ & _ & Hm).
  rewrite Hd in Hd'. injection Hd' as <-. rewrite Hm.
  destruct (drawn_values_binary64 chart values Hd) as [Hne Hfin].
  destruct (Float64.Math_min_binary64 values Hne Hfin) as (Fmin & Imin & Lmin).
  destruct (Float64.Math_max_binary64 values Hne Hfin) as (Fmax & Imax & Lmax).
  assert (Hy : forall v, In v values ->
                 inside_down (y_of (Math_min values)
                                (span_of (Math_min values) (Math_max values))
                                v)).
  { intros v Hv. apply y_of_inside; auto.
    revert v Hv. now apply Forall_forall. }
  destruct (String.eqb (type chart) "bar"); cbn [marks_in_area].
  - unfold bars_of, mapi. apply Forall_mapi_from.
    intros j v Hj Hv. cbn [bar_x bar_y]. split.
    + apply bar_x_beside; lia.
    + now apply Hy.
  - unfold pts_of, mapi. apply Forall_mapi_from.
    intros j v Hj Hv. cbn [fst snd]. split.
    + apply x_of_inside; lia.
    + now apply Hy.
Qed.

Lemma marks_within_area_witness :
  exists c, MiniChart (series_chart "line" [7%float]) = Some c /\
            marks_in_area (marks c).
Proof.
  eexists. split; [reflexivity|].
  apply (marks_within_area (series_chart "line" [7%float]) _ [7%float]);
    reflexivity.
Defined.

Local Open Scope Q_scope.

Lemma only_first_series_witness :
  MiniChart (N:=exact)
    {| title := Some "loss"%string; type := "line"%string; labels := None;
       series := Some [{| name := None; values := Some [Fin 3; Fin 1] |};
                       {| name := None; values := Some [Fin 7] |}] |}
  = MiniChart
    {| title := Some "loss"%string; type := "line"%string; labels := None;
       series := Some [{| name := None; values := Some [Fin 3; Fin 1] |}] |}.
Proof.
  apply only_first_series; reflexivity.
Defined.

(** In exact arithmetic, where no operation rounds or overflows, every
    point of the line and every bar of a chart that is drawn has its [x]
    between [padding.left] and [width - padding.right] and its [y]
    between [padding.top] and [height - padding.bottom]: where a bar
    stands beyond the right end of the area on doubles, it does so by
    rounding. *)
Lemma exact_marks_inside (chart : ChartSpec (N:=exact)) (c : Chart) :
  MiniChart chart = Some c -> marks_inside (marks c).
Proof.
  unfold MiniChart.
  destruct (first_series chart) as [series|]; [|discriminate].
  destruct (drawn_values chart) as [values|] eqn:Hd; [|discriminate].
  intros [= <-]. cbn [marks].
  destruct (drawn_values_exact chart values Hd)
    as (qs & mn & mx & s & -> & Hne & Emn & Emx & Imn & Imx & Hall
        & Es & Hs & Hflat & Hrange).
  rewrite Es, Emn.
  assert (Hy : forall v, In v (map Fin qs) -> down (y_of (Fin mn) (Fin s) v)).
  { intros v Hv. apply in_map_iff in Hv as (q & <- & Hq).
    destruct (Hall q Hq). now apply (y_of_down mn mx s q). }
  destruct (String.eqb (type chart) "bar"); cbn [marks_inside].
  - unfold bars_of, mapi. apply Forall_mapi_from.
    intros j v Hj Hv. cbn [bar_x bar_y]. split.
    + apply bar_x_across. lia.
    + now apply Hy.
  - unfold pts_of, mapi. apply Forall_mapi_from.
    intros j v Hj Hv. cbn [fst snd]. split.
    + apply x_of_across. lia.
    + now apply Hy.
Qed.

(** ** More properties of the rail *)

Section RailFacts.

Context {N : Type} `{Number N}.

Lemma rail_insights_incl (agents : Agents (N:=N))
    (i : InsightWithAgent (N:=N)) :
  In i (rail_insights agents) -> In i (all_insights agents).
Proof.
  unfold rail_insights, slice0. intros Hi.
  apply (Permutation_in _ (Array_sort_perm by_recency (all_insights agents))).
  rewrite <- (firstn_skipn 24 (Array_sort _ _)). apply in_or_app. now left.
Qed.

(** X4.  Every entry of the rail is an insight of one of the agents, tagged
    with the id and the gpu of that agent. *)
Theorem rail_entries_come_from_agents (agents : Agents (N:=N))
    (i : InsightWithAgent (N:=N)) :
  In i (rail_insights agents) ->
  exists a l,
    In a (Object_values agents) /\ insights a = Some l /\
    In (insight i) l /\ agentId i = agent_id a /\ gpu i = agent_gpu a.
Proof.
  intros Hi. apply rail_insights_incl in Hi. unfold all_insights in Hi.
  apply in_flat_map in Hi as (a & Ha & Hi). unfold with_agent in Hi.
  apply in_map_iff in Hi as (j & <- & Hj).
  destruct (insights a) as [l|] eqn:El; [|destruct Hj].
  exists a, l. cbn [insight agentId gpu]. auto.
Qed.

(** X5.  Up to 24 insights all reach the rail, each once. *)
Theorem rail_complete_below_cap (agents : Agents (N:=N)) :
  (List.length (all_insights agents) <= 24)%nat ->
  Permutation (rail_insights agents) (all_insights agents).
Proof.
  intros Hlen. unfold rail_insights, slice0.
  rewrite firstn_all2 by now rewrite Array_sort_length.
  apply Array_sort_perm.
Qed.

Lemma Permutation_at_time (t : Z) (l l' : list (InsightWithAgent (N:=N))) :
  Permutation l l' -> Permutation (at_time t l) (at_time t l').
Proof.
  unfold at_time. induction 1 as [|a l l' _ IH|a b l|l l' l'' _ IH1 _ IH2].
  - constructor.
  - cbn [filter]. destruct (time a =? t); [now constructor | exact IH].
  - cbn [filter]. destruct (time a =? t), (time b =? t);
      try apply Permutation_refl. apply perm_swap.
  - now apply perm_trans with (filter (fun i => time i =? t) l').
Qed.

Lemma at_time_short (t : Z) (l : list (InsightWithAgent (N:=N))) :
  NoDup (map time l) -> (List.length (at_time t l) <= 1)%nat.
Proof.
  unfold at_time. induction l as [|a l IH]; intros Hnd; [simpl; lia|].
  cbn [map] in Hnd. inversion Hnd as [|? ? Hnotin Hnd']; subst.
  cbn [filter]. destruct (time a =? t) eqn:E; [|now apply IH].
  apply Z.eqb_eq in E. cbn [List.length].
  destruct (filter (fun i => time i =? t) l) as [|b l'] eqn:Ef;
    [simpl; lia|].
  assert (Hb : In b (filter (fun i => time i =? t) l))
    by (rewrite Ef; now left).
  apply filter_In in Hb as [Hb Hbt]. apply Z.eqb_eq in Hbt.
  elim Hnotin. rewrite E, <- Hbt. now apply in_map.
Qed.

Lemma at_time_perm_eq (t : Z) (l l' : list (InsightWithAgent (N:=N))) :
  NoDup (map time l) -> Permutation l l' -> at_time t l = at_time t l'.
Proof.
  intros Hnd Hp. pose proof (at_time_short t l Hnd) as Hlen.
  pose proof (Permutation_at_time t l l' Hp) as Hpt.
  destruct (at_time t l) as [|a [|b r]].
  - now apply Permutation_nil in Hpt.
  - now apply Permutation_length_1_inv in Hpt.
  - simpl in Hlen. lia.
Qed.

(** X6.  When no two insights carry the same timestamp, the rail does not
    depend on the order in which the agents are enumerated. *)
Theorem rail_independent_of_agent_order (agents agents' : Agents (N:=N)) :
  Permutation agents agents' ->
  NoDup (map time (all_insights agents)) ->
  rail_insights agents = rail_insights agents'.
Proof.
  intros Hp Hnd. unfold rail_insights. f_equal.
  assert (Hall : Permutation (all_insights agents) (all_insights agents')).
  { unfold all_insights, Object_values.
    apply Permutation_flat_map, Permutation_map, Hp. }
  apply stable_sorted_unique; try apply Array_sort_sorted.
  intros t. rewrite !Array_sort_stable. now apply at_time_perm_eq.
Qed.

Lemma NoDup_firstn {B : Type} (k : nat) (l : list B) :
  NoDup l -> NoDup (firstn k l).
Proof.
  intros Hnd. rewrite <- (firstn_skipn k l) in Hnd.
  now apply NoDup_app_remove_r in Hnd.
Qed.

(** X7.  Distinct insight ids give distinct React keys to the cards. *)
Theorem card_keys_distinct (agents : Agents (N:=N)) (cards : list Card) :
  NoDup (map (fun i => id (insight i)) (all_insights agents)) ->
  FindingsRail agents = AnimatePresence (Some cards) ->
  NoDup (map key cards) /\
  map key cards = map (fun i => id (insight i)) (rail_insights agents).
Proof.
  intros Hnd Hr. unfold FindingsRail in Hr.
  destruct (0 <? List.length (rail_insights agents))%nat; [|discriminate].
  injection Hr as <-. rewrite map_map. cbn [key card_of].
  split; [|reflexivity].
  unfold rail_insights, slice0. rewrite <- firstn_map. apply NoDup_firstn.
  apply (Permutation_NoDup
           (Permutation_map _
              (Permutation_sym (Array_sort_perm by_recency
                                  (all_insights agents))))).
  exact Hnd.
Qed.

(** X8.  A card carries a chart exactly when the chart of its insight has a
    finite value in its first series: the test of line 197 hides nothing
    that [MiniChart] would draw. *)
Theorem card_chart_when_finite (i : InsightWithAgent (N:=N)) :
  card_chart (card_of i)
  = match chart (insight i) with
    | Some c => MiniChart c
    | None => None
    end /\
  (card_chart (card_of i) <> None <->
   exists c, chart (insight i) = Some c /\
             filter isFinite (series_values c) <> []).
Proof.
  assert (E : card_chart (card_of i)
              = match chart (insight i) with
                | Some c => MiniChart c
                | None => None
                end).
  { cbn [card_chart card_of]. unfold chart_of.
    destruct (chart (insight i)) as [c|]; [|reflexivity].
    unfold MiniChart, first_series.
    destruct (series c) as [[|s l]|]; reflexivity. }
  split; [exact E|]. rewrite E.
  destruct (chart (insight i)) as [c|].
  - rewrite MiniChart_drawn, drawn_values_filter. split.
    + intros Hn. exists c. split; [reflexivity|].
      destruct (filter isFinite (series_values c)); [now elim Hn|discriminate].
    + intros (c' & [= <-] & Hf).
      destruct (filter isFinite (series_values c)); [now elim Hf|discriminate].
  - split; [intros Hn; now elim Hn | intros (c & Hc & _); discriminate].
Qed.

Lemma filter_idem {B : Type} (f : B -> bool) (l : list B) :
  filter f (filter f l) = filter f l.
Proof.
  induction l as [|b l IH]; [reflexivity|]. cbn [filter].
  destruct (f b) eqn:E; [|exact IH]. cbn [filter]. now rewrite E, IH.
Qed.

(** X9.  Values that are not finite are ignored altogether: the chart is the
    one of the finite values alone, so the points that follow a dropped
    value move up by one position. *)
Theorem non_finite_values_ignored (chart : ChartSpec (N:=N)) :
  MiniChart (finite_only chart) = MiniChart chart.
Proof.
  unfold finite_only.
  destruct (series chart) as [[|s rest]|] eqn:Es; try reflexivity.
  unfold MiniChart, drawn_values, first_series, xLabels_of.
  cbn [series title type labels name values]. rewrite Es.
  destruct (values s) as [vs|]; cbn [option_map]; [|reflexivity].
  rewrite filter_idem.
  destruct vs as [|v vs]; [reflexivity|].
  destruct (filter isFinite (v :: vs)) as [|w ws] eqn:Ef; reflexivity.
Qed.

End RailFacts.

Lemma rail_entries_come_from_agents_witness :
  exists a l,
    In a (Object_values four_agents) /\ insights a = Some l /\
    In {| runId := "c"; seq := 0; id := "c"; summary := "";
          timestamp := 300; chart := None |} l /\
    "c"%string = agent_id a /\ None = agent_gpu a.
Proof.
  apply (rail_entries_come_from_agents four_agents
           {| insight := {| runId := "c"; seq := 0; id := "c"; summary := "";
                            timestamp := 300; chart := None |};
              agentId := "c"; gpu := None |}).
  now left.
Defined.

Lemma rail_complete_below_cap_witness :
  Permutation (rail_insights four_agents) (all_insights four_agents).
Proof.
  apply (rail_complete_below_cap four_agents). simpl. lia.
Defined.

Lemma rail_independent_of_agent_order_witness :
  rail_insights four_agents = rail_insights (rev four_agents).
Proof.
  apply (rail_independent_of_agent_order four_agents (rev four_agents)).
  - apply Permutation_rev.
  - repeat constructor; simpl; intuition discriminate.
Defined.

Lemma card_keys_distinct_witness :
  NoDup (map key (map card_of (rail_insights four_agents))) /\
  map key (map card_of (rail_insights four_agents))
  = map (fun i => id (insight i)) (rail_insights four_agents).
Proof.
  apply (card_keys_distinct four_agents).
  - repeat constructor; simpl; intuition discriminate.
  - reflexivity.
Defined.

(** ** More properties of the chart *)

Section AxisFacts.

Context {N : Type} `{Number N}.

Local Open Scope Z_scope.

Lemma nth_error_mapi_from {A B : Type} (f : Z -> A -> B) (l : list A) :
  forall (i : Z) (k : nat),
    nth_error (mapi_from i f l) k
    = option_map (f (i + Z.of_nat k)) (nth_error l k).
Proof.
  induction l as [|a l IH]; intros i k.
  - now destruct k.
  - destruct k as [|k]; cbn [mapi_from nth_error option_map].
    + now rewrite Z.add_0_r.
    + rewrite IH. do 2 f_equal. lia.
Qed.

Lemma In_mapi_from {A B : Type} (f : Z -> A -> B) (l : list A) (v : A) :
  forall i, In v l ->
    exists j, i <= j < i + Z.of_nat (List.length l) /\
              In (f j v) (mapi_from i f l).
Proof.
  induction l as [|a l IH]; intros i Hv; [destruct Hv|].
  destruct Hv as [->|Hv].
  - exists i. split; [simpl List.length; lia | now left].
  - destruct (IH (i + 1) Hv) as (j & Hj & Hin).
    exists j. split; [simpl List.length; lia | now right].
Qed.

Lemma Exists_mapi_from {A B : Type} (P : B -> Prop) (f : Z -> A -> B)
    (l : list A) (v : A) (i : Z) :
  In v l -> (forall j, P (f j v)) -> Exists P (mapi_from i f l).
Proof.
  intros Hv HP. destruct (In_mapi_from f l v i Hv) as (j & _ & Hin).
  apply Exists_exists. exists (f j v). auto.
Qed.

Lemma strides_sorted (i step : Z) (k : nat) :
  1 <= step -> StronglySorted Z.lt (strides i step k).
Proof.
  intros Hs. revert i. induction k as [|k IH]; intros i; [constructor|].
  rewrite strides_S. constructor; [apply IH|].
  apply Forall_forall. intros j Hj. unfold strides in Hj.
  apply in_map_iff in Hj as (m & <- & _). nia.
Qed.

Lemma StronglySorted_snoc {B : Type} (R : B -> B -> Prop) (l : list B)
    (b : B) :
  StronglySorted R l -> Forall (fun a => R a b) l ->
  StronglySorted R (l ++ [b]).
Proof.
  induction 1 as [|a l Hs IH Ha]; intros Hb; cbn [app].
  - repeat constructor.
  - inversion Hb as [|? ? Hab Hb']; subst.
    constructor; [now apply IH|].
    apply Forall_app. split; [exact Ha | now constructor].
Qed.

(** X10.  The x axis of a chart that is drawn: between one and five ticks, at
    strictly increasing positions from the first drawn value to the last
    one (the last label is never drawn twice), each with a label. *)
Theorem axis_of_drawn_chart (chart : ChartSpec (N:=N)) (c : Chart)
    (values : list N) :
  MiniChart chart = Some c -> drawn_values chart = Some values ->
  StronglySorted Z.lt (map idx (axis c)) /\
  hd_error (map idx (axis c)) = Some 0 /\
  last (map idx (axis c)) 0 = Z.of_nat (List.length values) - 1 /\
  (1 <= List.length (axis c) <= 5)%nat /\
  Forall (fun t => exists l, label t = Some l) (axis c).
Proof.
  intros Hc Hd.
  destruct (MiniChart_Some chart c Hc) as (series & vs & _ & Hd' & _ & Ha & _).
  rewrite Hd in Hd'. injection Hd' as <-.
  destruct (drawn_values_finite chart values Hd) as [Hne _].
  assert (Hlne : xLabels_of chart values <> []).
  { intros E. apply (f_equal (@List.length string)) in E.
    rewrite xLabels_of_length in E.
    destruct values; [congruence|discriminate]. }
  destruct (xTicks_of_positions (N:=N) _ Hlne) as (Hk & Hidx & Hlab & Hlast).
  cbv zeta in Hk, Hidx, Hlab, Hlast.
  rewrite xLabels_of_length in *. rewrite <- Ha in *.
  set (n := Z.of_nat (List.length values)) in *.
  set (step := Z.max 1 (ceil_div n maxTicks)) in *.
  set (k := Z.to_nat (ceil_div n step)) in *.
  assert (Hn : 1 <= n) by (subst n; destruct values; [congruence|simpl; lia]).
  assert (Hstep : 1 <= step) by (subst step; lia).
  pose proof (ceil_div_spec n step ltac:(lia)) as Hceil.
  destruct (strided_count n Hn) as [Hcount _]. fold step in Hcount.
  split; [|split; [|split; [exact Hlast|split]]].
  - rewrite Hidx.
    destruct ((Z.of_nat k - 1) * step =? n - 1) eqn:E.
    + rewrite app_nil_r. now apply strides_sorted.
    + apply Z.eqb_neq in E.
      apply StronglySorted_snoc; [now apply strides_sorted|].
      apply Forall_forall. intros j Hj. unfold strides in Hj.
      apply in_map_iff in Hj as (m & <- & Hm). apply in_seq in Hm.
      assert (Z.of_nat m <= Z.of_nat k - 1) by lia.
      assert (Z.of_nat k = ceil_div n step) by (subst k; lia).
      nia.
  - rewrite Hidx. destruct k as [|k'] eqn:Ek; [lia|].
    rewrite strides_S. reflexivity.
  - rewrite <- (length_map idx), Hidx, length_app, strides_length.
    destruct ((Z.of_nat k - 1) * step =? n - 1); simpl; lia.
  - apply Forall_forall. intros t Ht.
    destruct (Hlab t Ht) as (_ & _ & l & Hl & _). now exists l.
Qed.

Lemma nth_error_ordinals (n k : nat) :
  (k < n)%nat ->
  nth_error (ordinals n) k = Some (digits (Z.of_nat k + 1)).
Proof.
  intros Hk. unfold ordinals. rewrite nth_error_map.
  rewrite (nth_error_nth' _ 0%nat) by (rewrite length_seq; lia).
  rewrite seq_nth by lia. cbn [option_map]. do 2 f_equal. lia.
Qed.

(** X11.  What the ticks say: the label the spec gives for the position when
    the spec's labels are as many as the drawn values, and the 1-based
    position itself otherwise. *)
Theorem tick_labels (chart : ChartSpec (N:=N)) (c : Chart)
    (values : list N) :
  MiniChart chart = Some c -> drawn_values chart = Some values ->
  Forall (fun t =>
            label t
            = match labels chart with
              | Some l =>
                  if (List.length l =? List.length values)%nat
                  then nth_error l (Z.to_nat (idx t))
                  else Some (digits (idx t + 1))
              | None => Some (digits (idx t + 1))
              end) (axis c).
Proof.
  intros Hc Hd.
  destruct (MiniChart_Some chart c Hc) as (series & vs & _ & Hd' & _ & Ha & _).
  rewrite Hd in Hd'. injection Hd' as <-.
  destruct (drawn_values_finite chart values Hd) as [Hne _].
  assert (Hlne : xLabels_of chart values <> []).
  { intros E. apply (f_equal (@List.length string)) in E.
    rewrite xLabels_of_length in E.
    destruct values; [congruence|discriminate]. }
  destruct (xTicks_of_positions (N:=N) _ Hlne) as (_ & _ & Hlab & _).
  cbv zeta in Hlab. rewrite xLabels_of_length, <- Ha in Hlab.
  apply Forall_forall. intros t Ht.
  destruct (Hlab t Ht) as (Hi & _ & l & Hl & Hn). rewrite Hl, <- Hn.
  rewrite xLabels_of_cases.
  assert (Ho : nth_error (ordinals (List.length values)) (Z.to_nat (idx t))
               = Some (digits (idx t + 1))).
  { rewrite nth_error_ordinals by lia. do 3 f_equal. lia. }
  destruct (labels chart) as [ls|]; [|exact Ho].
  destruct (List.length ls =? List.length values)%nat; [reflexivity|exact Ho].
Qed.

End AxisFacts.

Lemma axis_of_drawn_chart_witness :
  match MiniChart (series_chart "line"
                     [Fin 1; Fin 2; Fin 3; Fin 4; Fin 5; Fin 6; Fin 7]) with
  | Some c =>
      StronglySorted Z.lt (map idx (axis c)) /\
      hd_error (map idx (axis c)) = Some 0%Z /\
      last (map idx (axis c)) 0%Z = (Z.of_nat 7 - 1)%Z /\
      (1 <= List.length (axis c) <= 5)%nat /\
      Forall (fun t => exists l, label t = Some l) (axis c)
  | None => False
  end.
Proof.
  exact (axis_of_drawn_chart
           (series_chart "line"
              [Fin 1; Fin 2; Fin 3; Fin 4; Fin 5; Fin 6; Fin 7])
           _ [Fin 1; Fin 2; Fin 3; Fin 4; Fin 5; Fin 6; Fin 7]
           eq_refl eq_refl).
Defined.

Lemma tick_labels_witness :
  match MiniChart (series_chart "line"
                     [Fin 1; Fin 2; Fin 3; Fin 4; Fin 5; Fin 6; Fin 7]) with
  | Some c =>
      Forall (fun t => label t = Some (digits (idx t + 1))) (axis c)
  | None => False
  end.
Proof.
  exact (tick_labels
           (series_chart "line"
              [Fin 1; Fin 2; Fin 3; Fin 4; Fin 5; Fin 6; Fin 7])
           _ [Fin 1; Fin 2; Fin 3; Fin 4; Fin 5; Fin 6; Fin 7]
           eq_refl eq_refl).
Defined.

Section ExactMore.

Local Open Scope Q_scope.

(** X12.  The three grid lines of a chart that is drawn: at the bottom, the
    middle and the top of the area, labelled with the minimum, the middle
    and the maximum of the data; for a flat series with the value, the
    value plus one half and the value plus one. *)
Theorem grid_spans_the_data (chart : ChartSpec (N:=exact)) (c : Chart) :
  MiniChart chart = Some c ->
  exists values mn mx v0 v1 v2 y0 y1 y2,
    drawn_values chart = Some values /\
    Math_min values = Fin mn /\ Math_max values = Fin mx /\
    map value (grid c) = [Fin v0; Fin v1; Fin v2] /\
    map y (grid c) = [Fin y0; Fin y1; Fin y2] /\
    y0 == 112 /\ y1 == 63 /\ y2 == 14 /\
    v0 == mn /\
    (~ mx == mn -> v1 == (mn + mx) / 2 /\ v2 == mx) /\
    (mx == mn -> v1 == mn + 1 / 2 /\ v2 == mn + 1).
Proof.
  intros Hc.
  destruct (MiniChart_Some chart c Hc) as (series & values & _ & Hd & Hg & _).
  destruct (drawn_values_exact chart values Hd)
    as (qs & mn & mx & s & Ev & Hne & Emn & Emx & Imn & Imx & Hall
        & Es & Hs & Hflat & Hrange).
  rewrite Es, Emn in Hg.
  exists values, mn, mx.
  exists (mn + s * 0), (mn + s * (1 / 2)), (mn + s * 1).
  exists (14 + (1 - 0) * 98), (14 + (1 - 1 / 2) * 98), (14 + (1 - 1) * 98).
  split; [exact Hd|]. split; [exact Emn|]. split; [exact Emx|].
  split; [rewrite Hg; reflexivity|]. split; [rewrite Hg; reflexivity|].
  split; [reflexivity|]. split; [reflexivity|]. split; [reflexivity|].
  split; [ring|]. split.
  - intros Hne'. rewrite (Hrange Hne'). split; [field | ring].
  - intros He. rewrite (Hflat He). split; ring.
Qed.

Lemma grid_spans_the_data_witness :
  exists values mn mx v0 v1 v2 y0 y1 y2,
    drawn_values (series_chart "line" [Fin 2; Fin 8; Fin 4]) = Some values /\
    Math_min values = Fin mn /\ Math_max values = Fin mx /\
    map value (yTicks_of (Fin 2) (Fin (8 - 2))) = [Fin v0; Fin v1; Fin v2] /\
    map y (yTicks_of (N:=exact) (Fin 2) (Fin (8 - 2)))
    = [Fin y0; Fin y1; Fin y2] /\
    y0 == 112 /\ y1 == 63 /\ y2 == 14 /\
    v0 == mn /\
    (~ mx == mn -> v1 == (mn + mx) / 2 /\ v2 == mx) /\
    (mx == mn -> v1 == mn + 1 / 2 /\ v2 == mn + 1).
Proof.
  refine (grid_spans_the_data (series_chart "line" [Fin 2; Fin 8; Fin 4])
            _ eq_refl).
Defined.

(** X13.  The vertical scale is upside down and anchored: a greater value is
    never drawn lower, the minimum is drawn at the bottom of the area (so
    a flat series runs along the bottom) and, unless the series is flat,
    the maximum at the top. *)
Theorem higher_values_are_drawn_higher (chart : ChartSpec (N:=exact))
    (values : list exact) :
  drawn_values chart = Some values ->
  exists mn mx,
    Math_min values = Fin mn /\ Math_max values = Fin mx /\
    let y_at v := y_of (Math_min values)
                       (span_of (Math_min values) (Math_max values))
                       (Fin v) in
    (forall v w, In (Fin v) values -> In (Fin w) values -> v <= w ->
       exists yv yw, y_at v = Fin yv /\ y_at w = Fin yw /\ yw <= yv) /\
    (forall v, In (Fin v) values -> v == mn ->
       exists yv, y_at v = Fin yv /\ yv == 112) /\
    (~ mx == mn -> forall v, In (Fin v) values -> v == mx ->
       exists yv, y_at v = Fin yv /\ yv == 14).
Proof.
  intros Hd.
  destruct (drawn_values_exact chart values Hd)
    as (qs & mn & mx & s & Ev & Hne & Emn & Emx & Imn & Imx & Hall
        & Es & Hs & Hflat & Hrange).
  exists mn, mx. rewrite Es, Emn.
  split; [reflexivity|]. split; [exact Emx|]. cbv zeta.
  assert (Hs0 : ~ s == 0) by lra.
  split; [|split].
  - intros v w _ _ Hvw. rewrite !y_of_Fin by exact Hs0.
    eexists. eexists. split; [reflexivity|]. split; [reflexivity|].
    assert (Hd' : (v - mn) / s <= (w - mn) / s).
    { unfold Qdiv. apply Qmult_le_compat_r; [lra|].
      apply Qinv_le_0_compat. lra. }
    change (inject_Z (top padding)) with 14.
    change (inject_Z innerHeight) with 98.
    set (a := (v - mn) / s) in *. set (b := (w - mn) / s) in *. lra.
  - intros v _ Hv. rewrite y_of_Fin by exact Hs0.
    eexists. split; [reflexivity|].
    change (inject_Z (top padding)) with 14.
    change (inject_Z innerHeight) with 98.
    rewrite Hv. field. exact Hs0.
  - intros Hne' v _ Hv. rewrite y_of_Fin by exact Hs0.
    eexists. split; [reflexivity|].
    change (inject_Z (top padding)) with 14.
    change (inject_Z innerHeight) with 98.
    rewrite Hv. rewrite (Hrange Hne'). field. lra.
Qed.

Lemma higher_values_are_drawn_higher_witness :
  exists mn mx,
    Math_min [Fin 2; Fin 8; Fin 4] = Fin mn /\
    Math_max [Fin 2; Fin 8; Fin 4] = Fin mx /\
    let y_at v := y_of (Math_min [Fin 2; Fin 8; Fin 4])
                       (span_of (Math_min [Fin 2; Fin 8; Fin 4])
                                (Math_max [Fin 2; Fin 8; Fin 4]))
                       (Fin v) in
    (forall v w, In (Fin v) [Fin 2; Fin 8; Fin 4] ->
                 In (Fin w) [Fin 2; Fin 8; Fin 4] -> v <= w ->
       exists yv yw, y_at v = Fin yv /\ y_at w = Fin yw /\ yw <= yv) /\
    (forall v, In (Fin v) [Fin 2; Fin 8; Fin 4] -> v == mn ->
       exists yv, y_at v = Fin yv /\ yv == 112) /\
    (~ mx == mn -> forall v, In (Fin v) [Fin 2; Fin 8; Fin 4] -> v == mx ->
       exists yv, y_at v = Fin yv /\ yv == 14).
Proof.
  apply (higher_values_are_drawn_higher
           (series_chart "line" [Fin 2; Fin 8; Fin 4])).
  reflexivity.
Defined.

(** X14.  The points of a line are spread evenly over the whole width of the
    area: the first at the left edge, the last (of two or more) at the
    right edge, neighbours [innerWidth / (n - 1)] apart.  A single point
    sits at the left edge. *)
Theorem points_evenly_spaced (values : list exact) (mn sp : exact) :
  let n := Z.of_nat (List.length values) in
  let pts := pts_of values mn sp in
  List.length pts = List.length values /\
  (forall p, nth_error pts 0 = Some p ->
     exists a, fst p = Fin a /\ a == 46) /\
  ((2 <= n)%Z ->
   forall p, nth_error pts (List.length values - 1) = Some p ->
     exists a, fst p = Fin a /\ a == 250) /\
  (forall k p p', nth_error pts k = Some p -> nth_error pts (S k) = Some p' ->
     exists a b, fst p = Fin a /\ fst p' = Fin b /\
                 b - a == 204 / inject_Z (n - 1)).
Proof.
  intros n pts. subst pts. unfold pts_of, mapi. fold n.
  split; [apply mapi_from_length|].
  assert (Hx : forall k p,
             nth_error (mapi_from 0%Z
                          (fun idx v => (x_of n idx, y_of mn sp v)) values) k
             = Some p ->
             (Z.of_nat k < n)%Z /\
             fst p = Fin (46 + inject_Z (Z.of_nat k)
                               / inject_Z (Z.max (n - 1) 1) * 204)).
  { intros k p Hp. rewrite nth_error_mapi_from in Hp.
    destruct (nth_error values k) as [v|] eqn:Ev; [|discriminate].
    cbn [option_map] in Hp.
    assert (Ep : p = (x_of n (0 + Z.of_nat k), y_of mn sp v)) by congruence.
    subst p. cbn [fst]. rewrite x_of_Fin. split.
    - assert (k < List.length values)%nat
        by (apply nth_error_Some; congruence).
      subst n. lia.
    - reflexivity. }
  split; [|split].
  - intros p Hp. destruct (Hx 0%nat p Hp) as [_ ->].
    eexists. split; [reflexivity|].
    change (inject_Z (Z.of_nat 0)) with 0. unfold Qdiv. ring.
  - intros Hn p Hp. destruct (Hx _ p Hp) as [_ ->].
    eexists. split; [reflexivity|].
    replace (Z.of_nat (List.length values - 1)) with (n - 1)%Z
      by (subst n; lia).
    replace (Z.max (n - 1) 1) with (n - 1)%Z by lia.
    assert (Hpos : 0 < inject_Z (n - 1)).
    { change 0 with (inject_Z 0). rewrite <- Zlt_Qlt. lia. }
    field. lra.
  - intros k p p' Hp Hp'.
    destruct (Hx k p Hp) as [_ ->]. destruct (Hx (S k) p' Hp') as [Hk ->].
    eexists. eexists. split; [reflexivity|]. split; [reflexivity|].
    replace (Z.max (n - 1) 1) with (n - 1)%Z by lia.
    assert (Hpos : 0 < inject_Z (n - 1)).
    { change 0 with (inject_Z 0). rewrite <- Zlt_Qlt. lia. }
    replace (Z.of_nat (S k)) with (Z.of_nat k + 1)%Z by lia.
    rewrite inject_Z_plus. change (inject_Z 1) with 1.
    field. lra.
Qed.

Lemma points_evenly_spaced_witness :
  exists a b,
    fst (x_of (N:=exact) 3 0, Fin 0) = Fin a /\
    fst (x_of (N:=exact) 3 1, Fin 0) = Fin b /\
    b - a == 204 / inject_Z (3 - 1).
Proof.
  refine (proj2 (proj2 (proj2
            (points_evenly_spaced [Fin 1; Fin 2; Fin 3] (Fin 1) (Fin 2))))
            0%nat _ _ eq_refl eq_refl).
Defined.

Lemma Some_eq {A : Type} (a b : A) : Some a = Some b -> a = b.
Proof. congruence. Qed.

Lemma max2_at_least_one (a : Q) :
  1 <= a -> max2 (Fin a) (Fin (inject_Z 1)) = Fin a.
Proof.
  intros Ha. unfold max2. cbn [isNaN ltb exact_Number exact_isNaN].
  destruct (exact_ltb (Fin a) (Fin (inject_Z 1))) eqn:E; [|reflexivity].
  apply exact_ltb_Fin in E. change (inject_Z 1) with 1 in E. lra.
Qed.

(** The bar at position [k]: its centre, its width and its left edge. *)
Lemma bar_geometry (values : list exact) (mn sp : exact) (k : nat) (b : Bar) :
  nth_error (bars_of values mn sp) k = Some b ->
  let n := Z.of_nat (List.length values) in
  let x := 46 + inject_Z (Z.of_nat k) * (204 / inject_Z (Z.max (n - 1) 1)) in
  let w := 204 / (inject_Z n * (14 / 10)) in
  (Z.of_nat k < n)%Z /\
  bar_x b = Fin x /\ barWidth b = Fin w /\ rect_x b = Fin (x - w / 2).
Proof.
  intros Hb n x w. unfold bars_of, mapi in Hb.
  rewrite nth_error_mapi_from in Hb. fold n in Hb.
  destruct (nth_error values k) as [v|] eqn:Ev; [|discriminate].
  assert (Hk : (Z.of_nat k < n)%Z).
  { assert (k < List.length values)%nat by (apply nth_error_Some; congruence).
    subst n. lia. }
  split; [exact Hk|].
  assert (Ha : 1 <= inject_Z n * (inject_Z 14 / inject_Z 10)).
  { assert (1 <= inject_Z n)
      by (change 1 with (inject_Z 1); rewrite <- Zle_Qle; lia).
    setoid_replace (inject_Z 14 / inject_Z 10) with (7 # 5) by reflexivity.
    lra. }
  cbn [option_map] in Hb. apply Some_eq in Hb. subst b.
  cbn [bar_x barWidth rect_x add mul div sub of_Z exact_Number].
  rewrite !exact_div_Fin by (apply inject_Z_nonzero; lia).
  cbn [exact_mul]. rewrite (max2_at_least_one _ Ha).
  rewrite exact_div_Fin by lra.
  cbn [exact_add]. rewrite exact_div_Fin by (apply inject_Z_nonzero; lia).
  repeat split.
Qed.

Lemma width_bounds (n : Z) :
  (1 <= n)%Z ->
  let w := 204 / (inject_Z n * (14 / 10)) in
  0 < w /\ ((8 <= n)%Z -> w <= 20) /\ ((n <= 7)%Z -> 20 < w) /\
  w * (inject_Z n * (7 # 5)) == 204.
Proof.
  intros Hn w. subst w.
  assert (Hq : 1 <= inject_Z n)
    by (change 1 with (inject_Z 1); rewrite <- Zle_Qle; lia).
  setoid_replace (14 / 10) with (7 # 5) by reflexivity.
  set (a := inject_Z n * (7 # 5)).
  assert (Ha : 0 < a) by (subst a; lra).
  split; [apply Qlt_shift_div_l; [exact Ha | lra]|].
  split; [|split].
  - intros H8. rewrite Zle_Qle in H8. change (inject_Z 8) with 8 in H8.
    apply Qle_shift_div_r; [exact Ha | subst a; lra].
  - intros H7. rewrite Zle_Qle in H7. change (inject_Z 7) with 7 in H7.
    apply Qlt_shift_div_l; [exact Ha | subst a; lra].
  - field. lra.
Qed.

Lemma offset_bounds (k m : Z) :
  (0 <= k <= m)%Z -> (1 <= m)%Z ->
  let d := inject_Z k * (204 / inject_Z m) in
  0 <= d <= 204 /\ (k = m -> d == 204) /\ (k = 0%Z -> d == 0).
Proof.
  intros Hk Hm d. subst d.
  assert (Hpos : 0 < inject_Z m).
  { change 0 with (inject_Z 0). rewrite <- Zlt_Qlt. lia. }
  assert (Hr : 0 <= inject_Z k / inject_Z m <= 1).
  { apply unit_fraction; [| |exact Hpos].
    - change 0 with (inject_Z 0). rewrite <- Zle_Qle. lia.
    - rewrite <- Zle_Qle. lia. }
  assert (E : inject_Z k * (204 / inject_Z m)
              == inject_Z k / inject_Z m * 204) by (field; lra).
  split; [rewrite E; lra|]. split.
  - intros ->. field. lra.
  - intros ->. change (inject_Z 0) with 0. unfold Qdiv. ring.
Qed.

(** X15.  Every bar stands on the x axis: its top and its height add up to the
    bottom of the area, and no height is negative.  The bar of the least
    value has no height at all: the bar at a position shows the value at
    that position, with a height in proportion to what the value exceeds
    the minimum by, none for the minimum itself and some for every other
    value. *)
Theorem bars_stand_on_the_axis (chart : ChartSpec (N:=exact))
    (values : list exact) :
  drawn_values chart = Some values ->
  let bars := bars_of values (Math_min values)
                (span_of (Math_min values) (Math_max values)) in
  Forall (fun b => exists y h, bar_y b = Fin y /\ bar_h b = Fin h /\
                               y + h == 112 /\ 0 <= h) bars /\
  Exists (fun b => exists h, bar_h b = Fin h /\ h == 0) bars /\
  List.length bars = List.length values /\
  exists mn s,
    Math_min values = Fin mn /\
    span_of (Math_min values) (Math_max values) = Fin s /\ 0 < s /\
    forall k b, nth_error bars k = Some b ->
      exists v h, nth_error values k = Some (Fin v) /\ bar_h b = Fin h /\
                  h == 98 * ((v - mn) / s) /\
                  (v == mn -> h == 0) /\ (mn < v -> 0 < h).
Proof.
  intros Hd bars. subst bars.
  destruct (drawn_values_exact chart values Hd)
    as (qs & mn & mx & s & -> & Hne & Emn & Emx & Imn & Imx & Hall
        & Es & Hs & Hflat & Hrange).
  rewrite Es, Emn. unfold bars_of, mapi. split; [|split; [|split]].
  - apply Forall_mapi_from. intros j v Hj Hv. cbn [bar_y bar_h].
    apply in_map_iff in Hv as (q & <- & Hq). destruct (Hall q Hq).
    destruct (y_of_down mn mx s q) as (y & -> & Hy); auto.
    change (inject_Z (height - bottom padding)) with 112 in Hy.
    exists y, (112 - y). split; [reflexivity|]. split; [reflexivity|].
    split; [ring | lra].
  - apply (Exists_mapi_from _ _ _ (Fin mn)); [now apply in_map|].
    intros j.
    cbn [bar_h]. rewrite y_of_Fin by lra.
    eexists. split; [reflexivity|].
    change (inject_Z (height - bottom padding)) with 112.
    change (inject_Z (top padding)) with 14.
    change (inject_Z innerHeight) with 98.
    field. lra.
  - apply mapi_from_length.
  - exists mn, s. split; [reflexivity|]. split; [reflexivity|].
    split; [exact Hs|].
    intros k b Hb. rewrite nth_error_mapi_from, nth_error_map in Hb.
    destruct (nth_error qs k) as [v|] eqn:Ev; [|discriminate].
    cbn [option_map] in Hb. apply Some_eq in Hb. subst b. cbn [bar_h].
    rewrite y_of_Fin by lra.
    exists v. eexists. rewrite nth_error_map, Ev.
    split; [reflexivity|]. split; [reflexivity|].
    change (inject_Z (height - bottom padding)) with 112.
    change (inject_Z (top padding)) with 14.
    change (inject_Z innerHeight) with 98.
    assert (E : 112 + - (14 + (1 - (v - mn) / s) * 98) == 98 * ((v - mn) / s))
      by ring.
    split; [exact E|]. rewrite E. split.
    + intros Hv. rewrite Hv. field. lra.
    + intros Hv. apply Qmult_lt_0_compat; [reflexivity|].
      apply Qlt_shift_div_l; [exact Hs | lra].
Qed.

Lemma bars_stand_on_the_axis_witness :
  let bars := bars_of [Fin 3; Fin 5] (Math_min [Fin 3; Fin 5])
                (span_of (Math_min [Fin 3; Fin 5])
                         (Math_max [Fin 3; Fin 5])) in
  Forall (fun b => exists y h, bar_y b = Fin y /\ bar_h b = Fin h /\
                               y + h == 112 /\ 0 <= h) bars /\
  Exists (fun b => exists h, bar_h b = Fin h /\ h == 0) bars /\
  List.length bars = List.length [Fin 3; Fin 5] /\
  exists mn s,
    Math_min [Fin 3; Fin 5] = Fin mn /\
    span_of (Math_min [Fin 3; Fin 5]) (Math_max [Fin 3; Fin 5]) = Fin s /\
    0 < s /\
    forall k b, nth_error bars k = Some b ->
      exists v h, nth_error [Fin 3; Fin 5] k = Some (Fin v) /\
                  bar_h b = Fin h /\
                  h == 98 * ((v - mn) / s) /\
                  (v == mn -> h == 0) /\ (mn < v -> 0 < h).
Proof.
  apply (bars_stand_on_the_axis (series_chart "bar" [Fin 3; Fin 5])).
  reflexivity.
Defined.

(** X16.  Bars and the picture.  Neighbouring bars never overlap.  With eight
    bars or more every bar lies within the width of the picture; with two
    to seven bars the last bar reaches beyond its right border, and a
    single bar beyond its left border. *)
Theorem bars_and_the_picture (values : list exact) (mn sp : exact) :
  let n := Z.of_nat (List.length values) in
  let bars := bars_of values mn sp in
  (forall k b b', nth_error bars k = Some b -> nth_error bars (S k) = Some b' ->
     exists r w r', rect_x b = Fin r /\ barWidth b = Fin w /\
                    rect_x b' = Fin r' /\ r + w <= r') /\
  ((8 <= n)%Z ->
   Forall (fun b => exists r w, rect_x b = Fin r /\ barWidth b = Fin w /\
                                0 <= r /\ r + w <= inject_Z width) bars) /\
  ((2 <= n <= 7)%Z ->
   forall b, nth_error bars (List.length values - 1) = Some b ->
     exists r w, rect_x b = Fin r /\ barWidth b = Fin w /\
                 inject_Z width < r + w) /\
  (n = 1%Z ->
   forall b, nth_error bars 0 = Some b ->
     exists r, rect_x b = Fin r /\ r < 0).
Proof.
  intros n bars. subst bars.
  change (inject_Z width) with 260.
  split; [|split; [|split]].
  - intros k b b' Hb Hb'.
    destruct (bar_geometry values mn sp k b Hb) as (_ & _ & Hw & Hr).
    destruct (bar_geometry values mn sp (S k) b' Hb') as (Hk & _ & _ & Hr').
    cbv zeta in *. fold n in Hk, Hw, Hr, Hr'.
    eexists. eexists. eexists.
    split; [exact Hr|]. split; [exact Hw|]. split; [exact Hr'|].
    destruct (width_bounds n ltac:(lia)) as (Hpos & _ & _ & Hwa).
    cbv zeta in Hpos, Hwa.
    set (w := 204 / (inject_Z n * (14 / 10))) in *.
    replace (Z.max (n - 1) 1) with (n - 1)%Z by lia.
    replace (Z.of_nat (S k)) with (Z.of_nat k + 1)%Z by lia.
    rewrite inject_Z_plus. change (inject_Z 1) with 1.
    assert (Hm : 0 < inject_Z (n - 1)).
    { change 0 with (inject_Z 0). rewrite <- Zlt_Qlt. lia. }
    assert (Hn1 : inject_Z (n - 1) == inject_Z n - 1).
    { unfold Zminus. rewrite inject_Z_plus. reflexivity. }
    set (g := 204 / inject_Z (n - 1)).
    assert (Hg : g * inject_Z (n - 1) == 204) by (subst g; field; lra).
    assert (Hg0 : 0 < g)
      by (subst g; apply Qlt_shift_div_l; [exact Hm | lra]).
    assert (Hwg : w <= g).
    { destruct (Qlt_le_dec g w) as [L|L]; [|exact L].
      assert (g * (inject_Z n * (7 # 5)) < w * (inject_Z n * (7 # 5))).
      { apply Qmult_lt_compat_r; [lra | exact L]. }
      assert (0 <= g * ((2 # 5) * inject_Z n + 1)).
      { apply Qmult_le_0_compat; lra. }
      assert (E : g * (inject_Z n * (7 # 5))
                  == g * inject_Z (n - 1) + g * ((2 # 5) * inject_Z n + 1)).
      { rewrite Hn1. ring. }
      lra. }
    lra.
  - intros H8. apply Forall_forall. intros b Hin.
    apply In_nth_error in Hin as [k Hb].
    destruct (bar_geometry values mn sp k b Hb) as (Hk & _ & Hw & Hr).
    cbv zeta in *. fold n in Hk, Hw, Hr.
    eexists. eexists. split; [exact Hr|]. split; [exact Hw|].
    destruct (width_bounds n ltac:(lia)) as (Hpos & Hle & _ & _).
    cbv zeta in Hpos, Hle. specialize (Hle H8).
    destruct (offset_bounds (Z.of_nat k) (Z.max (n - 1) 1)
                ltac:(lia) ltac:(lia)) as (Hd & _ & _).
    cbv zeta in Hd.
    set (w := 204 / (inject_Z n * (14 / 10))) in *.
    set (d := inject_Z (Z.of_nat k) * (204 / inject_Z (Z.max (n - 1) 1)))
      in *.
    clearbody w d. clear - Hpos Hle Hd.
    setoid_replace (w / 2) with (w * (1 # 2)) by field. split; lra.
  - intros Hn b Hb.
    destruct (bar_geometry values mn sp _ b Hb) as (Hk & _ & Hw & Hr).
    cbv zeta in *. fold n in Hk, Hw, Hr.
    eexists. eexists. split; [exact Hr|]. split; [exact Hw|].
    destruct (width_bounds n ltac:(lia)) as (Hpos & _ & Hgt & _).
    cbv zeta in Hpos, Hgt. specialize (Hgt ltac:(lia)).
    destruct (offset_bounds (Z.of_nat (List.length values - 1))
                (Z.max (n - 1) 1) ltac:(lia) ltac:(lia)) as (_ & Hd & _).
    cbv zeta in Hd. specialize (Hd ltac:(subst n; lia)).
    set (w := 204 / (inject_Z n * (14 / 10))) in *.
    set (d := inject_Z (Z.of_nat (List.length values - 1))
              * (204 / inject_Z (Z.max (n - 1) 1))) in *.
    clearbody w d. clear - Hpos Hgt Hd.
    setoid_replace (w / 2) with (w * (1 # 2)) by field. lra.
  - intros Hn b Hb.
    destruct (bar_geometry values mn sp _ b Hb) as (Hk & _ & _ & Hr).
    cbv zeta in *. fold n in Hk, Hr. rewrite Hn in Hr.
    eexists. split; [exact Hr|]. reflexivity.
Qed.

Lemma bars_and_the_picture_witness :
  exists b r w,
    nth_error (bars_of [Fin 3; Fin 5] (Fin 3) (Fin 2)) 1 = Some b /\
    rect_x b = Fin r /\ barWidth b = Fin w /\ inject_Z width < r + w.
Proof.
  pose proof (proj1 (proj2 (proj2
                (bars_and_the_picture [Fin 3; Fin 5] (Fin 3) (Fin 2))))) as H.
  cbv zeta in H. specialize (H ltac:(simpl; lia) _ eq_refl).
  destruct H as (r & w & Hr & Hw & Hlt).
  eexists. exists r, w. split; [reflexivity|]. auto.
Defined.

Lemma Qfloor_between (x : Q) (z : Z) :
  inject_Z z <= x -> x < inject_Z (z + 1) -> Qfloor x = z.
Proof.
  intros Hlo Hhi.
  pose proof (Qfloor_le x) as Hf. pose proof (Qlt_floor x) as Hc.
  assert (H1 : inject_Z (Qfloor x) < inject_Z (z + 1)) by lra.
  assert (H2 : inject_Z z < inject_Z (Qfloor x + 1)) by lra.
  rewrite <- Zlt_Qlt in H1, H2. lia.
Qed.

(** X17.  The ranges of [formatNumber] are chosen before the value is rounded:
    a value from 999.5 up to 1000 is still written without decimals and
    without suffix, and comes out as "1000", not as "1.0k". *)
Theorem formatNumber_rounds_into_next_range (q : Q) :
  999 + (1 # 2) <= q -> q < 1000 ->
  formatNumber (Fin q) = Some "1000"%string.
Proof.
  intros Hlo Hhi.
  assert (Habs : Qabs q == q) by (apply Qabs_pos; lra).
  destruct (formatNumber_ranges q) as (_ & _ & _ & H100 & _).
  rewrite H100
    by (change (inject_Z 100) with 100; change (inject_Z 1000) with 1000;
        rewrite Habs; split; lra).
  unfold toFixed_finite.
  destruct (Qlt_le_dec q 0) as [L|_]; [lra|].
  destruct (Qlt_le_dec (Qabs q) (pow10 21)) as [_|L].
  - assert (E : round_half_up (Qabs q * pow10 (Z.of_nat 0)) = 1000%Z).
    { unfold round_half_up. apply Qfloor_between.
      - change (inject_Z 1000) with 1000.
        change (pow10 (Z.of_nat 0)) with 1. rewrite Habs. lra.
      - change (inject_Z (1000 + 1)) with 1001.
        change (pow10 (Z.of_nat 0)) with 1. rewrite Habs. lra. }
    rewrite E. reflexivity.
  - rewrite Habs in L.
    assert (1000 < pow10 21) by reflexivity. lra.
Qed.

Lemma formatNumber_rounds_into_next_range_witness :
  formatNumber (Fin (9997 # 10)) = Some "1000"%string.
Proof.
  apply (formatNumber_rounds_into_next_range (9997 # 10)); reflexivity
    || (intros H; discriminate H).
Defined.

Lemma Forall2_mapi_from {A B C : Type} (R : B -> C -> Prop)
    (f : Z -> A -> B) (g : Z -> A -> C) (l : list A) :
  forall i,
    (forall j v, In v l -> R (f j v) (g j v)) ->
    Forall2 R (mapi_from i f l) (mapi_from i g l).
Proof.
  induction l as [|a l IH]; intros i Hfg; cbn [mapi_from]; constructor.
  - apply Hfg. now left.
  - apply IH. intros j v Hv. apply Hfg. now right.
Qed.

Lemma mapi_from_map {A B C : Type} (h : A -> B) (f : Z -> B -> C)
    (l : list A) :
  forall i, mapi_from i f (map h l) = mapi_from i (fun j a => f j (h a)) l.
Proof.
  induction l as [|a l IH]; intros i; cbn [map mapi_from]; [reflexivity|].
  now rewrite IH.
Qed.

(** Least and greatest value and span of a non-empty series of finite
    values. *)
Lemma series_scale (qs : list Q) :
  qs <> [] ->
  exists mn mx s,
    Math_min (map Fin qs) = Fin mn /\ Math_max (map Fin qs) = Fin mx /\
    span_of (Math_min (map Fin qs)) (Math_max (map Fin qs)) = Fin s /\
    In mn qs /\ In mx qs /\ (forall q, In q qs -> mn <= q <= mx) /\
    0 < s /\ (mx == mn -> s = 1) /\ (~ mx == mn -> s = mx - mn).
Proof.
  intros Hne. destruct qs as [|q qs]; [now elim Hne|].
  destruct (Math_min_Fin q qs) as (mn & Emn & Imn & Lmn).
  destruct (Math_max_Fin q qs) as (mx & Emx & Imx & Lmx).
  destruct (span_of_Fin mn mx (Lmn mx Imx)) as (s & Es & Hs & Hflat & Hrange).
  exists mn, mx, s. rewrite Emn, Emx.
  split; [reflexivity|]. split; [reflexivity|]. split; [exact Es|].
  split; [exact Imn|]. split; [exact Imx|].
  split; [intros q' Hq'; split; auto|].
  split; [exact Hs|]. split; assumption.
Qed.

(** X18.  The line shows the shape of the data only: when every value [q] is
    replaced by [a * q + b] with [a > 0], every point stays where it
    was. *)
Theorem points_invariant_under_rescaling (qs : list Q) (a b : Q) :
  0 < a -> qs <> [] ->
  let vs := map Fin qs in
  let ws := map (fun q => Fin (a * q + b)) qs in
  Forall2 (fun p p' =>
             exists x y x' y',
               p = (Fin x, Fin y) /\ p' = (Fin x', Fin y') /\
               x == x' /\ y == y')
          (pts_of vs (Math_min vs) (span_of (Math_min vs) (Math_max vs)))
          (pts_of ws (Math_min ws) (span_of (Math_min ws) (Math_max ws))).
Proof.
  intros Ha Hne vs ws. subst vs ws.
  rewrite <- (map_map (fun q => a * q + b) Fin).
  set (rs := map (fun q => a * q + b) qs).
  assert (Hrne : rs <> [])
    by (subst rs; destruct qs; [congruence|discriminate]).
  destruct (series_scale qs Hne)
    as (mn & mx & s & Emn & Emx & Es & Imn & Imx & Hall & Hs & Hflat & Hrange).
  destruct (series_scale rs Hrne)
    as (mn' & mx' & s' & Emn' & Emx' & Es' & Imn' & Imx' & Hall' & Hs'
        & Hflat' & Hrange').
  assert (Hmn : mn' == a * mn + b).
  { apply Qle_antisym.
    - apply Hall'. subst rs. now apply (in_map (fun q => a * q + b)).
    - subst rs. apply in_map_iff in Imn' as (q1 & <- & Hq1).
      destruct (Hall q1 Hq1) as [H1 _].
      assert (a * mn <= a * q1) by (apply Qmult_le_l; assumption).
      lra. }
  assert (Hmx : mx' == a * mx + b).
  { apply Qle_antisym.
    - subst rs. apply in_map_iff in Imx' as (q1 & <- & Hq1).
      destruct (Hall q1 Hq1) as [_ H1].
      assert (a * q1 <= a * mx) by (apply Qmult_le_l; assumption).
      lra.
    - apply Hall'. subst rs. now apply (in_map (fun q => a * q + b)). }
  rewrite Es, Es', Emn, Emn'. unfold pts_of, mapi.
  subst rs. rewrite !mapi_from_map, !length_map.
  apply Forall2_mapi_from. intros j q Hq.
  destruct (Hall q Hq) as [Hlo Hhi].
  rewrite !x_of_Fin, !y_of_Fin by lra.
  eexists. eexists. eexists. eexists.
  split; [reflexivity|]. split; [reflexivity|]. split; [reflexivity|].
  assert (E : (a * q + b - mn') / s' == (q - mn) / s).
  { destruct (Qeq_dec mx mn) as [Ef|Ef].
    - assert (Ef' : mx' == mn') by (rewrite Hmx, Hmn, Ef; reflexivity).
      rewrite (Hflat Ef), (Hflat' Ef'), Hmn.
      assert (Eq : q == mn) by (apply Qle_antisym; lra).
      rewrite Eq. field.
    - assert (Ef' : ~ mx' == mn').
      { intros E'. rewrite Hmx, Hmn in E'. apply Ef.
        assert (a * mx == a * mn) by lra.
        apply (Qmult_inj_l mx mn a); [lra | assumption]. }
      rewrite (Hrange Ef), (Hrange' Ef'), Hmx, Hmn. field. split; lra. }
  rewrite E. reflexivity.
Qed.

Lemma points_invariant_under_rescaling_witness :
  Forall2 (fun p p' =>
             exists x y x' y',
               p = (Fin x, Fin y) /\ p' = (Fin x', Fin y') /\
               x == x' /\ y == y')
          (pts_of [Fin 1; Fin 4; Fin 2] (Math_min [Fin 1; Fin 4; Fin 2])
             (span_of (Math_min [Fin 1; Fin 4; Fin 2])
                      (Math_max [Fin 1; Fin 4; Fin 2])))
          (pts_of [Fin (10 * 1 + 5); Fin (10 * 4 + 5); Fin (10 * 2 + 5)]
             (Math_min [Fin (10 * 1 + 5); Fin (10 * 4 + 5); Fin (10 * 2 + 5)])
             (span_of
                (Math_min
                   [Fin (10 * 1 + 5); Fin (10 * 4 + 5); Fin (10 * 2 + 5)])
                (Math_max
                   [Fin (10 * 1 + 5); Fin (10 * 4 + 5); Fin (10 * 2 + 5)]))).
Proof.
  apply (points_invariant_under_rescaling [1; 4; 2] 10 5).
  - reflexivity.
  - discriminate.
Defined.

End ExactMore.

(** ** The components on sample inputs *)

(** A line of three values on the numbers of the browser: the points, the
    texts of the y axis and the labels of the x axis. *)
Example line_chart_binary64 :
  let out := MiniChart (series_chart "line" [1%float; 2%float; 3%float]) in
  option_map marks out
  = Some (Polyline [(46%float, 112%float); (148%float, 63%float);
                    (250%float, 14%float)]) /\
  option_map (fun c => map text (grid c)) out
  = Some [Some "1.00"%string; Some "2.00"%string; Some "3.00"%string] /\
  option_map (fun c => map label (axis c)) out
  = Some [Some "1"%string; Some "2"%string; Some "3"%string].
Proof. repeat split; vm_compute; reflexivity. Qed.

Example formatNumber_binary64 :
  map formatNumber
      [2500000000%float; 1500000%float; 1234.5%float; 123.5%float;
       12.375%float; 0.015625%float; 0%float; (-1234.5)%float]
  = [Some "2.5b"%string; Some "1.5m"%string; Some "1.2k"%string;
     Some "124"%string; Some "12.38"%string; Some "0.016"%string;
     Some "0.0"%string; Some "-1.2k"%string].
Proof. vm_compute. reflexivity. Qed.

(** The same line in exact arithmetic. *)
Example line_chart_exact :
  option_map marks (MiniChart (series_chart "line" [Fin 1; Fin 2; Fin 3]))
  = Some (Polyline
            [(Fin (46 + 0 / 2 * 204), Fin (14 + (1 - (1 - 1) / (3 - 1)) * 98));
             (Fin (46 + 1 / 2 * 204), Fin (14 + (1 - (2 - 1) / (3 - 1)) * 98));
             (Fin (46 + 2 / 2 * 204), Fin (14 + (1 - (3 - 1) / (3 - 1)) * 98))]).
Proof. reflexivity. Qed.

(** Just below a thousand, on the numbers of the browser. *)
Example formatNumber_below_thousand_binary64 :
  map formatNumber [999.75%float; 999.25%float; 1000%float]
  = [Some "1000"%string; Some "999"%string; Some "1.0k"%string].
Proof. vm_compute. reflexivity. Qed.

(** Eight labels: four strided ticks and the last label. *)
Example eight_labels_five_ticks :
  map idx (xTicks_of (N:=exact)
             ["a"; "b"; "c"; "d"; "e"; "f"; "g"; "h"]%string)
  = [0; 2; 4; 6; 7]%Z.
Proof. reflexivity. Qed.

(** More than 24 insights: the 24 most recent ones stay. *)
Example rail_cap :
  List.length (all_insights thirty_agents) = 30%nat /\
  map time (rail_insights thirty_agents)
  = map Z.of_nat (rev (List.seq 7 24)).
Proof. split; vm_compute; reflexivity. Qed.

(** The rectangle of a bar is drawn around its centre: for a single bar
    its left edge [x - barWidth / 2] is left of the drawing area. *)
Example single_bar_left_edge :
  map (fun b => exact_ltb (rect_x b) (of_Z 0))
      (bars_of [Fin 7] (Fin 7) (Fin 1))
  = [true].
Proof. reflexivity. Qed.

End FindingsRail.
